(** * QueueManager: byte FIFO queues inside one fixed 2048-byte block

    A shallow embedding of [QueueManager.cpp].  The storage block is
    modelled through the three typed views the source overlays on it
    (descriptor table, allocator globals, segment pool); every function of
    the source becomes a computation in a small state-and-exit monad. *)

From Stdlib Require Import ZArith Lia.
From Stdlib.Strings Require Import Byte.
From stdpp Require Import base list list_numbers strings.

Open Scope Z_scope.

(** ** Constants *)

Definition DATA_SIZE : Z := 2048.
Definition MAX_QUEUES : Z := 64.
Definition DESCRIPTOR_SIZE : Z := 8.
Definition DESCRIPTORS_AREA : Z := MAX_QUEUES * DESCRIPTOR_SIZE.
Definition GLOBAL_DATA_SIZE : Z := 8.
Definition SEG_PAYLOAD_SIZE : Z := 14.
Definition SEG_SIZE : Z := SEG_PAYLOAD_SIZE + 2.
Definition SEGMENT_COUNT : Z :=
  (DATA_SIZE - DESCRIPTORS_AREA - GLOBAL_DATA_SIZE) / SEG_SIZE.
Definition UINT16_MAX : Z := 65535.
Definition INVALID_INDEX : Z := UINT16_MAX.

(** Wrap-around of the unsigned 16-bit and 8-bit fields. *)
Definition wrap16 (z : Z) : Z := z mod 65536.
Definition wrap8 (z : Z) : Z := z mod 256.

(** ** Structured data types *)

Record GlobalData := {
  free_list_head : Z;
  next_unused : Z;
  initialized : Z
}.

Record Q := {
  head_segment : Z;
  tail_segment : Z;
  head_offset : Z;
  tail_offset : Z;
  in_use : Z;
  pad : Z
}.

Record Segment := {
  next : Z;
  data : list byte
}.

(** The [layout] view of the union [DataOverlay]. *)
Record DataOverlay := {
  descriptors : list Q;
  global_data : GlobalData;
  segments : list Segment
}.

(** A [Q *]: the null pointer, or [descriptors() + i]. *)
Inductive Qptr :=
| nullptr
| desc_ptr (i : Z).

(** Field assignments. *)
Definition set_free_list_head (v : Z) (g : GlobalData) : GlobalData :=
  {| free_list_head := v; next_unused := next_unused g;
     initialized := initialized g |}.
Definition set_next_unused (v : Z) (g : GlobalData) : GlobalData :=
  {| free_list_head := free_list_head g; next_unused := v;
     initialized := initialized g |}.
Definition set_next (v : Z) (s : Segment) : Segment :=
  {| next := v; data := data s |}.
Definition set_data (v : list byte) (s : Segment) : Segment :=
  {| next := next s; data := v |}.
Definition set_head_segment (v : Z) (q : Q) : Q :=
  {| head_segment := v; tail_segment := tail_segment q;
     head_offset := head_offset q; tail_offset := tail_offset q;
     in_use := in_use q; pad := pad q |}.
Definition set_tail_segment (v : Z) (q : Q) : Q :=
  {| head_segment := head_segment q; tail_segment := v;
     head_offset := head_offset q; tail_offset := tail_offset q;
     in_use := in_use q; pad := pad q |}.
Definition set_head_offset (v : Z) (q : Q) : Q :=
  {| head_segment := head_segment q; tail_segment := tail_segment q;
     head_offset := v; tail_offset := tail_offset q;
     in_use := in_use q; pad := pad q |}.
Definition set_tail_offset (v : Z) (q : Q) : Q :=
  {| head_segment := head_segment q; tail_segment := tail_segment q;
     head_offset := head_offset q; tail_offset := v;
     in_use := in_use q; pad := pad q |}.
Definition set_in_use (v : Z) (q : Q) : Q :=
  {| head_segment := head_segment q; tail_segment := tail_segment q;
     head_offset := head_offset q; tail_offset := tail_offset q;
     in_use := v; pad := pad q |}.

Definition set_descriptors (v : list Q) (s : DataOverlay) : DataOverlay :=
  {| descriptors := v; global_data := global_data s; segments := segments s |}.
Definition set_global_data (v : GlobalData) (s : DataOverlay) : DataOverlay :=
  {| descriptors := descriptors s; global_data := v; segments := segments s |}.
Definition set_segments (v : list Segment) (s : DataOverlay) : DataOverlay :=
  {| descriptors := descriptors s; global_data := global_data s; segments := v |}.

(** [unsigned char data[2048] = {0}]: everything starts as zero bytes. *)
Definition zero_Q : Q :=
  {| head_segment := 0; tail_segment := 0; head_offset := 0;
     tail_offset := 0; in_use := 0; pad := 0 |}.
Definition zero_Segment : Segment :=
  {| next := 0; data := replicate (Z.to_nat SEG_PAYLOAD_SIZE) x00 |}.
Definition zero_data : DataOverlay :=
  {| descriptors := replicate (Z.to_nat MAX_QUEUES) zero_Q;
     global_data := {| free_list_head := 0; next_unused := 0; initialized := 0 |};
     segments := replicate (Z.to_nat SEGMENT_COUNT) zero_Segment |}.

(** ** The monad: state, process exit, out-of-bounds access *)

Inductive result (A : Type) :=
| Ret (a : A) (s : DataOverlay)      (* the call returns *)
| Exit (out : string) (status : Z)   (* printf of [out], then std::exit *)
| Undefined                          (* an access outside an array *)
| OutOfFuel.                         (* a loop ran longer than the fuel *)
Arguments Ret {A} a s.
Arguments Exit {A} out status.
Arguments Undefined {A}.
Arguments OutOfFuel {A}.

Definition M (A : Type) : Type := DataOverlay -> result A.

Definition ret {A} (a : A) : M A := fun s => Ret a s.
Definition bind {A B} (m : M A) (f : A -> M B) : M B :=
  fun s => match m s with
           | Ret a s' => f a s'
           | Exit o c => Exit o c
           | Undefined => Undefined
           | OutOfFuel => OutOfFuel
           end.
Definition undefined {A} : M A := fun _ => Undefined.
Definition out_of_fuel {A} : M A := fun _ => OutOfFuel.

Notation "'let*' x ':=' m 'in' k" := (bind m (fun x => k))
  (at level 10, x name, m at level 100, k at level 200).
Notation "m ';;' k" := (bind m (fun _ => k))
  (at level 100, k at level 200, right associativity).

(** Array indexing with an integer index. *)
Definition lookupZ {A} (l : list A) (i : Z) : option A :=
  if 0 <=? i then l !! Z.to_nat i else None.
Definition insertZ {A} (i : Z) (x : A) (l : list A) : list A :=
  <[Z.to_nat i := x]> l.

(** [global_data()] *)
Definition load_global : M GlobalData := fun s => Ret (global_data s) s.
Definition store_global (g : GlobalData) : M unit :=
  fun s => Ret tt (set_global_data g s).

(** [seg(idx)] *)
Definition load_seg (idx : Z) : M Segment :=
  fun s => match lookupZ (segments s) idx with
           | Some x => Ret x s
           | None => Undefined
           end.
Definition store_seg (idx : Z) (x : Segment) : M unit :=
  fun s => match lookupZ (segments s) idx with
           | Some _ => Ret tt (set_segments (insertZ idx x (segments s)) s)
           | None => Undefined
           end.

(** [seg(idx).data[off]] *)
Definition load_payload (idx off : Z) : M byte :=
  let* sg := load_seg idx in
  match lookupZ (data sg) off with
  | Some b => ret b
  | None => undefined
  end.
Definition store_payload (idx off : Z) (b : byte) : M unit :=
  let* sg := load_seg idx in
  match lookupZ (data sg) off with
  | Some _ => store_seg idx (set_data (insertZ off b (data sg)) sg)
  | None => undefined
  end.

(** [*q] *)
Definition load_desc (q : Qptr) : M Q :=
  fun s => match q with
           | nullptr => Undefined
           | desc_ptr i =>
               match lookupZ (descriptors s) i with
               | Some d => Ret d s
               | None => Undefined
               end
           end.
Definition store_desc (q : Qptr) (d : Q) : M unit :=
  fun s => match q with
           | nullptr => Undefined
           | desc_ptr i =>
               match lookupZ (descriptors s) i with
               | Some _ => Ret tt (set_descriptors (insertZ i d (descriptors s)) s)
               | None => Undefined
               end
           end.

(** ** Fatal paths *)

Definition newline : string := String (Ascii.ascii_of_nat 10) EmptyString.

Definition on_out_of_memory : M unit :=
  fun _ => Exit ("QueueManager: out of memory" +:+ newline) 1.

Definition on_illegal_operation : M unit :=
  fun _ => Exit ("QueueManager: illegal operation" +:+ newline) 1.

(** ** Segment allocator *)

(** The one-time set-up at the start of [allocate_segment]. *)
Definition lazy_init (g : GlobalData) : GlobalData :=
  if initialized g =? 0
  then {| free_list_head := INVALID_INDEX; next_unused := 0; initialized := 1 |}
  else g.

Definition allocate_segment : M Z :=
  let* g0 := load_global in
  store_global (lazy_init g0) ;;
  let* g := load_global in
  if negb (free_list_head g =? INVALID_INDEX) then
    let idx := free_list_head g in
    let* sg := load_seg idx in
    store_global (set_free_list_head (next sg) g) ;;
    ret idx
  else if next_unused g <? SEGMENT_COUNT then
    store_global (set_next_unused (wrap16 (next_unused g + 1)) g) ;;
    ret (next_unused g)
  else
    on_out_of_memory ;;
    ret INVALID_INDEX.

Definition free_segment (idx : Z) : M unit :=
  let* g := load_global in
  let* sg := load_seg idx in
  store_seg idx (set_next (free_list_head g) sg) ;;
  let* g := load_global in
  store_global (set_free_list_head idx g).

(** ** Public interface *)

(** The [for] loop of [create_queue]: [n] iterations left, at slot [i]. *)
Fixpoint create_queue_scan (n : nat) (i : Z) : M Qptr :=
  match n with
  | O => on_out_of_memory ;; ret nullptr
  | S n' =>
      let* d := load_desc (desc_ptr i) in
      if in_use d =? 0 then
        store_desc (desc_ptr i)
          {| in_use := 1; head_segment := INVALID_INDEX;
             tail_segment := INVALID_INDEX; head_offset := 0;
             tail_offset := 0; pad := pad d |} ;;
        ret (desc_ptr i)
      else create_queue_scan n' (i + 1)
  end.

Definition create_queue : M Qptr :=
  create_queue_scan (Z.to_nat MAX_QUEUES) 0.

(** [q >= base && q < base + MAX_QUEUES] *)
Definition in_table (q : Qptr) : bool :=
  match q with
  | nullptr => false
  | desc_ptr i => (0 <=? i) && (i <? MAX_QUEUES)
  end.

(** The [while] loop of [destroy_queue]. *)
Fixpoint destroy_walk (fuel : nat) (seg_idx : Z) : M unit :=
  match fuel with
  | O => out_of_fuel
  | S fuel' =>
      if negb (seg_idx =? INVALID_INDEX) then
        let* sg := load_seg seg_idx in
        let nxt := next sg in
        free_segment seg_idx ;;
        destroy_walk fuel' nxt
      else ret tt
  end.

Definition destroy_queue (fuel : nat) (q : Qptr) : M unit :=
  match q with nullptr => on_illegal_operation | desc_ptr _ => ret tt end ;;
  (if in_table q then
     let* d := load_desc q in
     if in_use d =? 0 then on_illegal_operation else ret tt
   else on_illegal_operation) ;;
  let* d := load_desc q in
  destroy_walk fuel (head_segment d) ;;
  let* d := load_desc q in
  store_desc q (set_in_use 0 d).

(** [if (!q || !q->in_use) on_illegal_operation();] *)
Definition check_handle (q : Qptr) : M unit :=
  match q with
  | nullptr => on_illegal_operation
  | desc_ptr _ =>
      let* d := load_desc q in
      if in_use d =? 0 then on_illegal_operation else ret tt
  end.

Definition enqueue_byte (q : Qptr) (b : byte) : M unit :=
  check_handle q ;;
  let* d := load_desc q in
  (if tail_segment d =? INVALID_INDEX then
     let* new_seg := allocate_segment in
     let* sg := load_seg new_seg in
     store_seg new_seg (set_next INVALID_INDEX sg) ;;
     let* d := load_desc q in
     store_desc q (set_tail_offset 0 (set_head_offset 0
                  (set_head_segment new_seg (set_tail_segment new_seg d))))
   else ret tt) ;;
  let* d := load_desc q in
  let tail := tail_segment d in
  store_payload tail (tail_offset d) b ;;
  store_desc q (set_tail_offset (wrap8 (tail_offset d + 1)) d) ;;
  let* d := load_desc q in
  if tail_offset d =? SEG_PAYLOAD_SIZE then
    let* new_seg := allocate_segment in
    let* sg := load_seg new_seg in
    store_seg new_seg (set_next INVALID_INDEX sg) ;;
    let* tl := load_seg tail in
    store_seg tail (set_next new_seg tl) ;;
    let* d := load_desc q in
    store_desc q (set_tail_offset 0 (set_tail_segment new_seg d))
  else ret tt.

Definition dequeue_byte (q : Qptr) : M byte :=
  check_handle q ;;
  let* d := load_desc q in
  (if head_segment d =? INVALID_INDEX then on_illegal_operation else ret tt) ;;
  let head := head_segment d in
  let* value := load_payload head (head_offset d) in
  store_desc q (set_head_offset (wrap8 (head_offset d + 1)) d) ;;
  let* d := load_desc q in
  if (head_segment d =? tail_segment d) && (head_offset d =? tail_offset d) then
    free_segment (head_segment d) ;;
    let* d := load_desc q in
    store_desc q (set_tail_offset 0 (set_head_offset 0
                 (set_head_segment INVALID_INDEX
                 (set_tail_segment INVALID_INDEX d)))) ;;
    ret value
  else
    (if head_offset d =? SEG_PAYLOAD_SIZE then
       let old_seg := head_segment d in
       let* hd := load_seg head in
       store_desc q (set_head_offset 0 (set_head_segment (next hd) d)) ;;
       free_segment old_seg
     else ret tt) ;;
    ret value.

(** Repeated calls on one queue. *)
Fixpoint enqueue_bytes (q : Qptr) (bs : list byte) : M unit :=
  match bs with
  | [] => ret tt
  | b :: bs' => enqueue_byte q b ;; enqueue_bytes q bs'
  end.

Fixpoint dequeue_bytes (q : Qptr) (n : nat) : M (list byte) :=
  match n with
  | O => ret []
  | S n' =>
      let* b := dequeue_byte q in
      let* bs := dequeue_bytes q n' in
      ret (b :: bs)
  end.

(** [main] of the source, with the printed bytes collected. *)
Definition main_trace : M (list byte) :=
  let* q0 := create_queue in
  enqueue_byte q0 x00 ;;
  enqueue_byte q0 x01 ;;
  let* q1 := create_queue in
  enqueue_byte q1 x03 ;;
  enqueue_byte q0 x02 ;;
  enqueue_byte q1 x04 ;;
  let* a := dequeue_bytes q0 2 in
  enqueue_byte q0 x05 ;;
  enqueue_byte q1 x06 ;;
  let* b := dequeue_bytes q0 2 in
  destroy_queue 100 q0 ;;
  let* c := dequeue_bytes q1 3 in
  destroy_queue 100 q1 ;;
  ret (a ++ b ++ c).

Definition returned {A} (r : result A) : option A :=
  match r with Ret a _ => Some a | _ => None end.

(** ** Abstract view of a queue and of the allocator *)

(** [c] is the list of segment indices met when following [next] links
    from [h] until the value [e] is read. *)
Fixpoint is_chain (segs : list Segment) (h : Z) (c : list Z) (e : Z) : Prop :=
  match c with
  | [] => h = e
  | x :: c' =>
      h = x /\ x <> INVALID_INDEX /\
      exists sg, lookupZ segs x = Some sg /\ is_chain segs (next sg) c' e
  end.

Definition seg_data (segs : list Segment) (x : Z) : list byte :=
  match lookupZ segs x with
  | Some sg => data sg
  | None => []
  end.

(** All payload bytes of the segments of a chain, in chain order. *)
Definition chain_payload (segs : list Segment) (c : list Z) : list byte :=
  concat (map (seg_data segs) c).

Definition payload_len : nat := Z.to_nat SEG_PAYLOAD_SIZE.

(** The bytes between the read cursor (in the first segment of [c]) and
    the write cursor (in the last one). *)
Definition queue_bytes (segs : list Segment) (d : Q) (c : list Z) : list byte :=
  drop (Z.to_nat (head_offset d))
    (take (payload_len * (length c - 1) + Z.to_nat (tail_offset d))%nat
       (chain_payload segs c)).

(** Descriptor [d] owns the chain [c] and holds the bytes [l]. *)
Definition desc_rep (segs : list Segment) (d : Q) (c : list Z) (l : list byte) : Prop :=
  match c with
  | [] =>
      head_segment d = INVALID_INDEX /\ tail_segment d = INVALID_INDEX /\ l = []
  | _ :: _ =>
      is_chain segs (head_segment d) c INVALID_INDEX /\
      last c = Some (tail_segment d) /\
      0 <= head_offset d < SEG_PAYLOAD_SIZE /\
      0 <= tail_offset d < SEG_PAYLOAD_SIZE /\
      (length c = 1%nat -> head_offset d <= tail_offset d) /\
      l = queue_bytes segs d c
  end.

(** The same between the two halves of [enqueue_byte]: the write cursor
    may stand at the end of the tail segment. *)
Definition desc_filling (segs : list Segment) (d : Q) (c : list Z) (l : list byte) : Prop :=
  c <> [] /\
  is_chain segs (head_segment d) c INVALID_INDEX /\
  last c = Some (tail_segment d) /\
  0 <= head_offset d < SEG_PAYLOAD_SIZE /\
  0 <= tail_offset d <= SEG_PAYLOAD_SIZE /\
  (length c = 1%nat -> head_offset d <= tail_offset d) /\
  l = queue_bytes segs d c.

(** Slot [i] of the table is a live queue with chain [c] holding [l]. *)
Definition queue_rep (st : DataOverlay) (i : Z) (c : list Z) (l : list byte) : Prop :=
  exists d, lookupZ (descriptors st) i = Some d /\ in_use d <> 0 /\
            desc_rep (segments st) d c l.

(** The allocator as [allocate_segment] sees it after its set-up step. *)
Definition allocator (st : DataOverlay) : GlobalData := lazy_init (global_data st).

(** [fl] is the free list; it and the chain [c] are made of distinct
    segments below the bump pointer. *)
Definition pool_rep (st : DataOverlay) (c fl : list Z) : Prop :=
  is_chain (segments st) (free_list_head (allocator st)) fl INVALID_INDEX /\
  NoDup (c ++ fl) /\
  0 <= next_unused (allocator st) /\
  (forall x, x ∈ c ++ fl -> x < next_unused (allocator st)) /\
  (c <> [] -> initialized (global_data st) <> 0) /\
  length (segments st) = Z.to_nat SEGMENT_COUNT /\
  Forall (fun sg => length (data sg) = payload_len) (segments st).

(** The number of segments the bump pointer has handed out that are
    neither in [c] nor on the free list [fl]. *)
Definition unaccounted (st : DataOverlay) (c fl : list Z) : Z :=
  next_unused (allocator st) - Z.of_nat (length (c ++ fl)).

(** Queue [i] is well formed and holds exactly the bytes [l]. *)
Definition queue_holds (st : DataOverlay) (i : Z) (l : list byte) : Prop :=
  exists c fl, queue_rep st i c l /\ pool_rep st c fl.

(** ** Reachable states of the public interface *)

Inductive reachable : DataOverlay -> Prop :=
| reach_start : reachable zero_data
| reach_create st q st' :
    reachable st -> create_queue st = Ret q st' -> reachable st'
| reach_destroy st fuel q st' :
    reachable st -> destroy_queue fuel q st = Ret tt st' -> reachable st'
| reach_enqueue st q b st' :
    reachable st -> enqueue_byte q b st = Ret tt st' -> reachable st'
| reach_dequeue st q b st' :
    reachable st -> dequeue_byte q st = Ret b st' -> reachable st'.

Definition idx_ok (x : Z) : Prop :=
  x = INVALID_INDEX \/ 0 <= x < SEGMENT_COUNT.

(** A live descriptor has its cursors inside a payload and its segment
    indices in the pool or equal to the sentinel. *)
Definition desc_ok (d : Q) : Prop :=
  in_use d <> 0 ->
  0 <= head_offset d < SEG_PAYLOAD_SIZE /\
  0 <= tail_offset d < SEG_PAYLOAD_SIZE /\
  idx_ok (head_segment d) /\ idx_ok (tail_segment d).

(** Shape of the three arrays and range of every index stored in the
    allocator globals and in the segments. *)
Record pool_safe (st : DataOverlay) : Prop := {
  safe_desc_len : length (descriptors st) = Z.to_nat MAX_QUEUES;
  safe_seg_len : length (segments st) = Z.to_nat SEGMENT_COUNT;
  safe_data_len : Forall (fun sg => length (data sg) = payload_len) (segments st);
  safe_next : Forall (fun sg => idx_ok (next sg)) (segments st);
  safe_free : idx_ok (free_list_head (global_data st));
  safe_bump : 0 <= next_unused (global_data st) <= SEGMENT_COUNT
}.

Definition state_safe (st : DataOverlay) : Prop :=
  pool_safe st /\ Forall desc_ok (descriptors st).

(** What running the loop of [destroy_queue] over the chain [c] does to
    the allocator and the segments: the segments of [c] are pushed on the
    free list in chain order, nothing else changes. *)
Definition chain_released (st : DataOverlay) (c : list Z) (st' : DataOverlay) : Prop :=
  next_unused (global_data st') = next_unused (global_data st) /\
  initialized (global_data st') = initialized (global_data st) /\
  (forall fl e,
      is_chain (segments st) (free_list_head (global_data st)) fl e ->
      (forall x, x ∈ c -> x ∉ fl) ->
      is_chain (segments st') (free_list_head (global_data st')) (reverse c ++ fl) e) /\
  (forall x, x ∉ c -> lookupZ (segments st') x = lookupZ (segments st) x) /\
  (forall x, seg_data (segments st') x = seg_data (segments st) x) /\
  length (segments st') = length (segments st).

(** An operation on queue [i] kept every other descriptor and every
    segment of [o] as it was. *)
Definition kept (i : Z) (o : list Z) (st st' : DataOverlay) : Prop :=
  (forall k, k <> i -> lookupZ (descriptors st') k = lookupZ (descriptors st) k) /\
  (forall y, y ∈ o -> lookupZ (segments st') y = lookupZ (segments st) y).

(** ** The whole table: every live queue with its chain and bytes *)

Record live_queue := {
  lq_slot : Z;
  lq_chain : list Z;
  lq_bytes : list byte
}.

Definition slots (qs : list live_queue) : list Z := map lq_slot qs.
Definition chains (qs : list live_queue) : list Z := concat (map lq_chain qs).

(** The number of bytes the queues [qs] hold together. *)
Definition stored (qs : list live_queue) : nat :=
  sum_list (map (fun q => length (lq_bytes q)) qs).

(** [qs] lists exactly the in-use descriptors, each well formed, and the
    chains of all of them and the free list [fl] share no segment. *)
Definition system_rep (st : DataOverlay) (qs : list live_queue) (fl : list Z) : Prop :=
  NoDup (slots qs) /\
  (forall i d, lookupZ (descriptors st) i = Some d -> in_use d <> 0 -> i ∈ slots qs) /\
  Forall (fun q => queue_rep st (lq_slot q) (lq_chain q) (lq_bytes q)) qs /\
  pool_rep st (chains qs) fl.

(** States reached from the zero-initialized block through calls that
    return, where [dequeue_byte] is never called on a queue that holds
    zero bytes. *)
Inductive legal : DataOverlay -> Prop :=
| legal_start : legal zero_data
| legal_create st q st' :
    legal st -> create_queue st = Ret q st' -> legal st'
| legal_destroy st fuel q st' :
    legal st -> destroy_queue fuel q st = Ret tt st' -> legal st'
| legal_enqueue st q b st' :
    legal st -> enqueue_byte q b st = Ret tt st' -> legal st'
| legal_dequeue st i b st' :
    legal st -> ~ queue_holds st i [] ->
    dequeue_byte (desc_ptr i) st = Ret b st' -> legal st'.

(** Going from [s] to [s'] changed no descriptor other than slot [j] and
    did not clear the initialization flag of the allocator. *)
Definition touches_only (j : Z) (s s' : DataOverlay) : Prop :=
  (forall k, k <> j -> lookupZ (descriptors s') k = lookupZ (descriptors s) k) /\
  (initialized (global_data s) <> 0 -> initialized (global_data s') <> 0).

(** Whenever [m] returns, it has touched slot [j] only. *)
Definition steps {A} (j : Z) (m : M A) : Prop :=
  forall s a s', m s = Ret a s' -> touches_only j s s'.

(** [later_calls q st st']: [st'] is reached from [st] through calls of the
    public interface that return, none of them a [create_queue] that
    returns the handle [q]. *)
Inductive later_calls (q : Qptr) : DataOverlay -> DataOverlay -> Prop :=
| later_none st : later_calls q st st
| later_create st q' st1 st' :
    create_queue st = Ret q' st1 -> q' <> q ->
    later_calls q st1 st' -> later_calls q st st'
| later_destroy st fuel q' st1 st' :
    destroy_queue fuel q' st = Ret tt st1 ->
    later_calls q st1 st' -> later_calls q st st'
| later_enqueue st q' b st1 st' :
    enqueue_byte q' b st = Ret tt st1 ->
    later_calls q st1 st' -> later_calls q st st'
| later_dequeue st q' b st1 st' :
    dequeue_byte q' st = Ret b st1 ->
    later_calls q st1 st' -> later_calls q st st'.

(** The descriptor as [create_queue] leaves it. *)
Definition claimed (d : Q) : Q :=
  {| in_use := 1; head_segment := INVALID_INDEX; tail_segment := INVALID_INDEX;
     head_offset := 0; tail_offset := 0; pad := pad d |}.

Definition out_of_memory_exit {A} : result A :=
  Exit ("QueueManager: out of memory" +:+ newline) 1.
Definition illegal_operation_exit {A} : result A :=
  Exit ("QueueManager: illegal operation" +:+ newline) 1.

(** States used in examples. *)
Definition fourteen : list byte :=
  [x01; x02; x03; x04; x05; x06; x07; x08; x09; x0a; x0b; x0c; x0d; x0e].

Definition state_of {A} (r : result A) : DataOverlay :=
  match r with Ret _ s => s | _ => zero_data end.

(** After create_queue, 14 enqueues and 13 dequeues. *)
Definition one_left : DataOverlay := Eval vm_compute in
  state_of ((let* q := create_queue in
             enqueue_bytes q fourteen ;; dequeue_bytes q 13) zero_data).

(** After create_queue, 14 enqueues and 14 dequeues. *)
Definition drained : DataOverlay := Eval vm_compute in
  state_of ((let* q := create_queue in
             enqueue_bytes q fourteen ;; dequeue_bytes q 14) zero_data).


(** A table with every slot taken, and a pool with nothing left. *)
Definition full_table : DataOverlay :=
  set_descriptors (replicate (Z.to_nat MAX_QUEUES) (set_in_use 1 zero_Q)) zero_data.
Definition full_pool : DataOverlay :=
  set_global_data {| free_list_head := INVALID_INDEX; next_unused := SEGMENT_COUNT;
                     initialized := 1 |} zero_data.

(** After create_queue alone, and after 15 more enqueues. *)
Definition fresh_queue : DataOverlay := Eval vm_compute in
  state_of (create_queue zero_data).

Definition fifteen : list byte := fourteen ++ [x0f].

Definition fifteen_queued : DataOverlay := Eval vm_compute in
  state_of (enqueue_bytes (desc_ptr 0) fifteen fresh_queue).

(** Repeated calls of the allocator. *)
Fixpoint free_segments (xs : list Z) : M unit :=
  match xs with
  | [] => ret tt
  | x :: xs' => free_segment x ;; free_segments xs'
  end.

Fixpoint allocate_segments (n : nat) : M (list Z) :=
  match n with
  | O => ret []
  | S n' =>
      let* x := allocate_segment in
      let* xs := allocate_segments n' in
      ret (x :: xs)
  end.

(** No segment is left: the free list is empty and the bump pointer has
    reached the segment count. *)
Definition pool_exhausted (st : DataOverlay) : Prop :=
  free_list_head (allocator st) = INVALID_INDEX /\
  SEGMENT_COUNT <= next_unused (allocator st).

(** [enqueue_byte] on descriptor [d] will call [allocate_segment]: the
    queue has no segment yet, or the byte fills the tail segment. *)
Definition needs_segment (d : Q) : Prop :=
  tail_segment d = INVALID_INDEX \/ tail_offset d + 1 = SEG_PAYLOAD_SIZE.

(** One live, empty queue and a pool with nothing left. *)
Definition fresh_queue_full_pool : DataOverlay :=
  set_global_data {| free_list_head := INVALID_INDEX; next_unused := SEGMENT_COUNT;
                     initialized := 1 |} fresh_queue.

(** After create_queue and 1329 enqueues: all 95 segments are in the chain
    of queue 0 and the tail segment has one free cell. *)
Definition nearly_full : DataOverlay := Eval vm_compute in
  state_of (enqueue_bytes (desc_ptr 0) (replicate 1329 x00) fresh_queue).

(** Four queues: fifteen bytes in slot 3 (segments 0 and 1), one byte in
    slot 0 (segment 2), fifteen bytes in slot 1 (segments 3 and 4) and two
    bytes in slot 2 (segment 5). *)
Definition four_queues : DataOverlay := Eval vm_compute in
  state_of ((create_queue ;; create_queue ;; create_queue ;; create_queue ;;
             enqueue_bytes (desc_ptr 3) fifteen ;;
             enqueue_byte (desc_ptr 0) x41 ;;
             enqueue_bytes (desc_ptr 1) fifteen ;;
             enqueue_bytes (desc_ptr 2) [x42; x43]) zero_data).

(** The same after [destroy_queue] on slot 3: three live queues and the
    segments 1 and 0 on the free list. *)
Definition three_queues : DataOverlay := Eval vm_compute in
  state_of (destroy_queue 3 (desc_ptr 3) four_queues).

Definition queue_a : live_queue :=
  {| lq_slot := 0; lq_chain := [2]; lq_bytes := [x41] |}.
Definition queue_b : live_queue :=
  {| lq_slot := 1; lq_chain := [3; 4]; lq_bytes := fifteen |}.
Definition queue_c : live_queue :=
  {| lq_slot := 2; lq_chain := [5]; lq_bytes := [x42; x43] |}.

(** [three_queues] after an enqueue on slot 0, [destroy_queue] on slot 0, a
    [create_queue] (which returns slot 0 again) and a dequeue on slot 1. *)
Definition three_queues_later : DataOverlay := Eval vm_compute in
  state_of ((enqueue_byte (desc_ptr 0) x44 ;;
             destroy_queue 3 (desc_ptr 0) ;;
             create_queue ;;
             dequeue_byte (desc_ptr 1)) three_queues).

(** The one live queue of [fifteen_queued]. *)
Definition fifteen_queue : live_queue :=
  {| lq_slot := 0; lq_chain := [0; 1]; lq_bytes := fifteen |}.

(** After create_queue and one enqueue. *)
Definition one_queued : DataOverlay := Eval vm_compute in
  state_of (enqueue_byte (desc_ptr 0) x01 fresh_queue).

(** The descriptor as the "queue becomes empty" branch of [dequeue_byte]
    leaves it. *)
Definition emptied (d : Q) : Q :=
  {| head_segment := INVALID_INDEX; tail_segment := INVALID_INDEX;
     head_offset := 0; tail_offset := 0; in_use := in_use d; pad := pad d |}.

(** ** Weakest preconditions

    [wp E m Q s]: running [m] from [s] touches no array out of bounds; if
    it returns, [Q] holds of the value and the new state; if the process
    exits or the loop fuel runs out, [E] holds. *)

Definition wp {A} (E : Prop) (m : M A) (Q : A -> DataOverlay -> Prop)
    (s : DataOverlay) : Prop :=
  match m s with
  | Ret a s' => Q a s'
  | Exit _ _ => E
  | Undefined => False
  | OutOfFuel => E
  end.

Ltac concrete :=
  repeat first [ solve [vm_compute; reflexivity] | solve [vm_compute; congruence]
               | split | eexists ].

(* ===================================================================== *)
(** * Theorems *)

(** ** The reference run *)

(** The reference run prints 01, 25, 346. *)
Example main_trace_output :
  returned (main_trace zero_data) = Some [x00; x01; x02; x05; x03; x04; x06].
Proof. vm_compute. reflexivity. Qed.

(** ** Layout constants *)

(** C4 (as stated): the three regions do not add up to the 2048 bytes of
    the block. *)
Lemma region_partition_not_exact :
  DESCRIPTORS_AREA + GLOBAL_DATA_SIZE + SEGMENT_COUNT * SEG_SIZE <> DATA_SIZE.
Proof. vm_compute. discriminate. Qed.

(** C4 (amended): the descriptor table (64 x 8 bytes), the allocator globals
    (8 bytes) and 95 segments of 16 bytes take 2040 of the 2048 bytes; the
    8 bytes left over are fewer than one more segment needs, so 95 is the
    largest segment count that fits. *)
Theorem region_partition_slack :
  DESCRIPTORS_AREA = 64 * 8 /\ GLOBAL_DATA_SIZE = 8 /\
  SEGMENT_COUNT = 95 /\ SEG_SIZE = 16 /\ DATA_SIZE = 2048 /\
  DESCRIPTORS_AREA + GLOBAL_DATA_SIZE + SEGMENT_COUNT * SEG_SIZE = DATA_SIZE - 8 /\
  DATA_SIZE < DESCRIPTORS_AREA + GLOBAL_DATA_SIZE + (SEGMENT_COUNT + 1) * SEG_SIZE.
Proof. repeat split; vm_compute; reflexivity. Qed.

(** ** Arrays indexed by integers *)

Section LookupZ.
Context {A : Type}.
Implicit Types (l : list A) (i j : Z) (x y : A).

Lemma lookupZ_Some l i x :
  lookupZ l i = Some x <-> 0 <= i /\ l !! Z.to_nat i = Some x.
Proof.
  unfold lookupZ. destruct (Z.leb_spec 0 i); split; intros; try tauto; try lia.
  - discriminate.
Qed.

Lemma lookupZ_lt l i x :
  lookupZ l i = Some x -> 0 <= i < Z.of_nat (length l).
Proof.
  intros [? H]%lookupZ_Some. apply lookup_lt_Some in H. lia.
Qed.

Lemma lookupZ_is_Some l i :
  0 <= i < Z.of_nat (length l) -> exists x, lookupZ l i = Some x.
Proof.
  intros [? ?]. destruct (lookup_lt_is_Some_2 l (Z.to_nat i)) as [x Hx]; [lia|].
  exists x. apply lookupZ_Some. auto.
Qed.

Lemma lookupZ_insertZ_eq l i x y :
  lookupZ l i = Some y -> lookupZ (insertZ i x l) i = Some x.
Proof.
  intros [? H]%lookupZ_Some. apply lookupZ_Some. split; [done|].
  unfold insertZ. apply list_lookup_insert_eq. by eapply lookup_lt_Some.
Qed.

Lemma lookupZ_insertZ_ne l i j x :
  0 <= i -> i <> j -> lookupZ (insertZ i x l) j = lookupZ l j.
Proof.
  intros Hi Hne. unfold lookupZ, insertZ.
  destruct (Z.leb_spec 0 j); [|done].
  apply list_lookup_insert_ne. lia.
Qed.

Lemma length_insertZ l i x : length (insertZ i x l) = length l.
Proof. apply length_insert. Qed.

Lemma lookupZ_elem_of l i x : lookupZ l i = Some x -> x ∈ l.
Proof. intros [_ H]%lookupZ_Some. by eapply list_elem_of_lookup_2. Qed.

Lemma Forall_lookupZ (P : A -> Prop) l i x :
  Forall P l -> lookupZ l i = Some x -> P x.
Proof. intros HP H%lookupZ_elem_of. rewrite Forall_forall in HP. auto. Qed.

Lemma Forall_insertZ (P : A -> Prop) l i x :
  Forall P l -> P x -> Forall P (insertZ i x l).
Proof. intros. unfold insertZ. by apply Forall_insert. Qed.
End LookupZ.

(** ** Stepping through the monad and weakest preconditions *)

Lemma bind_Ret_inv {A B} (m : M A) (f : A -> M B) s b s' :
  bind m f s = Ret b s' ->
  exists a s1, m s = Ret a s1 /\ f a s1 = Ret b s'.
Proof. unfold bind. destruct (m s); try discriminate. eauto. Qed.

Lemma bind_Ret {A B} (m : M A) (f : A -> M B) s a s1 :
  m s = Ret a s1 -> bind m f s = f a s1.
Proof. unfold bind. by intros ->. Qed.

(** ** The allocator, equationally *)

Lemma free_segment_eq idx st sg :
  lookupZ (segments st) idx = Some sg ->
  free_segment idx st =
    Ret tt {| descriptors := descriptors st;
              global_data := set_free_list_head idx (global_data st);
              segments := insertZ idx (set_next (free_list_head (global_data st)) sg)
                            (segments st) |}.
Proof.
  intros H. unfold free_segment, bind, load_global, load_seg, store_seg, store_global.
  rewrite H. simpl. rewrite H. reflexivity.
Qed.

(** What a returning [allocate_segment] did: it took the head of the free
    list, or the segment at the bump pointer. *)
Lemma allocate_segment_inv st x st' :
  allocate_segment st = Ret x st' ->
  let g := allocator st in
  descriptors st' = descriptors st /\ segments st' = segments st /\
  initialized (global_data st') <> 0 /\
  ((free_list_head g <> INVALID_INDEX /\ x = free_list_head g /\
    exists sg, lookupZ (segments st) x = Some sg /\
               global_data st' = set_free_list_head (next sg) g) \/
   (free_list_head g = INVALID_INDEX /\ x = next_unused g /\
    next_unused g < SEGMENT_COUNT /\
    global_data st' = set_next_unused (wrap16 (next_unused g + 1)) g)).
Proof.
  unfold allocate_segment, allocator, bind, load_global, store_global. simpl.
  assert (Hi : initialized (lazy_init (global_data st)) <> 0).
  { unfold lazy_init. destruct (Z.eqb_spec (initialized (global_data st)) 0); simpl; lia. }
  destruct (Z.eqb_spec (free_list_head (lazy_init (global_data st))) INVALID_INDEX) as [E|E]; simpl.
  - destruct (Z.ltb_spec (next_unused (lazy_init (global_data st))) SEGMENT_COUNT); simpl.
    + unfold ret. intros [= <- <-]. simpl. repeat split; auto.
    + unfold on_out_of_memory. discriminate.
  - unfold load_seg. simpl.
    destruct (lookupZ (segments st) _) as [sg|] eqn:Hs; [|discriminate].
    unfold ret. intros [= <- <-]. simpl. repeat split; auto.
    left. repeat split; auto. exists sg. auto.
Qed.

(** ** Free then allocate *)

(** C5: freeing a segment [X] of the pool and allocating immediately
    returns [X]; the bump pointer does not move and the free-list head is
    what it was before the free.  The allocator is initialized at every
    call of [free_segment] the program makes: the calls are in
    [dequeue_byte] and [destroy_queue], on a segment of a queue in use,
    which [allocate_segment] handed out before (lemmas
    [reachable_free_sites] and [free_segment_keeps_allocator]). *)
Theorem free_then_allocate_reuses st X :
  initialized (global_data st) <> 0 ->
  length (segments st) = Z.to_nat SEGMENT_COUNT ->
  0 <= X < SEGMENT_COUNT ->
  exists st1 st2,
    free_segment X st = Ret tt st1 /\
    allocate_segment st1 = Ret X st2 /\
    next_unused (global_data st2) = next_unused (global_data st) /\
    free_list_head (global_data st2) = free_list_head (global_data st) /\
    descriptors st2 = descriptors st.
Proof.
  intros Hinit Hlen HX.
  destruct (lookupZ_is_Some (segments st) X) as [sg Hsg]; [lia|].
  eexists _, _. split; [by apply free_segment_eq|].
  unfold allocate_segment, bind, load_global, store_global, load_seg, ret. simpl.
  unfold lazy_init. simpl.
  destruct (Z.eqb_spec (initialized (global_data st)) 0); [done|]. simpl.
  destruct (Z.eqb_spec X INVALID_INDEX) as [E|E].
  { exfalso. revert E HX. unfold INVALID_INDEX, UINT16_MAX, SEGMENT_COUNT.
    intros ->. vm_compute. intros [_ ?]. discriminate. }
  simpl. rewrite (lookupZ_insertZ_eq _ _ _ _ Hsg). simpl. auto.
Qed.

Lemma free_then_allocate_reuses_witness :
  exists st1 st2,
    free_segment 3 three_queues = Ret tt st1 /\
    allocate_segment st1 = Ret 3 st2 /\
    next_unused (global_data st2) = next_unused (global_data three_queues) /\
    free_list_head (global_data st2) = free_list_head (global_data three_queues) /\
    descriptors st2 = descriptors three_queues.
Proof.
  apply (free_then_allocate_reuses three_queues 3).
  - vm_compute. discriminate.
  - reflexivity.
  - vm_compute. split; [discriminate|reflexivity].
Defined.

(** ** create_queue *)

Lemma create_queue_scan_full st n i :
  (forall j, i <= j < i + Z.of_nat n ->
             exists d, lookupZ (descriptors st) j = Some d /\ in_use d <> 0) ->
  create_queue_scan n i st = out_of_memory_exit.
Proof.
  revert i. induction n as [|n IH]; intros i H; simpl.
  - reflexivity.
  - destruct (H i) as (d & Hd & Hu); [lia|].
    unfold bind at 1. unfold load_desc. rewrite Hd.
    destruct (Z.eqb_spec (in_use d) 0); [done|].
    apply IH. intros j Hj. apply H. lia.
Qed.

Lemma create_queue_scan_found st n i k d :
  0 <= i ->
  i <= k < i + Z.of_nat n ->
  lookupZ (descriptors st) k = Some d ->
  in_use d = 0 ->
  (forall j d', i <= j < k -> lookupZ (descriptors st) j = Some d' -> in_use d' <> 0) ->
  create_queue_scan n i st =
    Ret (desc_ptr k) (set_descriptors (insertZ k (claimed d) (descriptors st)) st).
Proof.
  revert i. induction n as [|n IH]; intros i Hi Hk Hd Hu Hlow; simpl.
  - lia.
  - unfold bind at 1. unfold load_desc.
    destruct (Z.eq_dec i k) as [->|Hne].
    + rewrite Hd, Hu. simpl. unfold bind, store_desc. rewrite Hd. reflexivity.
    + destruct (lookupZ_is_Some (descriptors st) i) as [d' Hd'].
      { apply lookupZ_lt in Hd. lia. }
      rewrite Hd'. destruct (Z.eqb_spec (in_use d') 0) as [E|E].
      * exfalso. eapply Hlow; [|exact Hd'|exact E]. lia.
      * apply IH; auto; [lia|lia|]. intros j d'' Hj. apply Hlow. lia.
Qed.

(** C8: when some slot among the 64 is free, [create_queue] returns the
    lowest-indexed free slot [i], with that slot marked in use, head and
    tail set to the sentinel and both cursors 0; every other slot, the
    allocator globals and the segments are unchanged. *)
Theorem create_queue_lowest_free st (i0 : nat) d0 :
  (i0 < Z.to_nat MAX_QUEUES)%nat ->
  descriptors st !! i0 = Some d0 ->
  in_use d0 = 0 ->
  exists (i : nat) d,
    descriptors st !! i = Some d /\ in_use d = 0 /\
    (forall (j : nat) d', (j < i)%nat -> descriptors st !! j = Some d' -> in_use d' <> 0) /\
    create_queue st =
      Ret (desc_ptr (Z.of_nat i))
          {| descriptors :=
               <[i := {| head_segment := INVALID_INDEX; tail_segment := INVALID_INDEX;
                         head_offset := 0; tail_offset := 0; in_use := 1;
                         pad := pad d |}]> (descriptors st);
             global_data := global_data st;
             segments := segments st |}.
Proof.
  intros Hi0 Hd0 Hu0.
  destruct (list_find_elem_of (fun d => in_use d = 0) (descriptors st) d0)
    as [[i d] Hfind]; [by eapply list_elem_of_lookup_2|done|].
  apply list_find_Some in Hfind as (Hd & Hu & Hlow).
  assert (i <= i0)%nat.
  { destruct (le_lt_dec i i0); [done|]. exfalso. by eapply (Hlow i0 d0). }
  exists i, d. repeat split; auto.
  { intros j d' Hj Hd'. eapply Hlow; eauto. }
  unfold create_queue.
  rewrite (create_queue_scan_found st _ 0 (Z.of_nat i) d).
  - unfold set_descriptors, insertZ, claimed. by rewrite Nat2Z.id.
  - lia.
  - lia.
  - apply lookupZ_Some. rewrite Nat2Z.id. split; [lia|done].
  - done.
  - intros j d' Hj [_ Hd']%lookupZ_Some. eapply Hlow; eauto. lia.
Qed.

Lemma create_queue_lowest_free_witness :
  exists (i : nat) d,
    descriptors (state_of (create_queue zero_data)) !! i = Some d /\ in_use d = 0 /\
    (forall (j : nat) d', (j < i)%nat ->
        descriptors (state_of (create_queue zero_data)) !! j = Some d' -> in_use d' <> 0) /\
    create_queue (state_of (create_queue zero_data)) =
      Ret (desc_ptr (Z.of_nat i))
          {| descriptors :=
               <[i := {| head_segment := INVALID_INDEX; tail_segment := INVALID_INDEX;
                         head_offset := 0; tail_offset := 0; in_use := 1;
                         pad := pad d |}]> (descriptors (state_of (create_queue zero_data)));
             global_data := global_data (state_of (create_queue zero_data));
             segments := segments (state_of (create_queue zero_data)) |}.
Proof.
  apply (create_queue_lowest_free (state_of (create_queue zero_data)) 5 zero_Q).
  - vm_compute. lia.
  - reflexivity.
  - reflexivity.
Defined.

(** ** Capacity exhaustion *)

(** C6: with all 64 descriptors in use [create_queue] prints the
    out-of-memory diagnostic and exits, and so does [allocate_segment] when
    the free list is empty and the bump pointer has reached the segment
    count; neither returns a value. *)
Theorem capacity_exhaustion_exits st :
  (length (descriptors st) = Z.to_nat MAX_QUEUES ->
   Forall (fun d => in_use d <> 0) (descriptors st) ->
   create_queue st = Exit ("QueueManager: out of memory" +:+ newline) 1) /\
  (free_list_head (allocator st) = INVALID_INDEX ->
   SEGMENT_COUNT <= next_unused (allocator st) ->
   allocate_segment st = Exit ("QueueManager: out of memory" +:+ newline) 1).
Proof.
  split.
  - intros Hlen Hall. unfold create_queue. apply create_queue_scan_full.
    intros j Hj. destruct (lookupZ_is_Some (descriptors st) j) as [d Hd]; [lia|].
    exists d. split; [done|]. eapply Forall_lookupZ in Hall; eauto.
  - unfold allocator. intros Hfl Hnu.
    unfold allocate_segment, bind, load_global, store_global. simpl.
    rewrite Hfl. simpl.
    destruct (Z.ltb_spec (next_unused (lazy_init (global_data st))) SEGMENT_COUNT); [lia|].
    reflexivity.
Qed.

Lemma capacity_exhaustion_exits_witness :
  create_queue full_table = Exit ("QueueManager: out of memory" +:+ newline) 1 /\
  allocate_segment full_pool = Exit ("QueueManager: out of memory" +:+ newline) 1.
Proof.
  split.
  - apply (capacity_exhaustion_exits full_table).
    + reflexivity.
    + apply Forall_replicate. vm_compute. discriminate.
  - apply (capacity_exhaustion_exits full_pool).
    + reflexivity.
    + vm_compute. discriminate.
Defined.

(** ** A whole segment enqueued and dequeued *)

Lemma one_left_holds_last : queue_holds one_left 0 [x0e].
Proof.
  exists [0; 1], []. split.
  - eexists. split; [vm_compute; reflexivity|]. split; [vm_compute; discriminate|].
    simpl. concrete.
  - repeat split; try (vm_compute; congruence).
    + apply NoDup_cons. split; [rewrite list_elem_of_singleton; lia|].
      apply NoDup_singleton.
    + intros x Hx. vm_compute in Hx.
      apply elem_of_cons in Hx as [->|Hx]; [reflexivity|].
      apply list_elem_of_singleton in Hx as ->. reflexivity.
    + vm_compute. repeat constructor.
Qed.

Lemma drained_holds_nothing : queue_holds drained 0 [].
Proof.
  exists [1], [0]. split.
  - eexists. split; [vm_compute; reflexivity|]. split; [vm_compute; discriminate|].
    simpl. concrete.
  - split; [simpl; concrete|].
    repeat split; try (vm_compute; congruence).
    + apply NoDup_cons. split; [rewrite list_elem_of_singleton; lia|].
      apply NoDup_singleton.
    + intros x Hx. vm_compute in Hx.
      apply elem_of_cons in Hx as [->|Hx]; [reflexivity|].
      apply list_elem_of_singleton in Hx as ->. reflexivity.
    + vm_compute. repeat constructor.
Qed.

(** C2 (at the failing input): after create_queue, 14 enqueues and 13
    dequeues the queue holds one byte; the dequeue that removes it returns
    it and leaves the queue holding nothing, but head and tail are segment
    1, not the sentinel, and segment 1 is not on the free list. *)
Theorem dequeue_last_byte_at_segment_end :
  queue_holds one_left 0 [x0e] /\
  exists st',
    dequeue_byte (desc_ptr 0) one_left = Ret x0e st' /\
    queue_holds st' 0 [] /\
    lookupZ (descriptors st') 0 =
      Some {| head_segment := 1; tail_segment := 1; head_offset := 0;
              tail_offset := 0; in_use := 1; pad := 0 |} /\
    free_list_head (global_data st') = 0 /\
    (exists sg, lookupZ (segments st') 0 = Some sg /\ next sg = INVALID_INDEX).
Proof.
  split; [exact one_left_holds_last|].
  exists drained. split; [vm_compute; reflexivity|]. split; [exact drained_holds_nothing|].
  split; [vm_compute; reflexivity|]. split; [vm_compute; reflexivity|].
  eexists. split; vm_compute; reflexivity.
Qed.

(** C3 (at the failing input): after create_queue, 14 enqueues and 14
    dequeues the queue holds zero bytes, yet [dequeue_byte] returns a byte
    to the caller instead of taking the illegal-operation exit. *)
Theorem dequeue_on_drained_queue_returns :
  queue_holds drained 0 [] /\
  exists b st', dequeue_byte (desc_ptr 0) drained = Ret b st'.
Proof.
  split; [exact drained_holds_nothing|].
  eexists _, _. vm_compute. reflexivity.
Qed.

(** C10: create a queue, enqueue 14 bytes, dequeue 14 times.  The 14 bytes
    come back in order and the queue then holds zero bytes, while head and
    tail are both segment 1 (allocated when the first segment filled up,
    never written) with both cursors 0; one more [dequeue_byte] returns
    normally with byte 0 of that segment's payload. *)
Theorem full_segment_then_extra_dequeue :
  exists q st,
    (let* q := create_queue in
     enqueue_bytes q fourteen ;;
     let* bs := dequeue_bytes q 14 in
     ret (q, bs)) zero_data = Ret (q, fourteen) st /\
    queue_holds st 0 [] /\
    q = desc_ptr 0 /\
    lookupZ (descriptors st) 0 =
      Some {| head_segment := 1; tail_segment := 1; head_offset := 0;
              tail_offset := 0; in_use := 1; pad := 0 |} /\
    1 <> INVALID_INDEX /\
    lookupZ (segments st) 1 = Some (set_next INVALID_INDEX zero_Segment) /\
    exists b st',
      dequeue_byte q st = Ret b st' /\
      lookupZ (seg_data (segments st) 1) 0 = Some b.
Proof.
  exists (desc_ptr 0), drained. split; [vm_compute; reflexivity|].
  split; [exact drained_holds_nothing|]. split; [vm_compute; reflexivity|].
  split; [vm_compute; reflexivity|]. split; [vm_compute; discriminate|].
  split; [vm_compute; reflexivity|].
  eexists _, _. split; vm_compute; reflexivity.
Qed.

Section WpRules.
Context {A B : Type} (E : Prop).
Implicit Types (s : DataOverlay).

Lemma wp_ret (a : A) (Q : A -> DataOverlay -> Prop) s :
  Q a s -> wp E (ret a) Q s.
Proof. done. Qed.

Lemma wp_bind (m : M A) (f : A -> M B) (Q : B -> DataOverlay -> Prop) s :
  wp E m (fun a s' => wp E (f a) Q s') s -> wp E (bind m f) Q s.
Proof. unfold wp, bind. by destruct (m s). Qed.

Lemma wp_mono (m : M A) (Q Q' : A -> DataOverlay -> Prop) s :
  (forall a s', Q a s' -> Q' a s') -> wp E m Q s -> wp E m Q' s.
Proof. unfold wp. destruct (m s); auto. Qed.

Lemma wp_Ret_inv (m : M A) (Q : A -> DataOverlay -> Prop) s a s' :
  wp E m Q s -> m s = Ret a s' -> Q a s'.
Proof. unfold wp. intros H Hm. by rewrite Hm in H. Qed.

Lemma wp_not_Undefined (m : M A) (Q : A -> DataOverlay -> Prop) s :
  wp E m Q s -> m s <> Undefined.
Proof. unfold wp. by destruct (m s). Qed.
End WpRules.

Lemma wp_total {A} (m : M A) (Q : A -> DataOverlay -> Prop) s :
  wp False m Q s -> exists a s', m s = Ret a s' /\ Q a s'.
Proof. unfold wp. destruct (m s); try done. eauto. Qed.

Section WpPrimitives.
Context (E : Prop).
Implicit Types (s : DataOverlay).

Lemma wp_load_global (Q : GlobalData -> DataOverlay -> Prop) s :
  Q (global_data s) s -> wp E load_global Q s.
Proof. done. Qed.

Lemma wp_store_global g (Q : unit -> DataOverlay -> Prop) s :
  Q tt (set_global_data g s) -> wp E (store_global g) Q s.
Proof. done. Qed.

Lemma wp_load_seg i x (Q : Segment -> DataOverlay -> Prop) s :
  lookupZ (segments s) i = Some x -> Q x s -> wp E (load_seg i) Q s.
Proof. unfold wp, load_seg. by intros ->. Qed.

Lemma wp_store_seg i x y (Q : unit -> DataOverlay -> Prop) s :
  lookupZ (segments s) i = Some y ->
  Q tt (set_segments (insertZ i x (segments s)) s) ->
  wp E (store_seg i x) Q s.
Proof. unfold wp, store_seg. by intros ->. Qed.

Lemma wp_load_payload i off sg b (Q : byte -> DataOverlay -> Prop) s :
  lookupZ (segments s) i = Some sg ->
  lookupZ (data sg) off = Some b ->
  Q b s -> wp E (load_payload i off) Q s.
Proof.
  intros Hs Hb HQ. unfold wp, load_payload, bind, load_seg. by rewrite Hs, Hb.
Qed.

Lemma wp_store_payload i off sg b b0 (Q : unit -> DataOverlay -> Prop) s :
  lookupZ (segments s) i = Some sg ->
  lookupZ (data sg) off = Some b0 ->
  Q tt (set_segments (insertZ i (set_data (insertZ off b (data sg)) sg) (segments s)) s) ->
  wp E (store_payload i off b) Q s.
Proof.
  intros Hs Hb HQ. unfold wp, store_payload, bind, load_seg, store_seg.
  by rewrite Hs, Hb, Hs.
Qed.

Lemma wp_load_desc i d (Q : Q -> DataOverlay -> Prop) s :
  lookupZ (descriptors s) i = Some d -> Q d s -> wp E (load_desc (desc_ptr i)) Q s.
Proof. unfold wp, load_desc. by intros ->. Qed.

Lemma wp_store_desc i d d0 (Q : unit -> DataOverlay -> Prop) s :
  lookupZ (descriptors s) i = Some d0 ->
  Q tt (set_descriptors (insertZ i d (descriptors s)) s) ->
  wp E (store_desc (desc_ptr i) d) Q s.
Proof. unfold wp, store_desc. by intros ->. Qed.

Lemma wp_illegal (Q : unit -> DataOverlay -> Prop) s :
  E -> wp E on_illegal_operation Q s.
Proof. done. Qed.

Lemma wp_check_handle i d (Q : unit -> DataOverlay -> Prop) s :
  lookupZ (descriptors s) i = Some d ->
  (in_use d = 0 -> E) ->
  (in_use d <> 0 -> Q tt s) ->
  wp E (check_handle (desc_ptr i)) Q s.
Proof.
  intros Hd HE HQ. unfold wp, check_handle, bind, load_desc. rewrite Hd.
  destruct (Z.eqb_spec (in_use d) 0); simpl; auto.
Qed.

Lemma wp_free_segment idx sg (Q : unit -> DataOverlay -> Prop) s :
  lookupZ (segments s) idx = Some sg ->
  Q tt {| descriptors := descriptors s;
          global_data := set_free_list_head idx (global_data s);
          segments := insertZ idx (set_next (free_list_head (global_data s)) sg)
                        (segments s) |} ->
  wp E (free_segment idx) Q s.
Proof. intros H HQ. unfold wp. by rewrite (free_segment_eq _ _ _ H). Qed.

Lemma wp_allocate_segment (Q : Z -> DataOverlay -> Prop) s :
  (free_list_head (allocator s) <> INVALID_INDEX ->
   exists sg, lookupZ (segments s) (free_list_head (allocator s)) = Some sg /\
     Q (free_list_head (allocator s))
       (set_global_data (set_free_list_head (next sg) (allocator s)) s)) ->
  (free_list_head (allocator s) = INVALID_INDEX ->
   next_unused (allocator s) < SEGMENT_COUNT ->
   Q (next_unused (allocator s))
     (set_global_data
        (set_next_unused (wrap16 (next_unused (allocator s) + 1)) (allocator s)) s)) ->
  (free_list_head (allocator s) = INVALID_INDEX ->
   SEGMENT_COUNT <= next_unused (allocator s) -> E) ->
  wp E allocate_segment Q s.
Proof.
  unfold allocator. intros Hpop Hbump Hoom.
  unfold wp, allocate_segment, bind, load_global, store_global. simpl.
  destruct (Z.eqb_spec (free_list_head (lazy_init (global_data s))) INVALID_INDEX)
    as [Ef|Ef]; simpl.
  - destruct (Z.ltb_spec (next_unused (lazy_init (global_data s))) SEGMENT_COUNT); simpl.
    + by apply Hbump.
    + by apply Hoom.
  - destruct (Hpop Ef) as (sg & Hsg & HQ). unfold load_seg. simpl.
    rewrite Hsg. simpl. exact HQ.
Qed.
End WpPrimitives.

(** ** Index safety of every reachable state *)

Lemma idx_ok_range x : idx_ok x -> x <> INVALID_INDEX -> 0 <= x < SEGMENT_COUNT.
Proof. intros [?|?]; [done|auto]. Qed.

Lemma idx_ok_invalid : idx_ok INVALID_INDEX.
Proof. by left. Qed.

Lemma segment_count_val : SEGMENT_COUNT = 95.
Proof. reflexivity. Qed.

Lemma wrap8_succ x : 0 <= x < SEG_PAYLOAD_SIZE -> wrap8 (x + 1) = x + 1.
Proof. intros H. unfold wrap8. apply Z.mod_small. unfold SEG_PAYLOAD_SIZE in H. lia. Qed.

Lemma zero_data_safe : state_safe zero_data.
Proof.
  split; [split|]; try reflexivity.
  - apply Forall_replicate. reflexivity.
  - apply Forall_replicate. right. rewrite segment_count_val. simpl. lia.
  - right. rewrite segment_count_val. simpl. lia.
  - rewrite segment_count_val. simpl. lia.
  - apply Forall_replicate. intros H. done.
Qed.

Section SafeRules.
Context (E : Prop).
Implicit Types (s : DataOverlay).

Lemma safe_seg s x :
  pool_safe s -> 0 <= x < SEGMENT_COUNT ->
  exists sg, lookupZ (segments s) x = Some sg /\
             idx_ok (next sg) /\ length (data sg) = payload_len.
Proof.
  intros Hs Hx. destruct (lookupZ_is_Some (segments s) x) as [sg Hsg].
  { rewrite (safe_seg_len _ Hs). lia. }
  exists sg. split; [done|]. split.
  - exact (Forall_lookupZ _ _ _ _ (safe_next _ Hs) Hsg).
  - exact (Forall_lookupZ _ _ _ _ (safe_data_len _ Hs) Hsg).
Qed.

Lemma safe_desc_lookup s i :
  pool_safe s -> 0 <= i < MAX_QUEUES ->
  exists d, lookupZ (descriptors s) i = Some d.
Proof.
  intros Hs Hi. apply lookupZ_is_Some. rewrite (safe_desc_len _ Hs). lia.
Qed.

Lemma safe_payload sg off :
  length (data sg) = payload_len -> 0 <= off < SEG_PAYLOAD_SIZE ->
  exists b, lookupZ (data sg) off = Some b.
Proof.
  intros Hl Ho. apply lookupZ_is_Some. rewrite Hl. unfold payload_len. lia.
Qed.

Lemma wp_safe_load_seg x (Q : Segment -> DataOverlay -> Prop) s :
  pool_safe s -> 0 <= x < SEGMENT_COUNT ->
  (forall sg, lookupZ (segments s) x = Some sg -> idx_ok (next sg) ->
              length (data sg) = payload_len -> Q sg s) ->
  wp E (load_seg x) Q s.
Proof.
  intros Hs Hx HQ. destruct (safe_seg s x Hs Hx) as (sg & Hsg & ? & ?).
  eapply wp_load_seg; eauto.
Qed.

Lemma pool_safe_set_segments s x sg :
  pool_safe s -> idx_ok (next sg) -> length (data sg) = payload_len ->
  pool_safe (set_segments (insertZ x sg (segments s)) s).
Proof.
  intros [] ? ?. split; simpl; auto.
  - by rewrite length_insertZ.
  - by apply Forall_insertZ.
  - by apply Forall_insertZ.
Qed.

Lemma wp_safe_store_seg x sg (Q : unit -> DataOverlay -> Prop) s :
  pool_safe s -> 0 <= x < SEGMENT_COUNT ->
  idx_ok (next sg) -> length (data sg) = payload_len ->
  (forall s', pool_safe s' -> descriptors s' = descriptors s -> Q tt s') ->
  wp E (store_seg x sg) Q s.
Proof.
  intros Hs Hx Hn Hl HQ. destruct (safe_seg s x Hs Hx) as (sg0 & Hsg & ? & ?).
  eapply wp_store_seg; [exact Hsg|]. apply HQ; auto.
  by apply pool_safe_set_segments.
Qed.

Lemma wp_safe_load_payload x off (Q : byte -> DataOverlay -> Prop) s :
  pool_safe s -> 0 <= x < SEGMENT_COUNT -> 0 <= off < SEG_PAYLOAD_SIZE ->
  (forall b, Q b s) ->
  wp E (load_payload x off) Q s.
Proof.
  intros Hs Hx Ho HQ. destruct (safe_seg s x Hs Hx) as (sg & Hsg & ? & Hl).
  destruct (safe_payload sg off Hl Ho) as [b Hb].
  eapply wp_load_payload; eauto.
Qed.

Lemma wp_safe_store_payload x off b (Q : unit -> DataOverlay -> Prop) s :
  pool_safe s -> 0 <= x < SEGMENT_COUNT -> 0 <= off < SEG_PAYLOAD_SIZE ->
  (forall s', pool_safe s' -> descriptors s' = descriptors s -> Q tt s') ->
  wp E (store_payload x off b) Q s.
Proof.
  intros Hs Hx Ho HQ. destruct (safe_seg s x Hs Hx) as (sg & Hsg & ? & Hl).
  destruct (safe_payload sg off Hl Ho) as [b0 Hb0].
  eapply wp_store_payload; [exact Hsg|exact Hb0|]. apply HQ; auto.
  apply pool_safe_set_segments; auto. simpl. by rewrite length_insertZ.
Qed.

Lemma wp_safe_store_desc i d (Q : unit -> DataOverlay -> Prop) s :
  pool_safe s -> 0 <= i < MAX_QUEUES ->
  (forall s', pool_safe s' -> descriptors s' = insertZ i d (descriptors s) ->
              Q tt s') ->
  wp E (store_desc (desc_ptr i) d) Q s.
Proof.
  intros Hs Hi HQ. destruct (safe_desc_lookup s i Hs Hi) as (d0 & Hd0).
  eapply wp_store_desc; [exact Hd0|]. apply HQ; auto.
  destruct Hs. split; simpl; auto. by rewrite length_insertZ.
Qed.

Lemma wp_safe_free_segment x (Q : unit -> DataOverlay -> Prop) s :
  pool_safe s -> 0 <= x < SEGMENT_COUNT ->
  (forall s', pool_safe s' -> descriptors s' = descriptors s -> Q tt s') ->
  wp E (free_segment x) Q s.
Proof.
  intros Hs Hx HQ. destruct (safe_seg s x Hs Hx) as (sg & Hsg & ? & Hl).
  eapply wp_free_segment; [exact Hsg|]. apply HQ; [|done].
  destruct Hs. split; simpl; auto.
  - by rewrite length_insertZ.
  - by apply Forall_insertZ.
  - by apply Forall_insertZ.
  - by right.
Qed.

Lemma lazy_init_safe g :
  idx_ok (free_list_head g) -> 0 <= next_unused g <= SEGMENT_COUNT ->
  idx_ok (free_list_head (lazy_init g)) /\
  0 <= next_unused (lazy_init g) <= SEGMENT_COUNT.
Proof.
  intros. unfold lazy_init. destruct (initialized g =? 0); simpl; [|done].
  split; [by left|]. rewrite segment_count_val. lia.
Qed.

Lemma wp_safe_allocate_segment (Q : Z -> DataOverlay -> Prop) s :
  pool_safe s ->
  (forall x s', pool_safe s' -> 0 <= x < SEGMENT_COUNT ->
                descriptors s' = descriptors s -> Q x s') ->
  (SEGMENT_COUNT <= next_unused (allocator s) -> E) ->
  wp E allocate_segment Q s.
Proof.
  intros Hs HQ HE.
  destruct (lazy_init_safe (global_data s) (safe_free _ Hs) (safe_bump _ Hs))
    as [Hf Hb]. fold (allocator s) in Hf, Hb.
  apply wp_allocate_segment.
  - intros Hne. pose proof (idx_ok_range _ Hf Hne) as Hr.
    destruct (safe_seg s _ Hs Hr) as (sg & Hsg & Hn & _).
    exists sg. split; [done|]. apply HQ; auto.
    destruct Hs. by split.
  - intros _ Hlt. apply HQ; auto; [|lia].
    destruct Hs. split; simpl; auto. unfold wrap16.
    rewrite Z.mod_small; rewrite segment_count_val in *; lia.
  - intros _. exact HE.
Qed.
End SafeRules.

Lemma insertZ_id {A} (l : list A) i x : lookupZ l i = Some x -> insertZ i x l = l.
Proof. intros [_ H]%lookupZ_Some. by apply list_insert_id. Qed.

Lemma insertZ_insertZ {A} (l : list A) i x y :
  insertZ i x (insertZ i y l) = insertZ i x l.
Proof. apply list_insert_insert_eq. Qed.

Lemma enqueue_byte_safe i b s :
  state_safe s -> 0 <= i < MAX_QUEUES ->
  wp True (enqueue_byte (desc_ptr i) b) (fun _ s' => state_safe s') s.
Proof.
  intros [Hp Hds] Hi. unfold enqueue_byte.
  destruct (safe_desc_lookup s i Hp Hi) as [d Hd].
  pose proof (Forall_lookupZ _ _ _ _ Hds Hd) as Hok.
  apply wp_bind. eapply wp_check_handle; [exact Hd|done|intros Hu].
  apply wp_bind. eapply wp_load_desc; [exact Hd|].
  destruct (Hok Hu) as (Hho & Hto & Hhs & Hts).
  apply wp_bind.
  apply (wp_mono _ _ (fun _ s2 =>
    pool_safe s2 /\ exists d2, descriptors s2 = insertZ i d2 (descriptors s) /\
      desc_ok d2 /\ in_use d2 <> 0 /\ 0 <= tail_segment d2 < SEGMENT_COUNT)).
  2: { destruct (Z.eqb_spec (tail_segment d) INVALID_INDEX) as [Et|Et].
       - apply wp_bind. apply wp_safe_allocate_segment; [done| |done].
         intros x s1 Hs1 Hx Hd1.
         apply wp_bind. apply wp_safe_load_seg; [done|done|]. intros sg Hsg Hn Hl.
         apply wp_bind.
         apply wp_safe_store_seg; [done|done|apply idx_ok_invalid|done|].
         intros s2 Hs2 Hd2.
         apply wp_bind. eapply wp_load_desc; [rewrite Hd2, Hd1; exact Hd|].
         apply wp_safe_store_desc; [done|done|]. intros s3 Hs3 Hd3.
         split; [done|]. eexists. split; [rewrite Hd3, Hd2, Hd1; reflexivity|].
         simpl. split; [|split; [done|done]].
         intros _. simpl. unfold SEG_PAYLOAD_SIZE. repeat split; try lia; by right.
       - apply wp_ret. split; [done|]. exists d.
         split; [by rewrite (insertZ_id _ _ _ Hd)|]. split; [done|]. split; [done|].
         by apply idx_ok_range. }
  intros [] s2 (Hs2 & d2 & Hd2 & Hok2 & Hu2 & Ht2).
  assert (Hl2 : lookupZ (descriptors s2) i = Some d2).
  { rewrite Hd2. eapply lookupZ_insertZ_eq; eauto. }
  destruct (Hok2 Hu2) as (Hho2 & Hto2 & Hhs2 & _).
  apply wp_bind. eapply wp_load_desc; [exact Hl2|].
  apply wp_bind. apply wp_safe_store_payload; [done|done|done|]. intros s3 Hs3 Hd3.
  apply wp_bind. apply wp_safe_store_desc; [done|done|]. intros s4 Hs4 Hd4.
  apply wp_bind. eapply wp_load_desc.
  { rewrite Hd4. eapply lookupZ_insertZ_eq. rewrite Hd3. exact Hl2. }
  simpl. rewrite wrap8_succ by done.
  destruct (Z.eqb_spec (tail_offset d2 + 1) SEG_PAYLOAD_SIZE) as [Ef|Ef].
  - apply wp_bind. apply wp_safe_allocate_segment; [done| |done].
    intros x s5 Hs5 Hx Hd5.
    apply wp_bind. apply wp_safe_load_seg; [done|done|]. intros sg Hsg Hn Hl.
    apply wp_bind.
    apply wp_safe_store_seg; [done|done|apply idx_ok_invalid|done|].
    intros s6 Hs6 Hd6.
    apply wp_bind. apply wp_safe_load_seg; [done|done|]. intros tl Htl Hnt Hlt.
    apply wp_bind. apply wp_safe_store_seg; [done|done|by right|done|].
    intros s7 Hs7 Hd7.
    apply wp_bind. eapply wp_load_desc.
    { rewrite Hd7, Hd6, Hd5, Hd4. eapply lookupZ_insertZ_eq. rewrite Hd3. exact Hl2. }
    apply wp_safe_store_desc; [done|done|]. intros s8 Hs8 Hd8.
    split; [done|]. rewrite Hd8, Hd7, Hd6, Hd5, Hd4, Hd3, Hd2.
    rewrite !insertZ_insertZ. apply Forall_insertZ; [done|].
    intros _. simpl. unfold SEG_PAYLOAD_SIZE in *. repeat split; try lia; try done.
    by right.
  - apply wp_ret. split; [done|]. rewrite Hd4, Hd3, Hd2.
    rewrite !insertZ_insertZ. apply Forall_insertZ; [done|].
    intros _. simpl. rewrite (wrap8_succ _ Hto2).
    unfold SEG_PAYLOAD_SIZE in *. repeat split; try lia; try done.
    by right.
Qed.

Lemma dequeue_byte_safe i s :
  state_safe s -> 0 <= i < MAX_QUEUES ->
  wp True (dequeue_byte (desc_ptr i)) (fun _ s' => state_safe s') s.
Proof.
  intros [Hp Hds] Hi. unfold dequeue_byte.
  destruct (safe_desc_lookup s i Hp Hi) as [d Hd].
  pose proof (Forall_lookupZ _ _ _ _ Hds Hd) as Hok.
  apply wp_bind. eapply wp_check_handle; [exact Hd|done|intros Hu].
  apply wp_bind. eapply wp_load_desc; [exact Hd|].
  destruct (Hok Hu) as (Hho & Hto & Hhs & Hts).
  apply wp_bind.
  destruct (Z.eqb_spec (head_segment d) INVALID_INDEX) as [Eh|Eh];
    [by apply wp_illegal|].
  apply wp_ret.
  pose proof (idx_ok_range _ Hhs Eh) as Hr.
  apply wp_bind. apply wp_safe_load_payload; [done..|]. intros value.
  apply wp_bind. apply wp_safe_store_desc; [done|done|]. intros s1 Hs1 Hd1.
  apply wp_bind. eapply wp_load_desc.
  { rewrite Hd1. eapply lookupZ_insertZ_eq; eauto. }
  simpl. rewrite (wrap8_succ _ Hho). rewrite (wrap8_succ _ Hho) in Hd1.
  destruct ((head_segment d =? tail_segment d) && (head_offset d + 1 =? tail_offset d)).
  - apply wp_bind. apply wp_safe_free_segment; [done|done|]. intros s2 Hs2 Hd2.
    apply wp_bind. eapply wp_load_desc.
    { rewrite Hd2, Hd1. eapply lookupZ_insertZ_eq; eauto. }
    apply wp_bind. apply wp_safe_store_desc; [done|done|]. intros s3 Hs3 Hd3.
    apply wp_ret. split; [done|]. rewrite Hd3, Hd2, Hd1, insertZ_insertZ.
    apply Forall_insertZ; [done|].
    intros _. simpl. unfold SEG_PAYLOAD_SIZE. repeat split; try lia; by left.
  - apply wp_bind.
    apply (wp_mono _ _ (fun _ s' => state_safe s')); [intros; by apply wp_ret|].
    destruct (Z.eqb_spec (head_offset d + 1) SEG_PAYLOAD_SIZE) as [Ef|Ef].
    + apply wp_bind. apply wp_safe_load_seg; [done|done|]. intros hd Hhd Hn Hl.
      apply wp_bind. apply wp_safe_store_desc; [done|done|]. intros s2 Hs2 Hd2.
      apply wp_safe_free_segment; [done|done|]. intros s3 Hs3 Hd3.
      split; [done|]. rewrite Hd3, Hd2, Hd1, insertZ_insertZ.
      apply Forall_insertZ; [done|].
      intros _. simpl. unfold SEG_PAYLOAD_SIZE in *. repeat split; try lia; done.
    + apply wp_ret. split; [done|]. rewrite Hd1.
      apply Forall_insertZ; [done|].
      intros _. simpl. unfold SEG_PAYLOAD_SIZE in *. repeat split; try lia; done.
Qed.

Lemma destroy_walk_safe fuel x s :
  pool_safe s -> idx_ok x ->
  wp True (destroy_walk fuel x)
     (fun _ s' => pool_safe s' /\ descriptors s' = descriptors s) s.
Proof.
  revert x s. induction fuel as [|fuel IH]; intros x s Hs Hx; simpl.
  - exact I.
  - destruct (Z.eqb_spec x INVALID_INDEX) as [Ex|Ex]; simpl.
    + by apply wp_ret.
    + pose proof (idx_ok_range _ Hx Ex) as Hr.
      apply wp_bind. apply wp_safe_load_seg; [done|done|]. intros sg Hsg Hn Hl.
      apply wp_bind. apply wp_safe_free_segment; [done|done|]. intros s1 Hs1 Hd1.
      eapply wp_mono; [|apply IH; done].
      intros [] s' [? ?]. split; congruence.
Qed.

Lemma in_table_desc_ptr i : 0 <= i < MAX_QUEUES -> in_table (desc_ptr i) = true.
Proof.
  intros [? ?]. simpl. apply andb_true_iff. split; [by apply Z.leb_le|by apply Z.ltb_lt].
Qed.

Lemma destroy_queue_safe fuel i s :
  state_safe s -> 0 <= i < MAX_QUEUES ->
  wp True (destroy_queue fuel (desc_ptr i)) (fun _ s' => state_safe s') s.
Proof.
  intros [Hp Hds] Hi. unfold destroy_queue.
  destruct (safe_desc_lookup s i Hp Hi) as [d Hd].
  pose proof (Forall_lookupZ _ _ _ _ Hds Hd) as Hok.
  apply wp_bind. apply wp_ret.
  rewrite (in_table_desc_ptr i Hi).
  apply wp_bind. apply wp_bind. eapply wp_load_desc; [exact Hd|].
  destruct (Z.eqb_spec (in_use d) 0) as [Eu|Eu]; [by apply wp_illegal|].
  apply wp_ret. destruct (Hok Eu) as (Hho & Hto & Hhs & Hts).
  apply wp_bind. eapply wp_load_desc; [exact Hd|].
  apply wp_bind. eapply wp_mono; [|apply destroy_walk_safe; done].
  intros [] s1 [Hs1 Hd1].
  apply wp_bind. eapply wp_load_desc; [rewrite Hd1; exact Hd|].
  apply wp_safe_store_desc; [done|done|]. intros s2 Hs2 Hd2.
  split; [done|]. rewrite Hd2, Hd1. apply Forall_insertZ; [done|].
  intros H. by simpl in H.
Qed.

Lemma create_queue_scan_safe n i s :
  state_safe s -> 0 <= i -> i + Z.of_nat n <= MAX_QUEUES ->
  wp True (create_queue_scan n i) (fun _ s' => state_safe s') s.
Proof.
  revert i. induction n as [|n IH]; intros i [Hp Hds] Hi Hn; simpl.
  - exact I.
  - destruct (safe_desc_lookup s i Hp) as [d Hd]; [lia|].
    apply wp_bind. eapply wp_load_desc; [exact Hd|].
    destruct (Z.eqb_spec (in_use d) 0) as [Eu|Eu].
    + apply wp_bind. apply wp_safe_store_desc; [done|lia|]. intros s1 Hs1 Hd1.
      apply wp_ret. split; [done|]. rewrite Hd1. apply Forall_insertZ; [done|].
      intros _. simpl. unfold SEG_PAYLOAD_SIZE. repeat split; try lia; by left.
    + apply IH; [done|lia|lia].
Qed.

Lemma check_handle_Ret q s a s' :
  check_handle q s = Ret a s' ->
  exists i d, q = desc_ptr i /\ lookupZ (descriptors s) i = Some d /\ in_use d <> 0.
Proof.
  destruct q as [|i]; simpl; [discriminate|].
  unfold bind, load_desc. destruct (lookupZ (descriptors s) i) as [d|] eqn:E;
    [|discriminate].
  destruct (Z.eqb_spec (in_use d) 0); [discriminate|]. eauto.
Qed.

Lemma handle_in_range s i (d : Q) :
  pool_safe s -> lookupZ (descriptors s) i = Some d -> 0 <= i < MAX_QUEUES.
Proof.
  intros Hp H%lookupZ_lt. rewrite (safe_desc_len _ Hp) in H.
  unfold MAX_QUEUES in *. lia.
Qed.

Lemma reachable_safe st : reachable st -> state_safe st.
Proof.
  induction 1 as [|st q st' _ IH Hop|st fuel q st' _ IH Hop
                  |st q b st' _ IH Hop|st q b st' _ IH Hop].
  - exact zero_data_safe.
  - apply (wp_Ret_inv True _ (fun _ s' => state_safe s') _ _ _) in Hop; [done|].
    apply create_queue_scan_safe; [done|lia|]. unfold MAX_QUEUES. simpl. lia.
  - assert (exists i, q = desc_ptr i /\ 0 <= i < MAX_QUEUES) as (i & -> & Hi).
    { unfold destroy_queue in Hop. destruct q as [|i]; [discriminate|].
      exists i. split; [done|]. simpl in Hop. unfold bind at 1 2 in Hop. simpl in Hop.
      destruct (Z.leb_spec 0 i); destruct (Z.ltb_spec i MAX_QUEUES);
        simpl in Hop; try discriminate. lia. }
    apply (wp_Ret_inv True _ (fun _ s' => state_safe s') _ _ _) in Hop; [done|].
    by apply destroy_queue_safe.
  - assert (exists i, q = desc_ptr i /\ 0 <= i < MAX_QUEUES) as (i & -> & Hi).
    { apply bind_Ret_inv in Hop as (? & ? & Hc & _).
      apply check_handle_Ret in Hc as (i & d & -> & Hd & _).
      exists i. split; [done|]. eapply handle_in_range; [apply IH|exact Hd]. }
    apply (wp_Ret_inv True _ (fun _ s' => state_safe s') _ _ _) in Hop; [done|].
    by apply enqueue_byte_safe.
  - assert (exists i, q = desc_ptr i /\ 0 <= i < MAX_QUEUES) as (i & -> & Hi).
    { apply bind_Ret_inv in Hop as (? & ? & Hc & _).
      apply check_handle_Ret in Hc as (i & d & -> & Hd & _).
      exists i. split; [done|]. eapply handle_in_range; [apply IH|exact Hd]. }
    apply (wp_Ret_inv True _ (fun _ s' => state_safe s') _ _ _) in Hop; [done|].
    by apply dequeue_byte_safe.
Qed.

(** C9: in every state reachable through the public operations each
    in-use descriptor has both cursors below 14, and [enqueue_byte] and
    [dequeue_byte] on a null handle or a handle into the table never index
    outside a segment payload (or outside any other array). *)
Theorem cursors_within_payload st :
  reachable st ->
  (forall i d, lookupZ (descriptors st) i = Some d -> in_use d <> 0 ->
     0 <= head_offset d < SEG_PAYLOAD_SIZE /\
     0 <= tail_offset d < SEG_PAYLOAD_SIZE) /\
  (forall q b, q = nullptr \/ in_table q = true ->
     enqueue_byte q b st <> Undefined /\ dequeue_byte q st <> Undefined).
Proof.
  intros Hr. pose proof (reachable_safe st Hr) as Hs. split.
  - intros i d Hd Hu. destruct Hs as [_ Hds].
    destruct (Forall_lookupZ _ _ _ _ Hds Hd Hu) as (? & ? & _). done.
  - intros q b [->|Hq].
    + split; discriminate.
    + destruct q as [|i]; [discriminate|]. simpl in Hq.
      apply andb_true_iff in Hq as [?%Z.leb_le ?%Z.ltb_lt].
      split.
      * eapply wp_not_Undefined. by apply enqueue_byte_safe.
      * eapply wp_not_Undefined. by apply dequeue_byte_safe.
Qed.

Lemma cursors_within_payload_witness :
  (forall i d, lookupZ (descriptors drained) i = Some d -> in_use d <> 0 ->
     0 <= head_offset d < SEG_PAYLOAD_SIZE /\
     0 <= tail_offset d < SEG_PAYLOAD_SIZE) /\
  (forall q b, q = nullptr \/ in_table q = true ->
     enqueue_byte q b drained <> Undefined /\ dequeue_byte q drained <> Undefined).
Proof.
  apply (cursors_within_payload drained).
  assert (Hc : reachable (state_of (create_queue zero_data))).
  { eapply reach_create; [apply reach_start|vm_compute; reflexivity]. }
  assert (He : forall bs st st', reachable st ->
             enqueue_bytes (desc_ptr 0) bs st = Ret tt st' -> reachable st').
  { induction bs as [|b bs IH]; intros st st' Hst H; simpl in H.
    - injection H as <-. exact Hst.
    - apply bind_Ret_inv in H as ([] & s1 & H1 & H2).
      eapply IH; [|exact H2]. eapply reach_enqueue; eauto. }
  assert (Hd : forall n st bs st', reachable st ->
             dequeue_bytes (desc_ptr 0) n st = Ret bs st' -> reachable st').
  { induction n as [|n IH]; intros st bs st' Hst H; simpl in H.
    - injection H as <- <-. exact Hst.
    - apply bind_Ret_inv in H as (b & s1 & H1 & H2).
      apply bind_Ret_inv in H2 as (bs' & s2 & H2 & H3).
      injection H3 as <- <-.
      eapply IH; [|exact H2]. eapply reach_dequeue; eauto. }
  eapply (Hd 14%nat); [eapply (He fourteen); [exact Hc|]|]; vm_compute; reflexivity.
Defined.

(** ** Chains of segments *)

Lemma is_chain_ext segs segs' h c e :
  (forall x, x ∈ c -> next <$> lookupZ segs' x = next <$> lookupZ segs x) ->
  is_chain segs h c e -> is_chain segs' h c e.
Proof.
  revert h. induction c as [|x c IH]; intros h Hext; simpl; [done|].
  intros (-> & Hx & sg & Hsg & Hc).
  pose proof (Hext x ltac:(left)) as Hn. rewrite Hsg in Hn. simpl in Hn.
  destruct (lookupZ segs' x) as [sg'|] eqn:Hsg'; [|discriminate].
  simpl in Hn. injection Hn as Hn.
  split; [done|]. split; [done|]. exists sg'. split; [done|].
  rewrite Hn. apply IH; [|done]. intros y Hy. apply Hext. by right.
Qed.

Lemma is_chain_insert_other segs y sg h c e :
  0 <= y -> y ∉ c -> is_chain segs h c e -> is_chain (insertZ y sg segs) h c e.
Proof.
  intros Hy Hni. apply is_chain_ext. intros x Hx.
  rewrite lookupZ_insertZ_ne; [done|done|]. intros ->. done.
Qed.

Lemma is_chain_insert_data segs y sg0 sg h c e :
  lookupZ segs y = Some sg0 -> next sg = next sg0 ->
  is_chain segs h c e -> is_chain (insertZ y sg segs) h c e.
Proof.
  intros Hy Hn. apply is_chain_ext. intros x Hx.
  destruct (Z.eq_dec y x) as [<-|Hne].
  - rewrite (lookupZ_insertZ_eq _ _ _ _ Hy), Hy. simpl. by rewrite Hn.
  - rewrite lookupZ_insertZ_ne; [done| |done]. apply lookupZ_lt in Hy; lia.
Qed.

Lemma is_chain_app segs h c1 c2 e :
  is_chain segs h (c1 ++ c2) e <->
  exists m, is_chain segs h c1 m /\ is_chain segs m c2 e.
Proof.
  revert h. induction c1 as [|x c1 IH]; intros h; simpl.
  - split; [eauto|]. by intros (m & -> & ?).
  - split.
    + intros (-> & Hx & sg & Hsg & Hc). apply IH in Hc as (m & H1 & H2).
      exists m. split; [|done]. repeat split; try done. eauto.
    + intros (m & (-> & Hx & sg & Hsg & H1) & H2).
      repeat split; try done. exists sg. split; [done|]. apply IH. eauto.
Qed.

Lemma is_chain_elem segs h c e x :
  is_chain segs h c e -> x ∈ c ->
  x <> INVALID_INDEX /\ exists sg, lookupZ segs x = Some sg.
Proof.
  revert h. induction c as [|y c IH]; intros h; simpl.
  - intros _ []%elem_of_nil.
  - intros (-> & Hy & sg & Hsg & Hc) [->|Hx]%elem_of_cons; [eauto|].
    eapply IH; eauto.
Qed.

Lemma is_chain_unique segs h c1 c2 :
  is_chain segs h c1 INVALID_INDEX -> is_chain segs h c2 INVALID_INDEX -> c1 = c2.
Proof.
  revert h c2. induction c1 as [|x c1 IH]; intros h [|y c2]; simpl; try done.
  - intros -> (-> & Hy & _). done.
  - intros (-> & Hx & _) ->. done.
  - intros (-> & Hx & sg & Hsg & H1) (<- & _ & sg' & Hsg' & H2).
    rewrite Hsg in Hsg'. injection Hsg' as <-. f_equal. eapply IH; eauto.
Qed.

Lemma is_chain_NoDup segs h c :
  is_chain segs h c INVALID_INDEX -> NoDup c.
Proof.
  revert h. induction c as [|x c IH]; intros h; [constructor|].
  intros Hc. pose proof Hc as (-> & Hx & sg & Hsg & Hc').
  apply NoDup_cons. split; [|by eapply IH].
  intros Hin. apply list_elem_of_split in Hin as (l1 & l2 & ->).
  apply is_chain_app in Hc' as (m & H1 & H2).
  pose proof H2 as (-> & _).
  pose proof (is_chain_unique _ _ _ _ Hc H2) as Heq.
  apply (f_equal length) in Heq. rewrite !length_cons, length_app, length_cons in Heq. lia.
Qed.

Lemma is_chain_invalid segs c : is_chain segs INVALID_INDEX c INVALID_INDEX -> c = [].
Proof. destruct c; [done|]. simpl. by intros (<- & ? & _). Qed.

Lemma is_chain_nonempty segs h c :
  is_chain segs h c INVALID_INDEX -> h <> INVALID_INDEX ->
  exists sg c', c = h :: c' /\ lookupZ segs h = Some sg /\
                is_chain segs (next sg) c' INVALID_INDEX.
Proof.
  destruct c as [|x c]; simpl; [done|].
  intros (-> & _ & sg & Hsg & Hc) _. eauto.
Qed.

(** ** Payload of a chain *)

Lemma seg_data_insert_other segs y sg x :
  0 <= y -> y <> x -> seg_data (insertZ y sg segs) x = seg_data segs x.
Proof. intros. unfold seg_data. by rewrite lookupZ_insertZ_ne. Qed.

Lemma seg_data_insert_same segs y sg sg0 :
  lookupZ segs y = Some sg0 -> seg_data (insertZ y sg segs) y = data sg.
Proof. intros H. unfold seg_data. by rewrite (lookupZ_insertZ_eq _ _ _ _ H). Qed.

Lemma chain_payload_ext segs segs' c :
  (forall x, x ∈ c -> seg_data segs' x = seg_data segs x) ->
  chain_payload segs' c = chain_payload segs c.
Proof.
  intros H. unfold chain_payload. f_equal. apply map_ext_in.
  intros x Hx. apply H. by apply list_elem_of_In.
Qed.

Lemma chain_payload_app segs c1 c2 :
  chain_payload segs (c1 ++ c2) = chain_payload segs c1 ++ chain_payload segs c2.
Proof. unfold chain_payload. by rewrite map_app, concat_app. Qed.

Lemma chain_payload_cons segs x c :
  chain_payload segs (x :: c) = seg_data segs x ++ chain_payload segs c.
Proof. reflexivity. Qed.

Lemma seg_data_length segs x sg :
  Forall (fun sg => length (data sg) = payload_len) segs ->
  lookupZ segs x = Some sg -> length (seg_data segs x) = payload_len.
Proof.
  intros HF Hx. unfold seg_data. rewrite Hx.
  exact (Forall_lookupZ _ _ _ _ HF Hx).
Qed.

Lemma payload_len_val : payload_len = 14%nat.
Proof. reflexivity. Qed.

Lemma chain_payload_length segs h c e :
  Forall (fun sg => length (data sg) = payload_len) segs ->
  is_chain segs h c e ->
  length (chain_payload segs c) = (payload_len * length c)%nat.
Proof.
  intros HF. revert h. induction c as [|x c IH]; intros h.
  - intros _. unfold chain_payload. simpl. lia.
  - intros (-> & _ & sg & Hsg & Hc). rewrite chain_payload_cons, length_app.
    rewrite (seg_data_length _ _ _ HF Hsg), (IH _ Hc), length_cons. lia.
Qed.

(** ** destroy_queue *)

Lemma load_seg_eq x st sg :
  lookupZ (segments st) x = Some sg -> load_seg x st = Ret sg st.
Proof. unfold load_seg. by intros ->. Qed.

Lemma load_desc_eq i st d :
  lookupZ (descriptors st) i = Some d -> load_desc (desc_ptr i) st = Ret d st.
Proof. unfold load_desc. by intros ->. Qed.

Lemma destroy_walk_chain c :
  forall st h fuel,
    is_chain (segments st) h c INVALID_INDEX ->
    (length c < fuel)%nat ->
    exists st', destroy_walk fuel h st = Ret tt st' /\
                descriptors st' = descriptors st /\ chain_released st c st'.
Proof.
  induction c as [|x c IH]; intros st h fuel Hc Hf.
  - simpl in Hc. subst h. destruct fuel as [|fuel]; [simpl in Hf; lia|].
    exists st. split; [reflexivity|]. split; [done|].
    repeat split; auto.
  - pose proof (is_chain_NoDup _ _ _ Hc) as Hnd.
    apply NoDup_cons in Hnd as [Hni Hnd].
    destruct Hc as (-> & Hx & sg & Hsg & Hc).
    destruct fuel as [|fuel]; [simpl in Hf; lia|].
    assert (0 <= x) as Hx0 by (apply lookupZ_lt in Hsg; lia).
    cbn [destroy_walk]. destruct (Z.eqb_spec x INVALID_INDEX) as [|_]; [done|].
    cbn [negb]. rewrite (bind_Ret _ _ _ _ _ (load_seg_eq _ _ _ Hsg)).
    rewrite (bind_Ret _ _ _ _ _ (free_segment_eq _ _ _ Hsg)).
    destruct (IH {| descriptors := descriptors st;
                    global_data := set_free_list_head x (global_data st);
                    segments := insertZ x (set_next (free_list_head (global_data st)) sg)
                                  (segments st) |} (next sg) fuel)
      as (st' & Hw & Hd & Hnu & Hin & Hch & Hfr & Hda & Hlen);
      [|simpl in Hf; lia|].
    { cbn [segments]. by apply is_chain_insert_other. }
    exists st'. split; [exact Hw|]. split; [exact Hd|].
    cbn [segments global_data set_free_list_head free_list_head next_unused initialized]
      in Hnu, Hin, Hch, Hfr, Hda, Hlen.
    repeat split; auto.
    + intros fl e Hfl Hdis. rewrite reverse_cons, <- app_assoc. apply Hch.
      * split; [done|]. split; [done|]. eexists. split.
        { eapply lookupZ_insertZ_eq; eauto. }
        cbn [next set_next]. apply is_chain_insert_other; [done| |done].
        apply Hdis. by left.
      * intros y Hy [->|Hyf]%elem_of_cons; [done|].
        eapply Hdis; [|exact Hyf]. by right.
    + intros y Hy. apply not_elem_of_cons in Hy as [Hne Hy].
      rewrite (Hfr y Hy). by apply lookupZ_insertZ_ne.
    + intros y. rewrite Hda. destruct (Z.eq_dec x y) as [<-|Hne].
      * rewrite (seg_data_insert_same _ _ _ _ Hsg). unfold seg_data. by rewrite Hsg.
      * by apply seg_data_insert_other.
    + by rewrite Hlen, length_insertZ.
Qed.

(** C7: destroying a live queue whose chain is [c] (k = length c
    segments, followed from head through the next links to the sentinel)
    returns; afterwards the free list is the k segments of [c], last one
    first, in front of the old free list; the descriptor has in_use = 0 and
    its other fields are unchanged, so [create_queue] hands the slot out
    again once no lower slot is free; no other descriptor, no segment
    outside [c], no payload, and neither the bump pointer nor the
    initialization flag changes. *)
Theorem destroy_queue_releases_chain st i d c fuel :
  0 <= i < MAX_QUEUES ->
  lookupZ (descriptors st) i = Some d ->
  in_use d <> 0 ->
  is_chain (segments st) (head_segment d) c INVALID_INDEX ->
  (length c < fuel)%nat ->
  exists st',
    destroy_queue fuel (desc_ptr i) st = Ret tt st' /\
    descriptors st' = insertZ i (set_in_use 0 d) (descriptors st) /\
    chain_released st c st' /\
    is_chain (segments st') (free_list_head (global_data st')) (reverse c)
      (free_list_head (global_data st)) /\
    ((forall j d', 0 <= j < i -> lookupZ (descriptors st) j = Some d' -> in_use d' <> 0) ->
     exists st'', create_queue st' = Ret (desc_ptr i) st'').
Proof.
  intros Hi Hd Hu Hc Hf.
  destruct (destroy_walk_chain c st (head_segment d) fuel Hc Hf)
    as (st1 & Hw & Hd1 & Hrel).
  assert (Hd1' : lookupZ (descriptors st1) i = Some d) by (by rewrite Hd1).
  eexists. split.
  { unfold destroy_queue. rewrite (bind_Ret _ _ _ tt st) by reflexivity.
    rewrite (in_table_desc_ptr i Hi).
    rewrite (bind_Ret _ _ _ tt st).
    2: { rewrite (bind_Ret _ _ _ _ _ (load_desc_eq _ _ _ Hd)).
         destruct (Z.eqb_spec (in_use d) 0); [done|reflexivity]. }
    rewrite (bind_Ret _ _ _ _ _ (load_desc_eq _ _ _ Hd)).
    rewrite (bind_Ret _ _ _ _ _ Hw).
    rewrite (bind_Ret _ _ _ _ _ (load_desc_eq _ _ _ Hd1')).
    unfold store_desc. rewrite Hd1'. reflexivity. }
  cbn [descriptors set_descriptors segments global_data].
  split; [by rewrite Hd1|]. split; [exact Hrel|]. split.
  - destruct Hrel as (_ & _ & Hch & _).
    rewrite <- (app_nil_r (reverse c)). apply Hch; [done|].
    intros x _. apply not_elem_of_nil.
  - intros Hlow. eexists. unfold create_queue.
    apply (create_queue_scan_found _ _ 0 i (set_in_use 0 d)).
    + lia.
    + unfold MAX_QUEUES in *. simpl. lia.
    + cbn [descriptors set_descriptors]. rewrite Hd1. by eapply lookupZ_insertZ_eq.
    + reflexivity.
    + cbn [descriptors set_descriptors]. rewrite Hd1.
      intros j d' Hj. rewrite lookupZ_insertZ_ne; [|lia|lia]. by apply Hlow.
Qed.

Lemma destroy_queue_releases_chain_witness :
  exists st',
    destroy_queue 3 (desc_ptr 0) one_left = Ret tt st' /\
    descriptors st' =
      insertZ 0 (set_in_use 0 {| head_segment := 0; tail_segment := 1;
                                 head_offset := 13; tail_offset := 0;
                                 in_use := 1; pad := 0 |})
        (descriptors one_left) /\
    chain_released one_left [0; 1] st' /\
    is_chain (segments st') (free_list_head (global_data st')) (reverse [0; 1])
      (free_list_head (global_data one_left)) /\
    ((forall j d', 0 <= j < 0 -> lookupZ (descriptors one_left) j = Some d' ->
                   in_use d' <> 0) ->
     exists st'', create_queue st' = Ret (desc_ptr 0) st'').
Proof.
  apply (destroy_queue_releases_chain one_left 0 _ [0; 1] 3).
  - vm_compute. split; [discriminate|reflexivity].
  - vm_compute. reflexivity.
  - vm_compute. discriminate.
  - simpl. concrete.
  - simpl. lia.
Defined.

(** ** The allocator and the representation of a queue *)

Lemma allocator_initialized st : initialized (allocator st) <> 0.
Proof.
  unfold allocator, lazy_init.
  destruct (Z.eqb_spec (initialized (global_data st)) 0); simpl; lia.
Qed.

Lemma lazy_init_id g : initialized g <> 0 -> lazy_init g = g.
Proof. intros H. unfold lazy_init. by destruct (Z.eqb_spec (initialized g) 0). Qed.

Lemma allocator_id st :
  initialized (global_data st) <> 0 -> allocator st = global_data st.
Proof. apply lazy_init_id. Qed.

Lemma allocator_set st g :
  initialized g <> 0 -> allocator (set_global_data g st) = g.
Proof. apply lazy_init_id. Qed.

Lemma wp_allocate_pool E (Q : Z -> DataOverlay -> Prop) st c fl :
  pool_rep st c fl -> E ->
  (forall x st' fl' sgx,
      descriptors st' = descriptors st -> segments st' = segments st ->
      lookupZ (segments st) x = Some sgx -> x <> INVALID_INDEX ->
      pool_rep st' (c ++ [x]) fl' -> Q x st') ->
  wp E allocate_segment Q st.
Proof.
  intros (Hfl & Hnd & Hnu0 & Hlt & Hinit & Hlen & Hdata) HE HQ.
  pose proof (allocator_initialized st) as Hai.
  apply wp_allocate_segment.
  - intros Hne.
    destruct (is_chain_nonempty _ _ _ Hfl Hne) as (sg & fl' & -> & Hsg & Hfl').
    exists sg. split; [done|]. apply (HQ _ _ fl' sg); try done.
    unfold pool_rep. rewrite allocator_set by done.
    cbn [global_data set_global_data segments free_list_head next_unused
         set_free_list_head initialized].
    rewrite <- app_assoc. repeat split; try done.
  - intros Hinv Hlt'. rewrite Hinv in Hfl. apply is_chain_invalid in Hfl as ->.
    rewrite app_nil_r in Hnd, Hlt.
    destruct (lookupZ_is_Some (segments st) (next_unused (allocator st))) as [sgx Hsgx].
    { rewrite Hlen. rewrite segment_count_val in *. lia. }
    assert (Hw : wrap16 (next_unused (allocator st) + 1) = next_unused (allocator st) + 1).
    { unfold wrap16. apply Z.mod_small. rewrite segment_count_val in Hlt'. lia. }
    apply (HQ _ _ [] sgx); try done.
    { rewrite segment_count_val in Hlt'. unfold INVALID_INDEX, UINT16_MAX. lia. }
    unfold pool_rep. rewrite allocator_set by done.
    cbn [global_data set_global_data segments free_list_head next_unused
         set_next_unused initialized]. rewrite Hw.
    rewrite app_nil_r. repeat split; try done.
    + apply NoDup_app. split; [done|]. split; [|apply NoDup_singleton].
      intros y Hy ->%list_elem_of_singleton. apply Hlt in Hy. lia.
    + lia.
    + intros y [Hy| ->%list_elem_of_singleton]%elem_of_app; [apply Hlt in Hy|]; lia.
  - intros _ _. exact HE.
Qed.

Lemma next_unused_lazy_init g g' :
  initialized g' = initialized g -> next_unused g' = next_unused g ->
  next_unused (lazy_init g') = next_unused (lazy_init g).
Proof.
  intros Hi Hn. unfold lazy_init. rewrite Hi.
  by destruct (initialized g =? 0).
Qed.

Lemma unaccounted_eq st st' c c' fl fl' :
  next_unused (allocator st') = next_unused (allocator st) ->
  length (c' ++ fl') = length (c ++ fl) ->
  unaccounted st' c' fl' = unaccounted st c fl.
Proof. unfold unaccounted. by intros -> ->. Qed.

Lemma unaccounted_perm st c c' fl :
  c ≡ₚ c' -> unaccounted st c fl = unaccounted st c' fl.
Proof.
  intros Hp. apply unaccounted_eq; [done|]. rewrite !length_app. by rewrite Hp.
Qed.

Lemma wp_allocate_pool_count E (Q : Z -> DataOverlay -> Prop) st c fl :
  pool_rep st c fl -> (pool_exhausted st -> E) ->
  (forall x st' fl' sgx,
      descriptors st' = descriptors st -> segments st' = segments st ->
      lookupZ (segments st) x = Some sgx -> x <> INVALID_INDEX ->
      pool_rep st' (c ++ [x]) fl' ->
      unaccounted st' (c ++ [x]) fl' = unaccounted st c fl -> Q x st') ->
  wp E allocate_segment Q st.
Proof.
  intros (Hfl & Hnd & Hnu0 & Hlt & Hinit & Hlen & Hdata) HE HQ.
  pose proof (allocator_initialized st) as Hai.
  apply wp_allocate_segment.
  - intros Hne.
    destruct (is_chain_nonempty _ _ _ Hfl Hne) as (sg & fl' & -> & Hsg & Hfl').
    exists sg. split; [done|]. apply (HQ _ _ fl' sg); try done.
    + unfold pool_rep. rewrite allocator_set by done.
      cbn [global_data set_global_data segments free_list_head next_unused
           set_free_list_head initialized].
      rewrite <- app_assoc. repeat split; try done.
    + unfold unaccounted. rewrite allocator_set by done.
      cbn [next_unused set_free_list_head]. rewrite !length_app. cbn [length]. lia.
  - intros Hinv Hlt'. rewrite Hinv in Hfl. apply is_chain_invalid in Hfl as ->.
    rewrite app_nil_r in Hnd, Hlt.
    destruct (lookupZ_is_Some (segments st) (next_unused (allocator st))) as [sgx Hsgx].
    { rewrite Hlen. rewrite segment_count_val in *. lia. }
    assert (Hw : wrap16 (next_unused (allocator st) + 1) = next_unused (allocator st) + 1).
    { unfold wrap16. apply Z.mod_small. rewrite segment_count_val in Hlt'. lia. }
    apply (HQ _ _ [] sgx); try done.
    + rewrite segment_count_val in Hlt'. unfold INVALID_INDEX, UINT16_MAX. lia.
    + unfold pool_rep. rewrite allocator_set by done.
      cbn [global_data set_global_data segments free_list_head next_unused
           set_next_unused initialized]. rewrite Hw.
      rewrite app_nil_r. repeat split; try done.
      * apply NoDup_app. split; [done|]. split; [|apply NoDup_singleton].
        intros y Hy ->%list_elem_of_singleton. apply Hlt in Hy. lia.
      * lia.
      * intros y [Hy| ->%list_elem_of_singleton]%elem_of_app; [apply Hlt in Hy|]; lia.
    + unfold unaccounted. rewrite allocator_set by done.
      cbn [next_unused set_next_unused]. rewrite Hw, !length_app. cbn [length]. lia.
  - intros Hf Hn. apply HE. by split.
Qed.

Lemma wp_allocate_pool_room E (Q : Z -> DataOverlay -> Prop) st c fl :
  pool_rep st c fl -> (pool_exhausted st -> E) ->
  (forall x st' fl' sgx,
      descriptors st' = descriptors st -> segments st' = segments st ->
      lookupZ (segments st) x = Some sgx -> x <> INVALID_INDEX ->
      pool_rep st' (c ++ [x]) fl' -> Q x st') ->
  wp E allocate_segment Q st.
Proof.
  intros Hp HE HQ. apply (wp_allocate_pool_count E Q st c fl Hp HE).
  intros x st' fl' sgx ? ? ? ? ? _. by eapply HQ.
Qed.

(** ** Bytes of a queue *)

Lemma take_chain_payload_last segs h c0 t e n :
  Forall (fun sg => length (data sg) = payload_len) segs ->
  is_chain segs h (c0 ++ [t]) e ->
  take (payload_len * (length (c0 ++ [t]) - 1) + n) (chain_payload segs (c0 ++ [t])) =
  chain_payload segs c0 ++ take n (seg_data segs t).
Proof.
  intros HF Hc. apply is_chain_app in Hc as (m & H0 & Ht).
  rewrite length_app, chain_payload_app. cbn [length].
  replace (length c0 + 1 - 1)%nat with (length c0) by lia.
  rewrite <- (chain_payload_length _ _ _ _ HF H0).
  rewrite take_app_add. f_equal. rewrite chain_payload_cons.
  unfold chain_payload at 1. cbn. by rewrite app_nil_r.
Qed.

Lemma desc_rep_split segs d c l :
  c <> [] -> desc_rep segs d c l ->
  exists c0, c = c0 ++ [tail_segment d] /\ (tail_segment d ∉ c0) /\
    0 <= tail_segment d /\ tail_segment d <> INVALID_INDEX /\
    is_chain segs (head_segment d) c INVALID_INDEX /\
    0 <= head_offset d < SEG_PAYLOAD_SIZE /\
    0 <= tail_offset d < SEG_PAYLOAD_SIZE /\
    (c0 = [] -> head_offset d <= tail_offset d) /\
    l = queue_bytes segs d c.
Proof.
  intros Hne. destruct c as [|h c']; [done|]. cbn [desc_rep].
  intros (Hch & Hlast & Hho & Hto & Hone & Hl).
  apply last_Some in Hlast as [c0 Hc0]. exists c0. rewrite Hc0 in *.
  pose proof (is_chain_NoDup _ _ _ Hch) as Hnd.
  apply NoDup_app in Hnd as (_ & Hdis & _).
  destruct (is_chain_elem _ _ _ _ (tail_segment d) Hch) as (Ht & sg & Hsg).
  { apply elem_of_app. right. by left. }
  apply lookupZ_lt in Hsg.
  repeat split; try done; try lia.
  - intros Hin. apply (Hdis _ Hin). by left.
  - intros ->. by apply Hone.
Qed.

(** First half of [enqueue_byte]: the byte is stored at the write cursor
    and the cursor advances. *)
Lemma enqueue_write_filling segs d c l b sgt :
  Forall (fun sg => length (data sg) = payload_len) segs ->
  c <> [] -> desc_rep segs d c l ->
  lookupZ segs (tail_segment d) = Some sgt ->
  desc_filling
    (insertZ (tail_segment d)
       (set_data (insertZ (tail_offset d) b (data sgt)) sgt) segs)
    (set_tail_offset (tail_offset d + 1) d) c (l ++ [b]).
Proof.
  intros HF Hne Hrep Hsgt.
  destruct (desc_rep_split _ _ _ _ Hne Hrep)
    as (c0 & -> & Hni & Ht0 & Htne & Hch & Hho & Hto & Hone & ->).
  set (segs' := insertZ _ _ segs).
  assert (Hch' : is_chain segs' (head_segment d) (c0 ++ [tail_segment d]) INVALID_INDEX).
  { by apply (is_chain_insert_data _ _ sgt). }
  assert (HF' : Forall (fun sg => length (data sg) = payload_len) segs').
  { apply Forall_insertZ; [done|]. cbn [data set_data]. rewrite length_insertZ.
    exact (Forall_lookupZ _ _ _ _ HF Hsgt). }
  assert (HD : length (data sgt) = payload_len) by exact (Forall_lookupZ _ _ _ _ HF Hsgt).
  rewrite payload_len_val in HD. unfold desc_filling, SEG_PAYLOAD_SIZE in *.
  split; [done|]. split; [exact Hch'|]. split; [apply last_snoc|].
  split; [done|]. split; [cbn; lia|]. split.
  { cbn [head_offset tail_offset set_tail_offset]. rewrite length_app. cbn [length].
    intros Hl. assert (c0 = []) as Hc0 by (destruct c0; [done|simpl in Hl; lia]).
    specialize (Hone Hc0). lia. }
  unfold queue_bytes. cbn [head_offset tail_offset set_tail_offset].
  rewrite (take_chain_payload_last _ _ _ _ _ _ HF Hch).
  rewrite (take_chain_payload_last _ _ _ _ _ _ HF' Hch').
  rewrite (chain_payload_ext segs segs' c0).
  2: { intros x Hx. apply seg_data_insert_other; [done|].
       intros Heq. apply Hni. by rewrite Heq. }
  unfold segs'. rewrite (seg_data_insert_same _ _ _ _ Hsgt). cbn [data set_data].
  unfold seg_data. rewrite Hsgt.
  replace (Z.to_nat (tail_offset d + 1)) with (S (Z.to_nat (tail_offset d))) by lia.
  unfold insertZ at 1.
  rewrite (take_S_r _ _ b).
  2: { apply list_lookup_insert_eq. lia. }
  rewrite take_insert_ge by lia.
  rewrite app_assoc. symmetry. apply drop_app_le.
  rewrite length_app, length_take.
  destruct c0 as [|y c0].
  - specialize (Hone eq_refl). unfold chain_payload. simpl. lia.
  - apply is_chain_app in Hch as (m & H0 & _).
    rewrite (chain_payload_length _ _ _ _ HF H0), payload_len_val. cbn [length]. lia.
Qed.

(** Second half of [enqueue_byte]: a full tail segment gets a fresh
    successor, which becomes the tail. *)
Lemma enqueue_extend_rep segs d c l x sgx sgt :
  Forall (fun sg => length (data sg) = payload_len) segs ->
  desc_filling segs d c l ->
  tail_offset d = SEG_PAYLOAD_SIZE ->
  x ∉ c -> x <> INVALID_INDEX ->
  lookupZ segs x = Some sgx ->
  lookupZ segs (tail_segment d) = Some sgt ->
  desc_rep
    (insertZ (tail_segment d) (set_next x sgt)
       (insertZ x (set_next INVALID_INDEX sgx) segs))
    (set_tail_offset 0 (set_tail_segment x d)) (c ++ [x]) l.
Proof.
  intros HF (Hne & Hch & Hlast & Hho & Hto & Hone & ->) Hfull Hx Hxne Hsgx Hsgt.
  apply last_Some in Hlast as [c0 ->].
  set (t := tail_segment d) in *.
  assert (Hx0 : 0 <= x) by (apply lookupZ_lt in Hsgx; lia).
  assert (Ht0 : 0 <= t) by (apply lookupZ_lt in Hsgt; lia).
  assert (Hxt : x <> t). { intros ->. apply Hx, elem_of_app. right. by left. }
  pose proof (is_chain_NoDup _ _ _ Hch) as Hnd.
  apply NoDup_app in Hnd as (_ & Hdis & _).
  assert (Htc0 : t ∉ c0). { intros Hin. apply (Hdis _ Hin). by left. }
  assert (Hxc0 : x ∉ c0). { intros Hin. apply Hx, elem_of_app. by left. }
  set (segs1 := insertZ x (set_next INVALID_INDEX sgx) segs).
  set (segs2 := insertZ t (set_next x sgt) segs1).
  assert (Hsgt1 : lookupZ segs1 t = Some sgt).
  { unfold segs1. by rewrite lookupZ_insertZ_ne. }
  assert (Hch2 : is_chain segs2 (head_segment d) ((c0 ++ [t]) ++ [x]) INVALID_INDEX).
  { pose proof Hch as (m & H0 & (-> & Htne & _))%is_chain_app.
    rewrite <- app_assoc. apply is_chain_app. exists t. split.
    - apply is_chain_insert_other; [done|done|].
      by apply is_chain_insert_other.
    - split; [done|]. split; [done|]. exists (set_next x sgt). split.
      { unfold segs2. by eapply lookupZ_insertZ_eq. }
      cbn [next set_next]. split; [done|]. split; [done|].
      exists (set_next INVALID_INDEX sgx). split; [|done].
      unfold segs2. rewrite lookupZ_insertZ_ne by done.
      unfold segs1. by eapply lookupZ_insertZ_eq. }
  assert (HF2 : Forall (fun sg => length (data sg) = payload_len) segs2).
  { apply Forall_insertZ; [apply Forall_insertZ; [done|]|]; cbn [data set_next].
    - exact (Forall_lookupZ _ _ _ _ HF Hsgx).
    - exact (Forall_lookupZ _ _ _ _ HF Hsgt). }
  destruct ((c0 ++ [t]) ++ [x]) as [|y c'] eqn:Ec.
  { by destruct c0. }
  cbn [desc_rep]. rewrite <- Ec in *. clear Ec.
  cbn [head_segment tail_segment head_offset tail_offset set_tail_offset set_tail_segment].
  split; [done|]. split; [apply last_snoc|]. split; [done|].
  split; [unfold SEG_PAYLOAD_SIZE; lia|]. split.
  { rewrite !length_app. cbn [length]. lia. }
  unfold queue_bytes.
  cbn [head_segment tail_segment head_offset tail_offset set_tail_offset set_tail_segment].
  f_equal.
  rewrite (take_chain_payload_last _ _ _ _ _ _ HF2 Hch2). change (Z.to_nat 0) with 0%nat.
  rewrite take_0, app_nil_r.
  rewrite (chain_payload_ext segs segs2 (c0 ++ [t])).
  2: { intros z Hz. unfold segs2, segs1. destruct (Z.eq_dec t z) as [<-|Hne'].
       - rewrite (seg_data_insert_same _ _ _ _ Hsgt1). unfold seg_data. by rewrite Hsgt.
       - rewrite seg_data_insert_other by done.
         apply seg_data_insert_other; [done|]. by intros ->. }
  apply take_ge. rewrite (chain_payload_length _ _ _ _ HF Hch).
  rewrite Hfull. unfold SEG_PAYLOAD_SIZE. rewrite payload_len_val.
  rewrite length_app. cbn [length]. lia.
Qed.

(** The first segment of an empty queue. *)
Lemma enqueue_first_rep segs d x sgx :
  lookupZ segs x = Some sgx -> x <> INVALID_INDEX ->
  desc_rep (insertZ x (set_next INVALID_INDEX sgx) segs)
    (set_tail_offset 0 (set_head_offset 0
       (set_head_segment x (set_tail_segment x d)))) [x] [].
Proof.
  intros Hsgx Hxne. cbn [desc_rep]. cbn. unfold SEG_PAYLOAD_SIZE.
  repeat split; try done; try lia.
  exists (set_next INVALID_INDEX sgx). split; [|done].
  by eapply lookupZ_insertZ_eq.
Qed.

Lemma pool_rep_update st st' c fl :
  pool_rep st c fl ->
  global_data st' = global_data st ->
  is_chain (segments st') (free_list_head (allocator st)) fl INVALID_INDEX ->
  length (segments st') = length (segments st) ->
  Forall (fun sg => length (data sg) = payload_len) (segments st') ->
  pool_rep st' c fl.
Proof.
  intros (Hfl & Hnd & Hnu0 & Hlt & Hinit & Hlen & HF) Hg Hfl' Hlen' HF'.
  unfold pool_rep, allocator in *. rewrite Hg. repeat split; try done.
  by rewrite Hlen'.
Qed.

Lemma pool_rep_disjoint st c fl x :
  pool_rep st c fl -> x ∈ c -> x ∉ fl.
Proof.
  intros (_ & Hnd & _) Hx. apply NoDup_app in Hnd as (_ & Hdis & _). by apply Hdis.
Qed.

Lemma pool_rep_fresh st c fl x :
  pool_rep st (c ++ [x]) fl -> (x ∉ c) /\ (x ∉ fl).
Proof.
  intros Hp. split.
  - destruct Hp as (_ & Hnd & _). apply NoDup_app in Hnd as (Hnd & _ & _).
    apply NoDup_app in Hnd as (_ & Hdis & _). intros Hx. apply (Hdis _ Hx). by left.
  - eapply pool_rep_disjoint; [exact Hp|]. apply elem_of_app. right. by left.
Qed.

Lemma pool_rep_perm st c c' fl :
  c ≡ₚ c' -> pool_rep st c fl -> pool_rep st c' fl.
Proof.
  intros Hperm (Hfl & Hnd & Hnu0 & Hlt & Hinit & Hlen & HF).
  repeat split; try done.
  - by rewrite <- Hperm.
  - intros x Hx. apply Hlt. by rewrite Hperm.
  - intros Hne. apply Hinit. intros ->. by apply Permutation_nil_l in Hperm.
Qed.

Lemma pool_rep_snoc st c o x fl :
  pool_rep st ((c ++ o) ++ [x]) fl -> pool_rep st ((c ++ [x]) ++ o) fl.
Proof.
  apply pool_rep_perm. rewrite <- !app_assoc. apply Permutation_app_head.
  apply Permutation_app_comm.
Qed.

Lemma pool_rep_frame_disjoint st c o fl x :
  pool_rep st (c ++ o) fl -> x ∈ c -> x ∉ o.
Proof.
  intros (_ & Hnd & _) Hx. apply NoDup_app in Hnd as (Hnd & _ & _).
  apply NoDup_app in Hnd as (_ & Hdis & _). by apply Hdis.
Qed.

Lemma pool_rep_restrict st c o fl :
  pool_rep st (c ++ o) fl -> pool_rep st c fl.
Proof.
  intros (Hfl & Hnd & Hnu0 & Hlt & Hinit & Hlen & HF).
  repeat split; try done.
  - rewrite <- app_assoc in Hnd. apply NoDup_app in Hnd as (Hc & Hdis & Hofl).
    apply NoDup_app in Hofl as (_ & _ & Hfl').
    apply NoDup_app. repeat split; try done.
    intros x Hx Hxfl. apply (Hdis x Hx). apply elem_of_app. by right.
  - intros x Hx. apply Hlt. rewrite <- app_assoc.
    apply elem_of_app in Hx as [Hx|Hx]; apply elem_of_app; [by left|right].
    apply elem_of_app. by right.
  - intros Hne. apply Hinit. by destruct c.
Qed.

Lemma kept_refl i o st : kept i o st st.
Proof. by split. Qed.

Lemma kept_trans i o st1 st2 st3 :
  kept i o st1 st2 -> kept i o st2 st3 -> kept i o st1 st3.
Proof.
  intros [Hd1 Hs1] [Hd2 Hs2]. split.
  - intros k Hk. by rewrite Hd2, Hd1.
  - intros y Hy. by rewrite Hs2, Hs1.
Qed.

(** [enqueue_byte] on a well-formed queue whose chain is [c], next to
    other owners holding the segments [o]. *)
Lemma enqueue_byte_framed_wp_count E st i c fl o l b :
  queue_rep st i c l -> pool_rep st (c ++ o) fl ->
  (forall d, lookupZ (descriptors st) i = Some d -> needs_segment d ->
             pool_exhausted st -> E) ->
  wp E (enqueue_byte (desc_ptr i) b)
     (fun _ st' => exists c' fl',
        queue_rep st' i c' (l ++ [b]) /\ pool_rep st' (c' ++ o) fl' /\
        kept i o st st' /\
        unaccounted st' (c' ++ o) fl' = unaccounted st (c ++ o) fl) st.
Proof.
  intros (d & Hd & Hu & Hrep) Hpool HE. unfold enqueue_byte.
  assert (Hi0 : 0 <= i) by (apply lookupZ_lt in Hd; lia).
  apply wp_bind. eapply wp_check_handle; [exact Hd|done|intros _].
  apply wp_bind. eapply wp_load_desc; [exact Hd|].
  apply wp_bind.
  apply (wp_mono _ _ (fun _ s1 => exists d1 c1 fl1,
     lookupZ (descriptors s1) i = Some d1 /\ in_use d1 <> 0 /\ c1 <> [] /\
     desc_rep (segments s1) d1 c1 l /\ pool_rep s1 (c1 ++ o) fl1 /\
     kept i o st s1 /\
     (pool_exhausted s1 -> tail_offset d1 + 1 = SEG_PAYLOAD_SIZE -> E) /\
     unaccounted s1 (c1 ++ o) fl1 = unaccounted st (c ++ o) fl)).
  2: { destruct c as [|h c'].
       - destruct Hrep as (Hh & Ht & ->). rewrite Ht, Z.eqb_refl.
         apply wp_bind. eapply wp_allocate_pool_count;
           [exact Hpool|intros Hex; apply (HE d Hd); [by left|done]|].
         intros x s1 fl1 sgx Hds Hsegs Hsgx Hxne Hp1 Hun1.
         rewrite <- Hsegs in Hsgx. rewrite <- Hds in Hd.
         assert (Hx0 : 0 <= x) by (apply lookupZ_lt in Hsgx; lia).
         destruct (pool_rep_fresh _ _ _ _ Hp1) as [Hxo Hxfl].
         apply wp_bind. eapply wp_load_seg; [exact Hsgx|].
         apply wp_bind. eapply wp_store_seg; [exact Hsgx|].
         apply wp_bind. eapply wp_load_desc; [exact Hd|].
         eapply wp_store_desc; [exact Hd|].
         eexists _, [x], fl1.
         cbn [descriptors segments global_data set_descriptors set_segments].
         split; [eapply lookupZ_insertZ_eq; exact Hd|].
         split; [done|]. split; [done|]. split; [by apply enqueue_first_rep|].
         split.
         + pose proof Hp1 as (Hfl1 & _ & _ & _ & _ & Hlen1 & HF1).
           apply (pool_rep_update s1 _ _ _ (pool_rep_snoc s1 [] o x fl1 Hp1)); [done| | |].
           * cbn [segments]. by apply is_chain_insert_other.
           * cbn [segments]. apply length_insertZ.
           * cbn [segments]. apply Forall_insertZ; [done|].
             exact (Forall_lookupZ _ _ _ _ HF1 Hsgx).
         + split; [split|].
           * intros k Hk. cbn [descriptors set_descriptors set_segments].
             rewrite lookupZ_insertZ_ne by done. by rewrite Hds.
           * intros y Hy. cbn [segments set_descriptors set_segments].
             rewrite lookupZ_insertZ_ne; [by rewrite Hsegs|done|].
             intros ->. apply Hxo. apply elem_of_app. by right.
           * split; [intros _; cbn; unfold SEG_PAYLOAD_SIZE; lia|].
             rewrite <- Hun1. apply unaccounted_eq; [reflexivity|].
             rewrite !length_app. cbn [length]. lia.
       - pose proof Hrep as (Hch & Hlast & _).
         destruct (is_chain_elem _ _ _ _ (tail_segment d) Hch) as [Htne _].
         { by eapply last_Some_elem_of. }
         destruct (Z.eqb_spec (tail_segment d) INVALID_INDEX); [done|].
         apply wp_ret. exists d, (h :: c'), fl.
         split; [done|]. split; [done|]. split; [done|]. split; [done|].
         split; [done|]. split; [apply kept_refl|]. split; [|done].
         intros Hex Hfull. apply (HE d Hd); [by right|done]. }
  intros [] s1 (d1 & c1 & fl1 & Hd1 & Hu1 & Hne1 & Hrep1 & Hp1 & Hk1 & HE1 & Hun1).
  destruct (desc_rep_split _ _ _ _ Hne1 Hrep1)
    as (c0 & Hc0 & Hni & Ht0 & Htne & Hch & Hho & Hto & Hone & Hl).
  assert (Htc1 : tail_segment d1 ∈ c1).
  { rewrite Hc0. apply elem_of_app. right. by left. }
  destruct (is_chain_elem _ _ _ _ (tail_segment d1) Hch Htc1) as (_ & sgt & Hsgt).
  pose proof Hp1 as (Hfl & Hnd & Hnu0 & Hlt & Hinit & Hlen & HF).
  destruct (safe_payload sgt (tail_offset d1)) as [b0 Hb0];
    [exact (Forall_lookupZ _ _ _ _ HF Hsgt)|done|].
  assert (Htfl : tail_segment d1 ∉ fl1).
  { eapply pool_rep_disjoint; [exact Hp1|]. apply elem_of_app. by left. }
  pose proof (pool_rep_frame_disjoint _ _ _ _ _ Hp1 Htc1) as Hto'.
  apply wp_bind. eapply wp_load_desc; [exact Hd1|].
  apply wp_bind. eapply wp_store_payload; [exact Hsgt|exact Hb0|].
  apply wp_bind. eapply wp_store_desc; [exact Hd1|].
  apply wp_bind. eapply wp_load_desc; [eapply lookupZ_insertZ_eq; exact Hd1|].
  rewrite (wrap8_succ _ Hto). cbn [tail_offset set_tail_offset].
  pose proof (enqueue_write_filling _ _ _ _ b _ HF Hne1 Hrep1 Hsgt) as Hfill.
  set (sgt2 := set_data (insertZ (tail_offset d1) b (data sgt)) sgt) in *.
  set (segs2 := insertZ (tail_segment d1) sgt2 (segments s1)) in *.
  set (d2 := set_tail_offset (tail_offset d1 + 1) d1) in *.
  set (s2 := set_descriptors _ (set_segments segs2 s1)).
  assert (Hd2 : lookupZ (descriptors s2) i = Some d2).
  { eapply lookupZ_insertZ_eq; exact Hd1. }
  assert (HF2 : Forall (fun sg => length (data sg) = payload_len) segs2).
  { apply Forall_insertZ; [done|]. cbn [data sgt2 set_data]. rewrite length_insertZ.
    exact (Forall_lookupZ _ _ _ _ HF Hsgt). }
  assert (Hp2 : pool_rep s2 (c1 ++ o) fl1).
  { apply (pool_rep_update s1); try done.
    - by apply is_chain_insert_other.
    - apply length_insertZ. }
  assert (Hsgt2 : lookupZ segs2 (tail_segment d1) = Some sgt2).
  { eapply lookupZ_insertZ_eq; exact Hsgt. }
  assert (Hk2 : kept i o st s2).
  { apply (kept_trans _ _ _ s1); [done|]. split.
    - intros k Hk. cbn [descriptors s2 set_descriptors set_segments].
      by rewrite lookupZ_insertZ_ne.
    - intros y Hy. cbn [segments s2 set_descriptors set_segments]. unfold segs2.
      rewrite lookupZ_insertZ_ne; [done|done|]. intros <-. done. }
  destruct (Z.eqb_spec (tail_offset d1 + 1) SEG_PAYLOAD_SIZE) as [Ef|Ef].
  - apply wp_bind. eapply wp_allocate_pool_count;
      [exact Hp2|intros Hex; by apply HE1|].
    intros x s3 fl3 sgx Hds3 Hsegs3 Hsgx Hxne Hp3 Hun3.
    destruct (pool_rep_fresh _ _ _ _ Hp3) as [Hxc1o Hxfl3].
    assert (Hxc1 : x ∉ c1). { intros Hx. apply Hxc1o, elem_of_app. by left. }
    assert (Hxo : x ∉ o). { intros Hx. apply Hxc1o, elem_of_app. by right. }
    assert (Hxt : x <> tail_segment d1). { intros ->. done. }
    assert (Hx0 : 0 <= x) by (apply lookupZ_lt in Hsgx; lia).
    rewrite <- Hsegs3 in Hsgx. rewrite <- Hds3 in Hd2.
    apply wp_bind. eapply wp_load_seg; [exact Hsgx|].
    apply wp_bind. eapply wp_store_seg; [exact Hsgx|].
    apply wp_bind. eapply wp_load_seg.
    { cbn [segments set_segments]. rewrite lookupZ_insertZ_ne by done.
      rewrite Hsegs3. exact Hsgt2. }
    apply wp_bind. eapply wp_store_seg.
    { cbn [segments set_segments]. rewrite lookupZ_insertZ_ne by done.
      rewrite Hsegs3. exact Hsgt2. }
    apply wp_bind. eapply wp_load_desc; [exact Hd2|].
    eapply wp_store_desc; [exact Hd2|].
    exists (c1 ++ [x]), fl3. split; [|split; [|split]]; cycle 3.
    { rewrite <- Hun1.
      transitivity (unaccounted s2 (c1 ++ o) fl1);
        [|apply unaccounted_eq; reflexivity].
      rewrite <- Hun3. apply unaccounted_eq; [reflexivity|].
      rewrite !length_app. cbn [length]. lia. }
    + eexists. split; [eapply lookupZ_insertZ_eq; exact Hd2|]. split; [done|].
      cbn [descriptors segments global_data set_descriptors set_segments].
      rewrite Hsegs3. cbn [segments s2 set_descriptors set_segments].
      rewrite Hsegs3 in Hsgx.
      apply (enqueue_extend_rep segs2 d2 c1 (l ++ [b]) x sgx sgt2); done.
    + pose proof Hp3 as (Hfl3 & _ & _ & _ & _ & Hlen3 & HF3).
      assert (Httl3 : tail_segment d1 ∉ fl3).
      { eapply pool_rep_disjoint; [exact Hp3|]. apply elem_of_app. left.
        apply elem_of_app. by left. }
      apply (pool_rep_update s3 _ _ _ (pool_rep_snoc s3 c1 o x fl3 Hp3)); [done| | |].
      * cbn [segments set_descriptors set_segments].
        apply is_chain_insert_other; [done|done|].
        by apply is_chain_insert_other.
      * cbn [segments set_descriptors set_segments]. by rewrite !length_insertZ.
      * cbn [segments set_descriptors set_segments].
        apply Forall_insertZ; [apply Forall_insertZ; [done|]|]; cbn [data set_next].
        -- exact (Forall_lookupZ _ _ _ _ HF3 Hsgx).
        -- rewrite Hsegs3 in HF3. exact (Forall_lookupZ _ _ _ _ HF3 Hsgt2).
    + apply (kept_trans _ _ _ s2); [done|]. split.
      * intros k Hk. cbn [descriptors set_descriptors set_segments].
        rewrite lookupZ_insertZ_ne by done. by rewrite Hds3.
      * intros y Hy. cbn [segments set_descriptors set_segments].
        rewrite lookupZ_insertZ_ne; [|done|by intros <-].
        rewrite lookupZ_insertZ_ne; [by rewrite Hsegs3|done|by intros <-].
  - apply wp_ret. exists c1, fl1.
    split; [|split; [done|split; [done|]]]; cycle 1.
    { rewrite <- Hun1. apply unaccounted_eq; reflexivity. }
    exists d2. split; [exact Hd2|]. split; [done|].
    destruct Hfill as (_ & Hch2 & Hlast2 & Hho2 & Hto2 & Hone2 & Hl2).
    destruct c1 as [|h c1']; [done|]. cbn [desc_rep].
    split; [exact Hch2|]. split; [exact Hlast2|]. split; [exact Hho2|].
    split; [|split; [exact Hone2|exact Hl2]].
    cbn [tail_offset d2 set_tail_offset] in *. lia.
Qed.

Lemma enqueue_byte_framed_wp_gen E st i c fl o l b :
  queue_rep st i c l -> pool_rep st (c ++ o) fl ->
  (forall d, lookupZ (descriptors st) i = Some d -> needs_segment d ->
             pool_exhausted st -> E) ->
  wp E (enqueue_byte (desc_ptr i) b)
     (fun _ st' => exists c' fl',
        queue_rep st' i c' (l ++ [b]) /\ pool_rep st' (c' ++ o) fl' /\
        kept i o st st') st.
Proof.
  intros Hrep Hpool HE.
  eapply wp_mono; [|exact (enqueue_byte_framed_wp_count E st i c fl o l b Hrep Hpool HE)].
  intros [] st' (c' & fl' & ? & ? & ? & _). by exists c', fl'.
Qed.

Lemma enqueue_byte_framed_wp st i c fl o l b :
  queue_rep st i c l -> pool_rep st (c ++ o) fl ->
  wp True (enqueue_byte (desc_ptr i) b)
     (fun _ st' => exists c' fl',
        queue_rep st' i c' (l ++ [b]) /\ pool_rep st' (c' ++ o) fl' /\
        kept i o st st') st.
Proof.
  intros Hrep Hpool. by apply (enqueue_byte_framed_wp_gen True st i c fl o l b).
Qed.

Lemma enqueue_byte_holds_wp st i l b :
  queue_holds st i l ->
  wp True (enqueue_byte (desc_ptr i) b)
     (fun _ st' => queue_holds st' i (l ++ [b])) st.
Proof.
  intros (c & fl & Hrep & Hpool).
  eapply wp_mono; [|apply (enqueue_byte_framed_wp st i c fl [] l b Hrep)].
  - intros [] st' (c' & fl' & Hrep' & Hpool' & _). exists c', fl'.
    rewrite app_nil_r in Hpool'. done.
  - by rewrite app_nil_r.
Qed.

(** ** dequeue_byte on a well-formed queue *)

Lemma dequeue_head_facts segs d c b l :
  Forall (fun sg => length (data sg) = payload_len) segs ->
  desc_rep segs d c (b :: l) ->
  exists c' sgh,
    c = head_segment d :: c' /\
    head_segment d <> INVALID_INDEX /\
    lookupZ segs (head_segment d) = Some sgh /\
    lookupZ (data sgh) (head_offset d) = Some b /\
    is_chain segs (next sgh) c' INVALID_INDEX /\
    (head_segment d ∉ c') /\
    last c = Some (tail_segment d) /\
    0 <= head_offset d < SEG_PAYLOAD_SIZE /\
    0 <= tail_offset d < SEG_PAYLOAD_SIZE /\
    (Z.to_nat (head_offset d) < payload_len * length c' + Z.to_nat (tail_offset d))%nat /\
    l = drop (S (Z.to_nat (head_offset d)))
          (take (payload_len * length c' + Z.to_nat (tail_offset d))
             (data sgh ++ chain_payload segs c')).
Proof.
  intros HF Hrep. destruct c as [|h c']; [by destruct Hrep as (_ & _ & ?)|].
  cbn [desc_rep] in Hrep. destruct Hrep as (Hch & Hlast & Hho & Hto & Hone & Hl).
  pose proof (is_chain_NoDup _ _ _ Hch) as [Hni _]%NoDup_cons.
  destruct Hch as (Hh & Hne & sgh & Hsgh & Hch'). subst h.
  unfold queue_bytes in Hl. rewrite chain_payload_cons in Hl.
  cbn [length] in Hl. replace (S (length c') - 1)%nat with (length c') in Hl by lia.
  unfold seg_data in Hl. rewrite Hsgh in Hl.
  assert (HD : length (data sgh) = payload_len) by exact (Forall_lookupZ _ _ _ _ HF Hsgh).
  set (N := (payload_len * length c' + Z.to_nat (tail_offset d))%nat) in *.
  set (P := data sgh ++ chain_payload segs c') in *.
  assert (Hlk : take N P !! Z.to_nat (head_offset d) = Some b).
  { pose proof (lookup_drop (take N P) (Z.to_nat (head_offset d)) 0) as Hld.
    rewrite <- Hl in Hld. rewrite Nat.add_0_r in Hld. by rewrite <- Hld. }
  apply lookup_take_Some in Hlk as [HP HN].
  exists c', sgh. repeat split; try done; try lia.
  - apply lookupZ_Some. split; [lia|]. unfold P in HP.
    rewrite lookup_app_l in HP; [done|]. rewrite HD, payload_len_val.
    unfold SEG_PAYLOAD_SIZE in Hho. lia.
  - symmetry in Hl. apply (f_equal (drop 1)) in Hl.
    rewrite drop_drop in Hl. cbn [drop] in Hl. rewrite drop_0 in Hl.
    rewrite <- Hl. fold P. fold N. f_equal. lia.
Qed.

Lemma dequeue_last_rep segs d c b l :
  Forall (fun sg => length (data sg) = payload_len) segs ->
  desc_rep segs d c (b :: l) ->
  head_segment d = tail_segment d ->
  head_offset d + 1 = tail_offset d ->
  c = [head_segment d] /\ l = [].
Proof.
  intros HF Hrep Eht Eo.
  destruct (dequeue_head_facts _ _ _ _ _ HF Hrep)
    as (c' & sgh & -> & Hne & Hsgh & Hb & Hch' & Hni & Hlast & Hho & Hto & HN & ->).
  destruct c' as [|h2 c''].
  - split; [done|]. apply drop_ge. rewrite length_take. cbn [length]. lia.
  - exfalso. rewrite last_cons_cons in Hlast. apply last_Some_elem_of in Hlast.
    rewrite <- Eht in Hlast. done.
Qed.

Lemma dequeue_advance_rep segs d c b l sgh sg' :
  Forall (fun sg => length (data sg) = payload_len) segs ->
  desc_rep segs d c (b :: l) ->
  lookupZ segs (head_segment d) = Some sgh ->
  head_offset d + 1 = SEG_PAYLOAD_SIZE ->
  exists c', c = head_segment d :: c' /\
    desc_rep (insertZ (head_segment d) sg' segs)
      (set_head_offset 0 (set_head_segment (next sgh) d)) c' l.
Proof.
  intros HF Hrep Hsgh Ef.
  destruct (dequeue_head_facts _ _ _ _ _ HF Hrep)
    as (c' & sgh' & -> & Hne & Hsgh' & Hb & Hch' & Hni & Hlast & Hho & Hto & HN & ->).
  rewrite Hsgh in Hsgh'. injection Hsgh' as <-.
  assert (HD : length (data sgh) = payload_len) by exact (Forall_lookupZ _ _ _ _ HF Hsgh).
  assert (Hh0 : 0 <= head_segment d) by (apply lookupZ_lt in Hsgh; lia).
  exists c'. split; [done|].
  unfold SEG_PAYLOAD_SIZE in *. rewrite payload_len_val in *.
  destruct c' as [|h2 c'']; [cbn [length] in HN; lia|].
  rewrite last_cons_cons in Hlast.
  cbn [desc_rep head_segment tail_segment head_offset tail_offset
       set_head_offset set_head_segment].
  unfold SEG_PAYLOAD_SIZE.
  split; [by apply is_chain_insert_other|]. split; [done|].
  split; [lia|]. split; [done|]. split; [lia|].
  unfold queue_bytes.
  cbn [head_segment tail_segment head_offset tail_offset
       set_head_offset set_head_segment].
  change (Z.to_nat 0) with 0%nat. rewrite drop_0.
  rewrite (chain_payload_ext segs (insertZ (head_segment d) sg' segs) (h2 :: c'')).
  2: { intros z Hz. apply seg_data_insert_other; [done|]. intros Heq. apply Hni.
       by rewrite Heq. }
  rewrite take_app, (take_ge (data sgh)) by lia.
  rewrite drop_app_length' by lia.
  f_equal. rewrite HD, payload_len_val. cbn [length]. lia.
Qed.

Lemma dequeue_step_rep segs d c b l :
  Forall (fun sg => length (data sg) = payload_len) segs ->
  desc_rep segs d c (b :: l) ->
  ~ (head_segment d = tail_segment d /\ head_offset d + 1 = tail_offset d) ->
  head_offset d + 1 <> SEG_PAYLOAD_SIZE ->
  desc_rep segs (set_head_offset (head_offset d + 1) d) c l.
Proof.
  intros HF Hrep Hnot Ef.
  destruct (dequeue_head_facts _ _ _ _ _ HF Hrep)
    as (c' & sgh & Hc & Hne & Hsgh & Hb & Hch' & Hni & Hlast & Hho & Hto & HN & Hl).
  destruct c as [|h c0]; [done|]. injection Hc as -> ->.
  cbn [desc_rep] in *. destruct Hrep as (Hch & _ & _ & _ & Hone & _).
  cbn [head_segment tail_segment head_offset tail_offset set_head_offset].
  split; [done|]. split; [done|]. split; [lia|]. split; [done|]. split.
  - intros Hlen1. assert (c' = []) as -> by (destruct c'; [done|simpl in Hlen1; lia]).
    cbn in Hlast. injection Hlast as Hlast. cbn [length] in HN. lia.
  - rewrite Hl. unfold queue_bytes.
    cbn [head_segment tail_segment head_offset tail_offset set_head_offset].
    rewrite chain_payload_cons. unfold seg_data at 1. rewrite Hsgh.
    cbn [length]. replace (S (length c') - 1)%nat with (length c') by lia.
    f_equal. lia.
Qed.

Lemma pool_rep_free st c fl h sgh ds :
  pool_rep st (h :: c) fl ->
  lookupZ (segments st) h = Some sgh ->
  pool_rep {| descriptors := ds;
              global_data := set_free_list_head h (global_data st);
              segments := insertZ h (set_next (free_list_head (global_data st)) sgh)
                            (segments st) |} c (h :: fl).
Proof.
  intros (Hfl & Hnd & Hnu0 & Hlt & Hinit & Hlen & HF) Hsgh.
  assert (Hi : initialized (global_data st) <> 0) by (by apply Hinit).
  rewrite (allocator_id _ Hi) in *.
  assert (Hh0 : 0 <= h) by (apply lookupZ_lt in Hsgh; lia).
  assert (Hhfl : h ∉ fl).
  { apply NoDup_app in Hnd as (_ & Hdis & _). apply Hdis. by left. }
  assert (Hhne : h <> INVALID_INDEX).
  { intros ->. apply lookupZ_lt in Hsgh. rewrite Hlen, segment_count_val in Hsgh.
    unfold INVALID_INDEX, UINT16_MAX in Hsgh. lia. }
  unfold pool_rep. rewrite allocator_id by done.
  cbn [global_data segments free_list_head next_unused initialized set_free_list_head].
  split.
  { split; [done|]. split; [done|]. eexists. split; [by eapply lookupZ_insertZ_eq|].
    cbn [next set_next]. by apply is_chain_insert_other. }
  split.
  { eapply NoDup_Permutation_proper; [|exact Hnd].
    cbn [app]. symmetry. apply Permutation_middle. }
  split; [done|]. split.
  { intros x Hx. apply Hlt. cbn [app].
    apply elem_of_app in Hx as [Hx|[->|Hx]%elem_of_cons].
    - right. apply elem_of_app. by left.
    - by left.
    - right. apply elem_of_app. by right. }
  split; [done|]. split; [by rewrite length_insertZ|].
  apply Forall_insertZ; [done|]. cbn [data set_next].
  exact (Forall_lookupZ _ _ _ _ HF Hsgh).
Qed.

(** [dequeue_byte] on a well-formed queue that holds at least one byte,
    next to other owners holding the segments [o]. *)
Lemma dequeue_byte_framed_wp_count st i c fl o b l :
  queue_rep st i c (b :: l) -> pool_rep st (c ++ o) fl ->
  wp False (dequeue_byte (desc_ptr i))
     (fun v st' => v = b /\ exists c' fl',
        queue_rep st' i c' l /\ pool_rep st' (c' ++ o) fl' /\
        kept i o st st' /\
        unaccounted st' (c' ++ o) fl' = unaccounted st (c ++ o) fl) st.
Proof.
  intros (d & Hd & Hu & Hrep) Hpool.
  assert (Hi0 : 0 <= i) by (apply lookupZ_lt in Hd; lia).
  pose proof Hpool as (Hfl & Hnd & Hnu0 & Hlt & Hinit & Hlen & HF).
  destruct (dequeue_head_facts _ _ _ _ _ HF Hrep)
    as (c' & sgh & Hc & Hne & Hsgh & Hb & Hch' & Hni & Hlast & Hho & Hto & HN & Hl).
  assert (Hh0 : 0 <= head_segment d) by (apply lookupZ_lt in Hsgh; lia).
  assert (Hho' : head_segment d ∉ o).
  { eapply pool_rep_frame_disjoint; [exact Hpool|]. rewrite Hc. by left. }
  assert (Hkd : forall ds' sg',
    (forall k, k <> i -> lookupZ ds' k = lookupZ (descriptors st) k) ->
    kept i o st {| descriptors := ds'; global_data := set_free_list_head
                     (head_segment d) (global_data st);
                   segments := insertZ (head_segment d) sg' (segments st) |}).
  { intros ds' sg' Hds'. split; [exact Hds'|]. intros y Hy. cbn [segments].
    rewrite lookupZ_insertZ_ne; [done|done|]. by intros <-. }
  unfold dequeue_byte.
  apply wp_bind. eapply wp_check_handle; [exact Hd|done|intros _].
  apply wp_bind. eapply wp_load_desc; [exact Hd|].
  apply wp_bind. destruct (Z.eqb_spec (head_segment d) INVALID_INDEX); [done|].
  apply wp_ret.
  apply wp_bind. eapply wp_load_payload; [exact Hsgh|exact Hb|].
  apply wp_bind. eapply wp_store_desc; [exact Hd|].
  apply wp_bind. eapply wp_load_desc; [eapply lookupZ_insertZ_eq; exact Hd|].
  rewrite (wrap8_succ _ Hho).
  cbn [head_segment tail_segment head_offset tail_offset set_head_offset].
  destruct ((head_segment d =? tail_segment d) && (head_offset d + 1 =? tail_offset d))
    eqn:Ecase.
  - apply andb_true_iff in Ecase as [Eht%Z.eqb_eq Eo%Z.eqb_eq].
    destruct (dequeue_last_rep _ _ _ _ _ HF Hrep Eht Eo) as [Hc1 Hl1].
    apply wp_bind. eapply wp_free_segment; [exact Hsgh|].
    apply wp_bind. eapply wp_load_desc; [eapply lookupZ_insertZ_eq; exact Hd|].
    apply wp_bind. eapply wp_store_desc; [eapply lookupZ_insertZ_eq; exact Hd|].
    apply wp_ret. split; [done|].
    exists [], (head_segment d :: fl). split; [|split; [|split]]; cycle 3.
    { rewrite Hc1. apply unaccounted_eq; [apply next_unused_lazy_init; reflexivity|].
      rewrite !length_app. cbn [length]. lia. }
    + eexists. split; [eapply lookupZ_insertZ_eq; eapply lookupZ_insertZ_eq; exact Hd|].
      split; [done|]. by cbn.
    + rewrite Hc1 in Hpool. by apply pool_rep_free.
    + apply Hkd. intros k Hk. cbn [descriptors set_descriptors].
      by rewrite !lookupZ_insertZ_ne.
  - assert (Hnot : ~ (head_segment d = tail_segment d /\
                      head_offset d + 1 = tail_offset d)).
    { intros [E1 E2]. apply Z.eqb_eq in E1, E2. by rewrite E1, E2 in Ecase. }
    apply wp_bind.
    apply (wp_mono _ _ (fun _ st' => exists c' fl',
        queue_rep st' i c' l /\ pool_rep st' (c' ++ o) fl' /\ kept i o st st' /\
        unaccounted st' (c' ++ o) fl' = unaccounted st (c ++ o) fl));
      [intros; by apply wp_ret|].
    destruct (Z.eqb_spec (head_offset d + 1) SEG_PAYLOAD_SIZE) as [Ef|Ef].
    + apply wp_bind. eapply wp_load_seg; [exact Hsgh|].
      apply wp_bind. eapply wp_store_desc; [eapply lookupZ_insertZ_eq; exact Hd|].
      eapply wp_free_segment; [exact Hsgh|].
      destruct (dequeue_advance_rep _ _ _ _ _ _
                  (set_next (free_list_head (global_data st)) sgh) HF Hrep Hsgh Ef)
        as (c1 & Hc1 & Hrep1).
      exists c1, (head_segment d :: fl). split; [|split; [|split]]; cycle 3.
      { rewrite Hc1. apply unaccounted_eq; [apply next_unused_lazy_init; reflexivity|].
        rewrite !length_app. cbn [length]. lia. }
      * eexists. split; [eapply lookupZ_insertZ_eq; eapply lookupZ_insertZ_eq; exact Hd|].
        split; [done|]. exact Hrep1.
      * rewrite Hc1 in Hpool. by apply pool_rep_free.
      * apply Hkd. intros k Hk. cbn [descriptors set_descriptors].
        by rewrite !lookupZ_insertZ_ne.
    + apply wp_ret. exists c, fl. split; [|split; [|split]]; cycle 3.
      { apply unaccounted_eq; reflexivity. }
      * eexists. split; [eapply lookupZ_insertZ_eq; exact Hd|]. split; [done|].
        by apply (dequeue_step_rep _ _ _ b).
      * by apply (pool_rep_update st).
      * split; [|done]. intros k Hk. cbn [descriptors set_descriptors].
        by rewrite lookupZ_insertZ_ne.
Qed.

Lemma dequeue_byte_framed_wp st i c fl o b l :
  queue_rep st i c (b :: l) -> pool_rep st (c ++ o) fl ->
  wp False (dequeue_byte (desc_ptr i))
     (fun v st' => v = b /\ exists c' fl',
        queue_rep st' i c' l /\ pool_rep st' (c' ++ o) fl' /\
        kept i o st st') st.
Proof.
  intros Hrep Hpool.
  eapply wp_mono; [|exact (dequeue_byte_framed_wp_count st i c fl o b l Hrep Hpool)].
  intros v st' (-> & c' & fl' & ? & ? & ? & _). split; [done|]. by exists c', fl'.
Qed.

Lemma dequeue_byte_holds_wp st i b l :
  queue_holds st i (b :: l) ->
  wp False (dequeue_byte (desc_ptr i))
     (fun v st' => v = b /\ queue_holds st' i l) st.
Proof.
  intros (c & fl & Hrep & Hpool).
  eapply wp_mono; [|apply (dequeue_byte_framed_wp st i c fl [] b l Hrep)].
  - intros v st' (-> & c' & fl' & Hrep' & Hpool' & _). split; [done|].
    exists c', fl'. rewrite app_nil_r in Hpool'. done.
  - by rewrite app_nil_r.
Qed.

(** ** First in, first out *)

Lemma enqueue_bytes_holds st i l bs st' :
  queue_holds st i l ->
  enqueue_bytes (desc_ptr i) bs st = Ret tt st' ->
  queue_holds st' i (l ++ bs).
Proof.
  revert st l. induction bs as [|b bs IH]; intros st l Hq; simpl.
  - intros [= <-]. by rewrite app_nil_r.
  - intros ([] & s1 & H1 & H2)%bind_Ret_inv.
    replace (l ++ b :: bs) with ((l ++ [b]) ++ bs) by (by rewrite <- app_assoc).
    apply (IH s1); [|done].
    exact (wp_Ret_inv True _ _ _ _ _ (enqueue_byte_holds_wp st i l b Hq) H1).
Qed.

Lemma dequeue_bytes_holds st i bs l :
  queue_holds st i (bs ++ l) ->
  exists st', dequeue_bytes (desc_ptr i) (length bs) st = Ret bs st' /\
              queue_holds st' i l.
Proof.
  revert st. induction bs as [|b bs IH]; intros st Hq; simpl.
  - by exists st.
  - destruct (wp_total _ _ _ (dequeue_byte_holds_wp st i b (bs ++ l) Hq))
      as (v & s1 & H1 & -> & Hq1).
    destruct (IH s1 Hq1) as (st' & H2 & Hq2).
    exists st'. split; [|done].
    rewrite (bind_Ret _ _ _ _ _ H1), (bind_Ret _ _ _ _ _ H2). reflexivity.
Qed.

(** Bytes leave in the order they entered, whatever the queue held. *)
Lemma fifo_general st i l bs st1 :
  queue_holds st i l ->
  enqueue_bytes (desc_ptr i) bs st = Ret tt st1 ->
  exists st2,
    dequeue_bytes (desc_ptr i) (length (l ++ bs)) st1 = Ret (l ++ bs) st2 /\
    queue_holds st2 i [].
Proof.
  intros Hq He. apply dequeue_bytes_holds. rewrite app_nil_r.
  exact (enqueue_bytes_holds st i l bs st1 Hq He).
Qed.

(** C1: on a well-formed queue that holds no bytes, if the bytes [bs] are
    enqueued in order and every [enqueue_byte] returns (no fatal fault),
    then [length bs] successive [dequeue_byte] calls all return, yielding
    exactly [bs] in order, and the queue again holds no bytes. *)
Theorem fifo_order st i bs st1 :
  queue_holds st i [] ->
  enqueue_bytes (desc_ptr i) bs st = Ret tt st1 ->
  exists st2,
    dequeue_bytes (desc_ptr i) (length bs) st1 = Ret bs st2 /\
    queue_holds st2 i [].
Proof.
  intros Hq He. apply dequeue_bytes_holds. rewrite app_nil_r.
  exact (enqueue_bytes_holds st i [] bs st1 Hq He).
Qed.

Lemma fifo_order_witness :
  exists st2,
    dequeue_bytes (desc_ptr 0) (length fifteen) fifteen_queued = Ret fifteen st2 /\
    queue_holds st2 0 [].
Proof.
  apply (fifo_order fresh_queue 0 fifteen fifteen_queued).
  - exists [], []. split.
    + eexists. split; [vm_compute; reflexivity|]. split; [vm_compute; discriminate|].
      simpl. concrete.
    + split; [vm_compute; reflexivity|]. split; [constructor|].
      split; [vm_compute; discriminate|]. split; [intros x []%elem_of_nil|].
      split; [done|]. split; [reflexivity|]. vm_compute. repeat constructor.
  - vm_compute. reflexivity.
Defined.

(** ** The guard of dequeue_byte and a fresh queue *)

Lemma dequeue_byte_sentinel_exits st i d :
  lookupZ (descriptors st) i = Some d ->
  in_use d <> 0 ->
  head_segment d = INVALID_INDEX ->
  dequeue_byte (desc_ptr i) st = illegal_operation_exit.
Proof.
  intros Hd Hu Hh. unfold dequeue_byte, check_handle.
  rewrite (bind_Ret _ _ _ tt st).
  2: { rewrite (bind_Ret _ _ _ _ _ (load_desc_eq _ _ _ Hd)).
       by destruct (Z.eqb_spec (in_use d) 0). }
  rewrite (bind_Ret _ _ _ _ _ (load_desc_eq _ _ _ Hd)).
  rewrite Hh, Z.eqb_refl. reflexivity.
Qed.

Lemma create_queue_scan_Ret n k st q st' :
  create_queue_scan n k st = Ret q st' ->
  exists i d, q = desc_ptr i /\ lookupZ (descriptors st) i = Some d /\
              in_use d = 0 /\
              st' = set_descriptors (insertZ i (claimed d) (descriptors st)) st.
Proof.
  revert k. induction n as [|n IH]; intros k; simpl; [discriminate|].
  unfold bind at 1. unfold load_desc.
  destruct (lookupZ (descriptors st) k) as [d|] eqn:Hd; [|discriminate].
  destruct (Z.eqb_spec (in_use d) 0) as [Hu|_]; [|apply IH].
  unfold bind, store_desc. rewrite Hd. unfold ret. intros [= <- <-].
  exists k, d. done.
Qed.

(** A queue just handed out by [create_queue] is well formed and holds
    no bytes, whatever the other queues are, as long as the free list is. *)
Lemma create_queue_holds_nothing st q st' fl :
  pool_rep st [] fl ->
  create_queue st = Ret q st' ->
  exists i, q = desc_ptr i /\ queue_holds st' i [].
Proof.
  intros Hp (i & d & -> & Hd & _ & ->)%create_queue_scan_Ret.
  exists i. split; [done|]. exists [], fl. split.
  - eexists. split; [by eapply lookupZ_insertZ_eq|]. by cbn.
  - destruct Hp as (? & ? & ? & ? & ? & ? & ?). by apply (pool_rep_update st).
Qed.

(** ** All queues together *)

Lemma queue_rep_kept st st' i o k c l :
  kept i o st st' -> k <> i -> (forall x, x ∈ c -> x ∈ o) ->
  queue_rep st k c l -> queue_rep st' k c l.
Proof.
  intros [Hkd Hks] Hk Hsub (d & Hd & Hu & Hrep).
  exists d. split; [by rewrite Hkd|]. split; [done|].
  assert (Hext : forall x, x ∈ c -> lookupZ (segments st') x = lookupZ (segments st) x).
  { intros x Hx. apply Hks. by apply Hsub. }
  destruct c as [|h c']; [done|]. cbn [desc_rep] in *.
  destruct Hrep as (Hch & Hlast & Hho & Hto & Hone & ->).
  split; [|split; [done|split; [done|split; [done|split; [done|]]]]].
  - eapply is_chain_ext; [|exact Hch]. intros x Hx. by rewrite Hext.
  - unfold queue_bytes. f_equal. f_equal. symmetry. apply chain_payload_ext.
    intros x Hx. unfold seg_data. by rewrite Hext.
Qed.

Lemma chains_app qs1 qs2 : chains (qs1 ++ qs2) = chains qs1 ++ chains qs2.
Proof. unfold chains. by rewrite map_app, concat_app. Qed.

Lemma chains_cons q qs : chains (q :: qs) = lq_chain q ++ chains qs.
Proof. reflexivity. Qed.

Lemma chains_middle qs1 q qs2 :
  chains (qs1 ++ q :: qs2) ≡ₚ lq_chain q ++ chains (qs1 ++ qs2).
Proof.
  rewrite !chains_app, chains_cons, !app_assoc.
  apply Permutation_app_tail, Permutation_app_comm.
Qed.

Lemma chains_elem q qs x : q ∈ qs -> x ∈ lq_chain q -> x ∈ chains qs.
Proof.
  intros (qs1 & qs2 & ->)%list_elem_of_split Hx.
  rewrite chains_app, chains_cons. apply elem_of_app. right. apply elem_of_app. by left.
Qed.

(** After an operation on the queue in the middle of the list that kept
    everything else, the table is again well formed. *)
Lemma system_rep_update st st' qs1 q qs2 c' l' fl' :
  NoDup (slots (qs1 ++ q :: qs2)) ->
  (forall i d, lookupZ (descriptors st) i = Some d -> in_use d <> 0 ->
               i ∈ slots (qs1 ++ q :: qs2)) ->
  Forall (fun q => queue_rep st (lq_slot q) (lq_chain q) (lq_bytes q)) (qs1 ++ qs2) ->
  kept (lq_slot q) (chains (qs1 ++ qs2)) st st' ->
  queue_rep st' (lq_slot q) c' l' ->
  pool_rep st' (c' ++ chains (qs1 ++ qs2)) fl' ->
  system_rep st' (qs1 ++ {| lq_slot := lq_slot q; lq_chain := c'; lq_bytes := l' |} :: qs2) fl'.
Proof.
  intros Hnd Hall HF Hk Hrep Hpool.
  assert (Hslots : slots (qs1 ++ {| lq_slot := lq_slot q; lq_chain := c';
                                    lq_bytes := l' |} :: qs2) =
                   slots (qs1 ++ q :: qs2)).
  { unfold slots. by rewrite !map_app. }
  split; [by rewrite Hslots|]. split; [|split].
  - intros i d Hd Hu. rewrite Hslots.
    destruct (Z.eq_dec i (lq_slot q)) as [->|Hne].
    + unfold slots. rewrite map_app. apply elem_of_app. right. by left.
    + destruct Hk as [Hkd _]. rewrite (Hkd i Hne) in Hd. by eapply Hall.
  - assert (HF' : Forall (fun q0 => queue_rep st' (lq_slot q0) (lq_chain q0) (lq_bytes q0))
                    (qs1 ++ qs2)).
    { apply Forall_forall. intros r Hr. rewrite Forall_forall in HF.
      apply (queue_rep_kept st st' (lq_slot q) (chains (qs1 ++ qs2))); [done| | |by apply HF].
      - unfold slots in Hnd. rewrite map_app in Hnd. cbn [map] in Hnd.
        apply NoDup_app in Hnd as (Hn1 & Hdis & Hn2).
        apply NoDup_cons in Hn2 as [Hq2 _].
        intros Heq. apply elem_of_app in Hr as [Hr|Hr].
        + apply (Hdis (lq_slot r)); [by apply list_elem_of_fmap_2|]. rewrite Heq. by left.
        + apply Hq2. rewrite <- Heq. by apply list_elem_of_fmap_2.
      - intros x Hx. by eapply chains_elem. }
    apply Forall_app in HF' as [HF1 HF2].
    apply Forall_app. split; [done|]. by apply Forall_cons.
  - eapply pool_rep_perm; [|exact Hpool]. symmetry.
    apply (chains_middle qs1 {| lq_slot := lq_slot q; lq_chain := c'; lq_bytes := l' |} qs2).
Qed.

Lemma system_rep_focus st qs fl i d :
  system_rep st qs fl ->
  lookupZ (descriptors st) i = Some d -> in_use d <> 0 ->
  exists qs1 q qs2,
    qs = qs1 ++ q :: qs2 /\ lq_slot q = i /\
    queue_rep st i (lq_chain q) (lq_bytes q) /\
    pool_rep st (lq_chain q ++ chains (qs1 ++ qs2)) fl /\
    Forall (fun q => queue_rep st (lq_slot q) (lq_chain q) (lq_bytes q)) (qs1 ++ qs2).
Proof.
  intros (Hnd & Hall & HF & Hpool) Hd Hu.
  pose proof (Hall i d Hd Hu) as Hin. unfold slots in Hin.
  apply list_elem_of_fmap in Hin as (q & -> & Hq).
  apply list_elem_of_split in Hq as (qs1 & qs2 & ->).
  exists qs1, q, qs2. split; [done|]. split; [done|].
  apply Forall_app in HF as [HF1 HF2]. apply Forall_cons in HF2 as [Hq HF2].
  split; [done|]. split; [|by apply Forall_app].
  eapply pool_rep_perm; [|exact Hpool]. apply chains_middle.
Qed.

Lemma destroy_walk_more_fuel fuel fuel' h st st' :
  destroy_walk fuel h st = Ret tt st' -> (fuel <= fuel')%nat ->
  destroy_walk fuel' h st = Ret tt st'.
Proof.
  revert fuel' h st. induction fuel as [|fuel IH]; intros fuel' h st; [discriminate|].
  destruct fuel' as [|fuel']; [lia|]. cbn [destroy_walk].
  destruct (negb (h =? INVALID_INDEX)); [|done].
  intros (sg & s1 & H1 & H2)%bind_Ret_inv Hle.
  apply bind_Ret_inv in H2 as ([] & s2 & H2 & H3).
  rewrite (bind_Ret _ _ _ _ _ H1), (bind_Ret _ _ _ _ _ H2).
  apply IH; [done|lia].
Qed.

Lemma destroy_walk_Ret c st h fuel st' :
  is_chain (segments st) h c INVALID_INDEX ->
  destroy_walk fuel h st = Ret tt st' ->
  descriptors st' = descriptors st /\ chain_released st c st'.
Proof.
  intros Hc Hw.
  destruct (destroy_walk_chain c st h (S (length c + fuel)) Hc) as (st'' & Hw' & Hres);
    [lia|].
  rewrite (destroy_walk_more_fuel fuel _ h st st' Hw) in Hw' by lia.
  by injection Hw' as <-.
Qed.

Lemma destroy_queue_Ret fuel q st st' :
  destroy_queue fuel q st = Ret tt st' ->
  exists i d st1,
    q = desc_ptr i /\ 0 <= i < MAX_QUEUES /\
    lookupZ (descriptors st) i = Some d /\ in_use d <> 0 /\
    destroy_walk fuel (head_segment d) st = Ret tt st1 /\
    exists d1, lookupZ (descriptors st1) i = Some d1 /\
      st' = set_descriptors (insertZ i (set_in_use 0 d1) (descriptors st1)) st1.
Proof.
  unfold destroy_queue. destruct q as [|i]; [discriminate|].
  rewrite (bind_Ret _ _ _ tt st) by reflexivity.
  intros ([] & s0 & H1 & H2)%bind_Ret_inv.
  destruct (in_table (desc_ptr i)) eqn:Hin; [|discriminate].
  apply andb_true_iff in Hin as [Hi1%Z.leb_le Hi2%Z.ltb_lt].
  apply bind_Ret_inv in H1 as (d & s0' & Hl & H1).
  unfold load_desc in Hl. destruct (lookupZ (descriptors st) i) as [d0|] eqn:Hd;
    [|discriminate]. injection Hl as Hdd Hss. subst d0 s0'.
  destruct (Z.eqb_spec (in_use d) 0) as [|Hu]; [discriminate|]. injection H1 as <-.
  rewrite (bind_Ret _ _ _ _ _ (load_desc_eq _ _ _ Hd)) in H2.
  apply bind_Ret_inv in H2 as ([] & st1 & Hw & H2).
  apply bind_Ret_inv in H2 as (d1 & s2 & Hl1 & H2).
  unfold load_desc in Hl1. destruct (lookupZ (descriptors st1) i) as [d1'|] eqn:Hd1;
    [|discriminate]. injection Hl1 as Hdd Hss. subst d1' s2.
  unfold store_desc in H2. rewrite Hd1 in H2. injection H2 as <-.
  exists i, d, st1. repeat split; try done. by exists d1.
Qed.

Lemma data_len_ext segs segs' :
  length segs' = length segs ->
  (forall x, seg_data segs' x = seg_data segs x) ->
  Forall (fun sg => length (data sg) = payload_len) segs ->
  Forall (fun sg => length (data sg) = payload_len) segs'.
Proof.
  intros Hlen Hdata HF. apply Forall_lookup. intros n sg' Hn.
  destruct (lookup_lt_is_Some_2 segs n) as [sg Hsg].
  { rewrite <- Hlen. by eapply lookup_lt_Some. }
  specialize (Hdata (Z.of_nat n)). unfold seg_data, lookupZ in Hdata.
  destruct (Z.leb_spec 0 (Z.of_nat n)); [|lia].
  rewrite Nat2Z.id, Hn, Hsg in Hdata. rewrite Hdata.
  by eapply (Forall_lookup_1 _ _ _ _ HF).
Qed.

(** [destroy_queue] on a well-formed queue next to other owners. *)
Lemma destroy_queue_framed st i c l fl o fuel st' :
  queue_rep st i c l -> pool_rep st (c ++ o) fl ->
  destroy_queue fuel (desc_ptr i) st = Ret tt st' ->
  pool_rep st' o (reverse c ++ fl) /\ kept i o st st' /\
  exists d', lookupZ (descriptors st') i = Some d' /\ in_use d' = 0.
Proof.
  intros (d & Hd & Hu & Hrep) Hpool Hdq.
  apply destroy_queue_Ret in Hdq
    as (i' & d0 & st1 & [= <-] & Hi & Hd0 & _ & Hw & d1 & Hd1 & ->).
  rewrite Hd in Hd0. injection Hd0 as <-.
  assert (Hch : is_chain (segments st) (head_segment d) c INVALID_INDEX).
  { destruct c; [by destruct Hrep|by destruct Hrep]. }
  destruct (destroy_walk_Ret c st _ fuel st1 Hch Hw)
    as (Hds1 & Hnu & Hin & Hrel & Hfr & Hda & Hlen1).
  pose proof Hpool as (Hfl & Hnd & Hnu0 & Hlt & Hinit & Hlen & HF).
  assert (Hperm : o ++ reverse c ++ fl ≡ₚ (c ++ o) ++ fl).
  { rewrite reverse_Permutation, !app_assoc.
    apply Permutation_app_tail, Permutation_app_comm. }
  split; [|split].
  - destruct c as [|h c'].
    + destruct fuel as [|fuel]; [discriminate|].
      destruct Hrep as (Hh & _). rewrite Hh in Hw. injection Hw as <-.
      by apply (pool_rep_update st).
    + assert (Hi0 : initialized (global_data st) <> 0) by (by apply Hinit).
      assert (Hi1 : initialized (global_data st1) <> 0) by (by rewrite Hin).
      rewrite (allocator_id _ Hi0) in *.
      unfold pool_rep. rewrite allocator_id by done.
      cbn [global_data segments set_descriptors].
      split.
      { apply Hrel; [done|]. intros x Hx. apply NoDup_app in Hnd as (_ & Hdis & _).
        apply Hdis. apply elem_of_app. by left. }
      split; [by rewrite Hperm|]. split; [by rewrite Hnu|].
      split; [intros x Hx; rewrite Hnu; apply Hlt; by rewrite <- Hperm|].
      split; [done|]. split; [by rewrite Hlen1|].
      by apply (data_len_ext (segments st)).
  - split.
    + intros k Hk. cbn [descriptors set_descriptors].
      rewrite lookupZ_insertZ_ne; [by rewrite Hds1|lia|done].
    + intros y Hy. cbn [segments set_descriptors]. apply Hfr.
      intros Hyc. by apply (pool_rep_frame_disjoint _ _ _ _ _ Hpool Hyc).
  - exists (set_in_use 0 d1). split; [|done].
    cbn [descriptors set_descriptors]. by eapply lookupZ_insertZ_eq.
Qed.

Lemma system_rep_start : system_rep zero_data [] [].
Proof.
  split; [constructor|]. split; [|split; [constructor|]].
  - intros i d [_ Hd]%lookupZ_Some Hu. exfalso.
    unfold zero_data in Hd. cbn [descriptors] in Hd.
    apply lookup_replicate in Hd as [-> _]. by apply Hu.
  - split; [vm_compute; reflexivity|]. split; [constructor|].
    split; [vm_compute; discriminate|]. split; [intros x []%elem_of_nil|].
    split; [done|]. split; [reflexivity|].
    apply Forall_replicate. reflexivity.
Qed.

Lemma system_rep_create st qs fl q st' :
  system_rep st qs fl -> create_queue st = Ret q st' ->
  exists i, q = desc_ptr i /\
    system_rep st' ({| lq_slot := i; lq_chain := []; lq_bytes := [] |} :: qs) fl.
Proof.
  intros (Hnd & Hall & HF & Hpool) (i & d & -> & Hd & Hu & ->)%create_queue_scan_Ret.
  assert (Hi0 : 0 <= i) by (apply lookupZ_lt in Hd; lia).
  exists i. split; [done|].
  assert (Hni : i ∉ slots qs).
  { intros (r & -> & Hr)%list_elem_of_fmap. rewrite Forall_forall in HF.
    destruct (HF r Hr) as (d' & Hd' & Hu' & _). rewrite Hd in Hd'.
    injection Hd' as <-. done. }
  assert (Hk : kept i (chains qs) st
                 (set_descriptors (insertZ i (claimed d) (descriptors st)) st)).
  { split; [|done]. intros k Hk. cbn [descriptors set_descriptors].
    by rewrite lookupZ_insertZ_ne. }
  split; [|split; [|split]].
  - unfold slots. cbn [map lq_slot]. by apply NoDup_cons.
  - intros k dk Hdk Huk. unfold slots. cbn [map lq_slot].
    destruct (Z.eq_dec k i) as [->|Hne]; [by left|right].
    destruct Hk as [Hkd _]. rewrite (Hkd k Hne) in Hdk. by eapply Hall.
  - apply Forall_cons. split.
    + exists (claimed d). cbn [lq_slot lq_chain lq_bytes descriptors set_descriptors].
      split; [by eapply lookupZ_insertZ_eq|]. by cbn.
    + apply Forall_forall. intros r Hr. rewrite Forall_forall in HF.
      apply (queue_rep_kept st _ i (chains qs)); [done| | |by apply HF].
      * intros Heq. apply Hni. rewrite <- Heq. by apply list_elem_of_fmap_2.
      * intros x Hx. by eapply chains_elem.
  - rewrite chains_cons. cbn [lq_chain app].
    destruct Hpool as (? & ? & ? & ? & ? & ? & ?). by apply (pool_rep_update st).
Qed.

Lemma system_rep_destroy st qs fl fuel q st' :
  system_rep st qs fl -> destroy_queue fuel q st = Ret tt st' ->
  exists qs' fl', system_rep st' qs' fl'.
Proof.
  intros Hsys Hdq. pose proof Hdq as Hdq'.
  apply destroy_queue_Ret in Hdq' as (i & d & st1 & -> & Hi & Hd & Hu & _).
  destruct (system_rep_focus _ _ _ _ _ Hsys Hd Hu)
    as (qs1 & r & qs2 & -> & <- & Hrep & Hpool & HF).
  destruct Hsys as (Hnd & Hall & _ & _).
  destruct (destroy_queue_framed _ _ _ _ _ _ _ _ Hrep Hpool Hdq)
    as (Hpool' & Hk & d' & Hd' & Hu').
  unfold slots in Hnd. rewrite map_app in Hnd. cbn [map] in Hnd.
  apply NoDup_app in Hnd as (Hn1 & Hdis & Hn2).
  apply NoDup_cons in Hn2 as [Hr2 Hn2].
  exists (qs1 ++ qs2), (reverse (lq_chain r) ++ fl). split; [|split; [|split]].
  - unfold slots. rewrite map_app. apply NoDup_app. repeat split; try done.
    intros x Hx Hx2. apply (Hdis x Hx). by right.
  - intros k dk Hdk Huk.
    destruct (Z.eq_dec k (lq_slot r)) as [->|Hne].
    { rewrite Hd' in Hdk. injection Hdk as <-. done. }
    destruct Hk as [Hkd _]. rewrite (Hkd k Hne) in Hdk.
    pose proof (Hall k dk Hdk Huk) as Hin. unfold slots in *.
    rewrite map_app in *. cbn [map] in Hin.
    apply elem_of_app in Hin as [Hin|[Hin|Hin]%elem_of_cons]; [|done|].
    + apply elem_of_app. by left.
    + apply elem_of_app. by right.
  - apply Forall_forall. intros r' Hr'. rewrite Forall_forall in HF.
    apply (queue_rep_kept st st' (lq_slot r) (chains (qs1 ++ qs2)));
      [done| | |by apply HF].
    + intros Heq. apply elem_of_app in Hr' as [Hr'|Hr'].
      * apply (Hdis (lq_slot r')); [by apply list_elem_of_fmap_2|]. rewrite Heq. by left.
      * apply Hr2. rewrite <- Heq. by apply list_elem_of_fmap_2.
    + intros x Hx. by eapply chains_elem.
  - done.
Qed.

(** Legal use keeps every live queue well formed and all chains and the
    free list pairwise disjoint. *)
Lemma legal_system_rep st : legal st -> exists qs fl, system_rep st qs fl.
Proof.
  induction 1 as [|st q st' _ (qs & fl & Hsys) Hop
                  |st fuel q st' _ (qs & fl & Hsys) Hop
                  |st q b st' _ (qs & fl & Hsys) Hop
                  |st i b st' _ (qs & fl & Hsys) Hne Hop].
  - exists [], []. exact system_rep_start.
  - destruct (system_rep_create _ _ _ _ _ Hsys Hop) as (i & _ & Hsys'). eauto.
  - by eapply system_rep_destroy.
  - pose proof Hop as ([] & s0 & Hc & _)%bind_Ret_inv.
    apply check_handle_Ret in Hc as (i & d & -> & Hd & Hu).
    destruct (system_rep_focus _ _ _ _ _ Hsys Hd Hu)
      as (qs1 & r & qs2 & -> & <- & Hrep & Hpool & HF).
    destruct Hsys as (Hnd & Hall & _ & _).
    destruct (wp_Ret_inv True _ _ _ _ _
                (enqueue_byte_framed_wp _ _ _ _ _ _ b Hrep Hpool) Hop)
      as (c' & fl' & Hrep' & Hpool' & Hk).
    eexists _, fl'. by eapply system_rep_update.
  - pose proof Hop as ([] & s0 & Hc & _)%bind_Ret_inv.
    apply check_handle_Ret in Hc as (i' & d & [= <-] & Hd & Hu).
    destruct (system_rep_focus _ _ _ _ _ Hsys Hd Hu)
      as (qs1 & r & qs2 & -> & <- & Hrep & Hpool & HF).
    destruct Hsys as (Hnd & Hall & _ & _).
    destruct (lq_bytes r) as [|b' l] eqn:Hl.
    { exfalso. apply Hne. exists (lq_chain r), fl. split; [done|].
      by eapply pool_rep_restrict. }
    destruct (wp_total _ _ _ (dequeue_byte_framed_wp _ _ _ _ _ _ _ Hrep Hpool))
      as (v & s1 & Hop' & _ & c' & fl' & Hrep' & Hpool' & Hk).
    rewrite Hop in Hop'. injection Hop' as _ <-.
    eexists _, fl'. by eapply system_rep_update.
Qed.

(** In a state reached by legal use every in-use descriptor is a
    well-formed queue holding some list of bytes. *)
Lemma legal_queue_holds st i d :
  legal st -> lookupZ (descriptors st) i = Some d -> in_use d <> 0 ->
  exists l, queue_holds st i l.
Proof.
  intros (qs & fl & Hsys)%legal_system_rep Hd Hu.
  destruct (system_rep_focus _ _ _ _ _ Hsys Hd Hu)
    as (qs1 & r & qs2 & -> & <- & Hrep & Hpool & _).
  exists (lq_bytes r), (lq_chain r), fl. split; [done|]. by eapply pool_rep_restrict.
Qed.

(** ** Handle validation *)

Lemma bind_Exit {A B} (m : M A) (f : A -> M B) s out code :
  m s = Exit out code -> bind m f s = Exit out code.
Proof. unfold bind. by intros ->. Qed.

Lemma check_handle_free i st d :
  lookupZ (descriptors st) i = Some d -> in_use d = 0 ->
  check_handle (desc_ptr i) st = illegal_operation_exit.
Proof.
  intros Hd Hu. unfold check_handle.
  rewrite (bind_Ret _ _ _ _ _ (load_desc_eq _ _ _ Hd)), Hu. reflexivity.
Qed.

Lemma check_handle_live i st d :
  lookupZ (descriptors st) i = Some d -> in_use d <> 0 ->
  check_handle (desc_ptr i) st = Ret tt st.
Proof.
  intros Hd Hu. unfold check_handle.
  rewrite (bind_Ret _ _ _ _ _ (load_desc_eq _ _ _ Hd)).
  by destruct (Z.eqb_spec (in_use d) 0).
Qed.

Lemma destroy_queue_free_exits fuel i st d :
  lookupZ (descriptors st) i = Some d -> in_use d = 0 ->
  destroy_queue fuel (desc_ptr i) st = illegal_operation_exit.
Proof.
  intros Hd Hu. unfold destroy_queue.
  rewrite (bind_Ret _ _ _ tt st) by reflexivity.
  apply bind_Exit. destruct (in_table (desc_ptr i)); [|reflexivity].
  rewrite (bind_Ret _ _ _ _ _ (load_desc_eq _ _ _ Hd)), Hu. reflexivity.
Qed.

(** X1: [destroy_queue] on a null handle, on a handle outside the
    descriptor table, or on a descriptor that is not in use prints the
    illegal-operation diagnostic and exits. *)
Theorem destroy_queue_rejects_bad_handle fuel q st :
  q = nullptr \/ in_table q = false \/
  (exists i d, q = desc_ptr i /\ lookupZ (descriptors st) i = Some d /\ in_use d = 0) ->
  destroy_queue fuel q st = illegal_operation_exit.
Proof.
  intros [->|[Hq|(i & d & -> & Hd & Hu)]].
  - reflexivity.
  - unfold destroy_queue. destruct q as [|i]; [reflexivity|].
    rewrite (bind_Ret _ _ _ tt st) by reflexivity. apply bind_Exit.
    by rewrite Hq.
  - by eapply destroy_queue_free_exits.
Qed.

Lemma destroy_queue_rejects_bad_handle_witness :
  destroy_queue 1 (desc_ptr 64) fresh_queue = illegal_operation_exit /\
  destroy_queue 1 (desc_ptr 1) fresh_queue = illegal_operation_exit.
Proof.
  split.
  - apply (destroy_queue_rejects_bad_handle 1 (desc_ptr 64) fresh_queue).
    right. left. reflexivity.
  - apply (destroy_queue_rejects_bad_handle 1 (desc_ptr 1) fresh_queue).
    right. right. exists 1, zero_Q. repeat split; reflexivity.
Defined.

Lemma enqueue_byte_free_exits i b st d :
  lookupZ (descriptors st) i = Some d -> in_use d = 0 ->
  enqueue_byte (desc_ptr i) b st = illegal_operation_exit.
Proof. intros Hd Hu. apply bind_Exit. by eapply check_handle_free. Qed.

Lemma dequeue_byte_free_exits i st d :
  lookupZ (descriptors st) i = Some d -> in_use d = 0 ->
  dequeue_byte (desc_ptr i) st = illegal_operation_exit.
Proof. intros Hd Hu. apply bind_Exit. by eapply check_handle_free. Qed.

(** X2: [enqueue_byte] and [dequeue_byte] on a null handle or on a
    descriptor that is not in use print the illegal-operation diagnostic
    and exit; no byte is returned. *)
Theorem enqueue_dequeue_reject_bad_handle q b st :
  q = nullptr \/
  (exists i d, q = desc_ptr i /\ lookupZ (descriptors st) i = Some d /\ in_use d = 0) ->
  enqueue_byte q b st = illegal_operation_exit /\
  dequeue_byte q st = illegal_operation_exit.
Proof.
  intros [->|(i & d & -> & Hd & Hu)].
  - split; reflexivity.
  - split; [by eapply enqueue_byte_free_exits|by eapply dequeue_byte_free_exits].
Qed.

Lemma enqueue_dequeue_reject_bad_handle_witness :
  enqueue_byte (desc_ptr 1) x01 fresh_queue = illegal_operation_exit /\
  dequeue_byte (desc_ptr 1) fresh_queue = illegal_operation_exit.
Proof.
  apply (enqueue_dequeue_reject_bad_handle (desc_ptr 1) x01 fresh_queue).
  right. exists 1, zero_Q. repeat split; reflexivity.
Defined.

(** ** What a returning call leaves alone *)

Lemma touches_only_refl j s : touches_only j s s.
Proof. by split. Qed.

Lemma touches_only_trans j s1 s2 s3 :
  touches_only j s1 s2 -> touches_only j s2 s3 -> touches_only j s1 s3.
Proof.
  intros [Hd1 Hi1] [Hd2 Hi2]. split.
  - intros k Hk. by rewrite Hd2, Hd1.
  - auto.
Qed.

Lemma steps_ret {A} j (a : A) : steps j (ret a).
Proof. intros s a' s' [= <- <-]. apply touches_only_refl. Qed.

Lemma steps_bind {A B} j (m : M A) (f : A -> M B) :
  steps j m -> (forall a, steps j (f a)) -> steps j (bind m f).
Proof.
  intros Hm Hf s b s' (a & s1 & H1 & H2)%bind_Ret_inv.
  eapply touches_only_trans; [eapply Hm|eapply Hf]; eauto.
Qed.

Lemma steps_illegal j : steps j on_illegal_operation.
Proof. intros s a s' H. discriminate. Qed.

Lemma steps_undefined {A} j : steps j (@undefined A).
Proof. intros s a s' H. discriminate. Qed.

Lemma steps_out_of_fuel {A} j : steps j (@out_of_fuel A).
Proof. intros s a s' H. discriminate. Qed.

Lemma steps_load_seg j x : steps j (load_seg x).
Proof.
  intros s a s'. unfold load_seg. destruct (lookupZ (segments s) x); [|discriminate].
  intros [= <- <-]. apply touches_only_refl.
Qed.

Lemma steps_store_seg j x sg : steps j (store_seg x sg).
Proof.
  intros s [] s'. unfold store_seg. destruct (lookupZ (segments s) x); [|discriminate].
  intros [= <-]. by split.
Qed.

Lemma steps_load_desc j q : steps j (load_desc q).
Proof.
  intros s a s'. unfold load_desc. destruct q as [|i]; [discriminate|].
  destruct (lookupZ (descriptors s) i); [|discriminate].
  intros [= <- <-]. apply touches_only_refl.
Qed.

Lemma steps_store_desc j d : steps j (store_desc (desc_ptr j) d).
Proof.
  intros s [] s'. unfold store_desc.
  destruct (lookupZ (descriptors s) j) as [d0|] eqn:Hd; [|discriminate].
  intros [= <-]. apply lookupZ_lt in Hd. split; [|done].
  intros k Hk. cbn [descriptors set_descriptors].
  apply lookupZ_insertZ_ne; [lia|done].
Qed.

Lemma steps_allocate_segment j : steps j allocate_segment.
Proof.
  intros s x s' (Hd & _ & Hi & _)%allocate_segment_inv. split; [|done].
  intros k _. by rewrite Hd.
Qed.

Lemma steps_free_segment j x : steps j (free_segment x).
Proof.
  intros s [] s' H. destruct (lookupZ (segments s) x) as [sg|] eqn:Hsg.
  - rewrite (free_segment_eq _ _ _ Hsg) in H. injection H as <-. by split.
  - unfold free_segment, bind, load_global, load_seg in H. rewrite Hsg in H.
    discriminate.
Qed.

Ltac steps_tac :=
  repeat first
    [ apply steps_ret | apply steps_illegal | apply steps_undefined
    | apply steps_out_of_fuel | apply steps_load_seg | apply steps_store_seg
    | apply steps_load_desc | apply steps_store_desc
    | apply steps_allocate_segment | apply steps_free_segment
    | apply steps_bind; [|intros ?]
    | match goal with
      | |- steps _ (if ?c then _ else _) => destruct c
      | |- steps _ (match ?c with Some _ => _ | None => _ end) => destruct c
      end ].

Lemma steps_enqueue_byte j b : steps j (enqueue_byte (desc_ptr j) b).
Proof. unfold enqueue_byte, check_handle, store_payload. steps_tac. Qed.

Lemma steps_dequeue_byte j : steps j (dequeue_byte (desc_ptr j)).
Proof. unfold dequeue_byte, check_handle, load_payload. steps_tac. Qed.

Lemma steps_destroy_walk j fuel : forall x, steps j (destroy_walk fuel x).
Proof.
  induction fuel as [|fuel IH]; intros x; cbn [destroy_walk]; [steps_tac|].
  destruct (negb (x =? INVALID_INDEX)); [|steps_tac].
  apply steps_bind; [steps_tac|intros sg].
  apply steps_bind; [steps_tac|intros _]. apply IH.
Qed.

Lemma steps_destroy_queue j fuel : steps j (destroy_queue fuel (desc_ptr j)).
Proof.
  unfold destroy_queue.
  apply steps_bind; [steps_tac|intros _].
  apply steps_bind; [steps_tac|intros _].
  apply steps_bind; [steps_tac|intros d].
  apply steps_bind; [apply steps_destroy_walk|intros _]. steps_tac.
Qed.

(** A slot that is not in use stays so through calls that return, until
    [create_queue] returns it. *)
Lemma later_calls_free i st st' :
  later_calls (desc_ptr i) st st' ->
  (exists d, lookupZ (descriptors st) i = Some d /\ in_use d = 0) ->
  exists d, lookupZ (descriptors st') i = Some d /\ in_use d = 0.
Proof.
  induction 1 as [st|st q' st1 st' Hop Hne _ IH|st fuel q' st1 st' Hop _ IH
                  |st q' b st1 st' Hop _ IH|st q' b st1 st' Hop _ IH];
    intros (d & Hd & Hu); [by exists d|apply IH; exists d; split; [|done]..].
  - apply create_queue_scan_Ret in Hop as (i' & d0 & -> & Hd0 & _ & ->).
    cbn [descriptors set_descriptors]. rewrite lookupZ_insertZ_ne; [done| |congruence].
    apply lookupZ_lt in Hd0. lia.
  - pose proof Hop as (i' & d' & s0 & -> & _ & Hd' & Hu' & _)%destroy_queue_Ret.
    destruct (steps_destroy_queue i' fuel _ _ _ Hop) as [Hk _].
    rewrite Hk; [done|]. intros ->. rewrite Hd in Hd'. injection Hd' as <-. done.
  - pose proof Hop as ([] & s0 & (i' & d' & -> & Hd' & Hu')%check_handle_Ret & _)%bind_Ret_inv.
    destruct (steps_enqueue_byte i' b _ _ _ Hop) as [Hk _].
    rewrite Hk; [done|]. intros ->. rewrite Hd in Hd'. injection Hd' as <-. done.
  - pose proof Hop as ([] & s0 & (i' & d' & -> & Hd' & Hu')%check_handle_Ret & _)%bind_Ret_inv.
    destruct (steps_dequeue_byte i' _ _ _ Hop) as [Hk _].
    rewrite Hk; [done|]. intros ->. rewrite Hd in Hd'. injection Hd' as <-. done.
Qed.

(** X3: once [destroy_queue] has returned for a handle, the handle stays
    dead for as long as [create_queue] has not returned it again: whatever
    calls are made in between (on other handles, or [create_queue]
    returning other handles), destroying it again, enqueuing to it and
    dequeuing from it all exit with the illegal-operation diagnostic. *)
Theorem use_after_destroy_exits fuel fuel' q b st st0 st' :
  destroy_queue fuel q st = Ret tt st0 ->
  later_calls q st0 st' ->
  destroy_queue fuel' q st' = illegal_operation_exit /\
  enqueue_byte q b st' = illegal_operation_exit /\
  dequeue_byte q st' = illegal_operation_exit.
Proof.
  intros (i & d & st1 & -> & Hi & Hd & Hu & Hw & d1 & Hd1 & ->)%destroy_queue_Ret Hl.
  destruct (later_calls_free _ _ _ Hl) as (d' & Hd' & Hu').
  { exists (set_in_use 0 d1). split; [|done].
    cbn [descriptors set_descriptors]. by eapply lookupZ_insertZ_eq. }
  split; [|split].
  - by eapply destroy_queue_free_exits.
  - by eapply enqueue_byte_free_exits.
  - by eapply dequeue_byte_free_exits.
Qed.

Lemma use_after_destroy_exits_witness :
  destroy_queue 5 (desc_ptr 3) three_queues_later = illegal_operation_exit /\
  enqueue_byte (desc_ptr 3) x01 three_queues_later = illegal_operation_exit /\
  dequeue_byte (desc_ptr 3) three_queues_later = illegal_operation_exit.
Proof.
  apply (use_after_destroy_exits 3 5 (desc_ptr 3) x01 four_queues three_queues).
  - vm_compute. reflexivity.
  - eapply (later_enqueue _ _ (desc_ptr 0) x44); [vm_compute; reflexivity|].
    eapply (later_destroy _ _ 3 (desc_ptr 0)); [vm_compute; reflexivity|].
    eapply later_create; [vm_compute; reflexivity|discriminate|].
    eapply (later_dequeue _ _ (desc_ptr 1)); [vm_compute; reflexivity|].
    apply later_none.
Defined.

(** ** free_segment is only called on an initialized allocator *)

(** The first [enqueue_byte] on a queue without a segment runs the
    set-up step of the allocator. *)
Lemma enqueue_byte_first_segment_inits st i d b st' :
  lookupZ (descriptors st) i = Some d -> in_use d <> 0 ->
  tail_segment d = INVALID_INDEX ->
  enqueue_byte (desc_ptr i) b st = Ret tt st' ->
  initialized (global_data st') <> 0.
Proof.
  intros Hd Hu Ht Hop. unfold enqueue_byte in Hop.
  rewrite (bind_Ret _ _ _ _ _ (check_handle_live _ _ _ Hd Hu)) in Hop.
  rewrite (bind_Ret _ _ _ _ _ (load_desc_eq _ _ _ Hd)) in Hop.
  rewrite Ht, Z.eqb_refl in Hop.
  apply bind_Ret_inv in Hop as ([] & s1 & H1 & H2).
  apply bind_Ret_inv in H1 as (x & s0 & Ha & H1).
  apply allocate_segment_inv in Ha as (_ & _ & Hi0 & _).
  assert (T1 : touches_only i s0 s1).
  { refine ((_ : steps i _) _ _ _ H1). steps_tac. }
  assert (T2 : touches_only i s1 st').
  { refine ((_ : steps i _) _ _ _ H2). unfold store_payload. steps_tac. }
  apply T2, T1, Hi0.
Qed.

(** As long as the allocator has not been initialized, no queue in use
    has a segment; this holds in every state reachable through the public
    interface, dequeues on a queue that holds nothing included. *)
Lemma reachable_init_before_use st :
  reachable st -> initialized (global_data st) = 0 ->
  forall i d, lookupZ (descriptors st) i = Some d -> in_use d <> 0 ->
    head_segment d = INVALID_INDEX /\ tail_segment d = INVALID_INDEX.
Proof.
  induction 1 as [|st q st' _ IH Hop|st fuel q st' _ IH Hop
                  |st q b st' _ IH Hop|st q b st' _ IH Hop]; intros Hz i d Hd Hu.
  - exfalso. apply lookupZ_Some in Hd as [_ Hd].
    unfold zero_data in Hd. cbn [descriptors] in Hd.
    apply lookup_replicate in Hd as [-> _]. by apply Hu.
  - apply create_queue_scan_Ret in Hop as (i0 & d0 & -> & Hd0 & _ & ->).
    cbn [descriptors set_descriptors] in Hd.
    destruct (Z.eq_dec i i0) as [->|Hne].
    + rewrite (lookupZ_insertZ_eq _ _ _ _ Hd0) in Hd. injection Hd as <-. by split.
    + rewrite lookupZ_insertZ_ne in Hd; [exact (IH Hz i d Hd Hu)| |done].
      apply lookupZ_lt in Hd0. lia.
  - pose proof Hop
      as (i0 & d0 & s1 & -> & _ & Hd0 & Hu0 & _ & d1 & Hd1 & Hst)%destroy_queue_Ret.
    destruct (steps_destroy_queue i0 fuel _ _ _ Hop) as [Hk Hin].
    assert (Hz0 : initialized (global_data st) = 0).
    { destruct (Z.eq_dec (initialized (global_data st)) 0) as [|Hn]; [done|].
      by destruct (Hin Hn). }
    destruct (Z.eq_dec i i0) as [->|Hne].
    + exfalso. subst st'. cbn [descriptors set_descriptors] in Hd.
      rewrite (lookupZ_insertZ_eq _ _ _ _ Hd1) in Hd. injection Hd as <-. by apply Hu.
    + rewrite (Hk i Hne) in Hd. exact (IH Hz0 i d Hd Hu).
  - exfalso.
    pose proof Hop
      as ([] & s0 & (i0 & d0 & -> & Hd0 & Hu0)%check_handle_Ret & _)%bind_Ret_inv.
    destruct (steps_enqueue_byte i0 b _ _ _ Hop) as [_ Hin].
    assert (Hz0 : initialized (global_data st) = 0).
    { destruct (Z.eq_dec (initialized (global_data st)) 0) as [|Hn]; [done|].
      by destruct (Hin Hn). }
    destruct (IH Hz0 _ _ Hd0 Hu0) as [_ Ht].
    by apply (enqueue_byte_first_segment_inits _ _ _ _ _ Hd0 Hu0 Ht Hop).
  - exfalso.
    pose proof Hop
      as ([] & s0 & (i0 & d0 & -> & Hd0 & Hu0)%check_handle_Ret & _)%bind_Ret_inv.
    destruct (steps_dequeue_byte i0 _ _ _ Hop) as [_ Hin].
    assert (Hz0 : initialized (global_data st) = 0).
    { destruct (Z.eq_dec (initialized (global_data st)) 0) as [|Hn]; [done|].
      by destruct (Hin Hn). }
    destruct (IH Hz0 _ _ Hd0 Hu0) as [Hh _].
    rewrite (dequeue_byte_sentinel_exits _ _ _ Hd0 Hu0 Hh) in Hop. discriminate.
Qed.

(** Where [dequeue_byte] and [destroy_queue] call [free_segment] - the
    handle is in use and its head is a segment - the allocator has been
    initialized, the pool has its 95 segments and the head is one of them. *)
Lemma reachable_free_sites st i d :
  reachable st ->
  lookupZ (descriptors st) i = Some d -> in_use d <> 0 ->
  head_segment d <> INVALID_INDEX ->
  initialized (global_data st) <> 0 /\
  length (segments st) = Z.to_nat SEGMENT_COUNT /\
  0 <= head_segment d < SEGMENT_COUNT.
Proof.
  intros Hr Hd Hu Hh. split; [|split].
  - intros Hz. by destruct (reachable_init_before_use st Hr Hz i d Hd Hu).
  - destruct (reachable_safe st Hr) as [Hp _]. exact (safe_seg_len st Hp).
  - destruct (reachable_safe st Hr) as [_ HF].
    destruct (Forall_lookupZ _ _ _ _ HF Hd Hu) as (_ & _ & [Hi|Hi] & _); done.
Qed.

(** [free_segment] changes neither the initialization flag, nor the bump
    pointer, nor the number of segments: the loop of [destroy_queue] calls
    it again under the same conditions. *)
Lemma free_segment_keeps_allocator X st st1 :
  free_segment X st = Ret tt st1 ->
  initialized (global_data st1) = initialized (global_data st) /\
  next_unused (global_data st1) = next_unused (global_data st) /\
  length (segments st1) = length (segments st).
Proof.
  intros H. destruct (lookupZ (segments st) X) as [sg|] eqn:Hsg.
  - rewrite (free_segment_eq _ _ _ Hsg) in H. injection H as <-.
    cbn [global_data segments]. by rewrite length_insertZ.
  - unfold free_segment, bind, load_global, load_seg in H. rewrite Hsg in H.
    discriminate.
Qed.

(** X4: a queue just returned by [create_queue] holds nothing, and
    [dequeue_byte] on it takes the illegal-operation exit. *)
Theorem dequeue_fresh_queue_exits st q st' :
  create_queue st = Ret q st' ->
  dequeue_byte q st' = illegal_operation_exit.
Proof.
  intros (i & d & -> & Hd & _ & ->)%create_queue_scan_Ret.
  apply (dequeue_byte_sentinel_exits _ i (claimed d)).
  - cbn [descriptors set_descriptors]. by eapply lookupZ_insertZ_eq.
  - cbn. lia.
  - reflexivity.
Qed.

Lemma dequeue_fresh_queue_exits_witness :
  dequeue_byte (desc_ptr 0) fresh_queue = illegal_operation_exit.
Proof.
  apply (dequeue_fresh_queue_exits zero_data (desc_ptr 0) fresh_queue).
  vm_compute. reflexivity.
Defined.

(** ** The read cursor catches up with the write cursor *)

(** X5: when head and tail are the same segment and the read cursor is
    one below the write cursor, [dequeue_byte] returns the byte under the
    read cursor, pushes that segment on the free list and resets the
    descriptor to head = tail = sentinel with both cursors 0; nothing else
    changes, and a further [dequeue_byte] takes the illegal-operation exit. *)
Theorem dequeue_cursors_meet st i d sgh b :
  lookupZ (descriptors st) i = Some d ->
  in_use d <> 0 ->
  head_segment d <> INVALID_INDEX ->
  head_segment d = tail_segment d ->
  0 <= head_offset d < SEG_PAYLOAD_SIZE ->
  head_offset d + 1 = tail_offset d ->
  lookupZ (segments st) (head_segment d) = Some sgh ->
  lookupZ (data sgh) (head_offset d) = Some b ->
  let st' :=
    {| descriptors := insertZ i (emptied d) (descriptors st);
       global_data := set_free_list_head (head_segment d) (global_data st);
       segments := insertZ (head_segment d)
                     (set_next (free_list_head (global_data st)) sgh) (segments st) |} in
  dequeue_byte (desc_ptr i) st = Ret b st' /\
  dequeue_byte (desc_ptr i) st' = illegal_operation_exit.
Proof.
  intros Hd Hu Hne Eht Hho Eo Hsgh Hb st'. split.
  - unfold dequeue_byte.
    rewrite (bind_Ret _ _ _ _ _ (check_handle_live _ _ _ Hd Hu)).
    rewrite (bind_Ret _ _ _ _ _ (load_desc_eq _ _ _ Hd)).
    destruct (Z.eqb_spec (head_segment d) INVALID_INDEX); [done|].
    rewrite (bind_Ret _ _ _ tt st) by reflexivity.
    rewrite (bind_Ret _ _ _ b st).
    2: { unfold load_payload. rewrite (bind_Ret _ _ _ _ _ (load_seg_eq _ _ _ Hsgh)).
         by rewrite Hb. }
    rewrite (bind_Ret _ _ _ tt
               (set_descriptors (insertZ i (set_head_offset (wrap8 (head_offset d + 1)) d)
                                   (descriptors st)) st)).
    2: { unfold store_desc. by rewrite Hd. }
    rewrite (wrap8_succ _ Hho).
    set (s1 := set_descriptors _ st).
    assert (Hd1 : lookupZ (descriptors s1) i = Some (set_head_offset (head_offset d + 1) d)).
    { cbn [descriptors s1 set_descriptors]. by eapply lookupZ_insertZ_eq. }
    rewrite (bind_Ret _ _ _ _ _ (load_desc_eq _ _ _ Hd1)).
    cbn [head_segment tail_segment head_offset tail_offset set_head_offset].
    rewrite Eht, Z.eqb_refl, Eo, Z.eqb_refl. cbn [andb].
    assert (Hsgh1 : lookupZ (segments s1) (tail_segment d) = Some sgh) by (by rewrite <- Eht).
    rewrite (bind_Ret _ _ _ _ _ (free_segment_eq _ _ _ Hsgh1)).
    set (s2 := Build_DataOverlay _ _ _).
    assert (Hd2 : lookupZ (descriptors s2) i = Some (set_head_offset (head_offset d + 1) d))
      by exact Hd1.
    rewrite (bind_Ret _ _ _ _ _ (load_desc_eq _ _ _ Hd2)).
    rewrite (bind_Ret _ _ _ tt
               (set_descriptors (insertZ i (emptied d) (descriptors s2)) s2)).
    2: { unfold store_desc. rewrite Hd2. reflexivity. }
    unfold ret. f_equal. unfold st', set_descriptors.
    cbn [descriptors global_data segments s2 s1 set_descriptors].
    by rewrite insertZ_insertZ, Eht.
  - apply (dequeue_byte_sentinel_exits _ i (emptied d)); [|done|done].
    cbn [descriptors st']. by eapply lookupZ_insertZ_eq.
Qed.

Lemma dequeue_cursors_meet_witness :
  dequeue_byte (desc_ptr 0) one_queued =
    Ret x01
      {| descriptors :=
           insertZ 0 (emptied {| head_segment := 0; tail_segment := 0;
                                 head_offset := 0; tail_offset := 1;
                                 in_use := 1; pad := 0 |})
             (descriptors one_queued);
         global_data := set_free_list_head 0 (global_data one_queued);
         segments :=
           insertZ 0 (set_next (free_list_head (global_data one_queued))
                        {| next := INVALID_INDEX;
                           data := insertZ 0 x01 (replicate 14 x00) |})
             (segments one_queued) |} /\
  dequeue_byte (desc_ptr 0)
      {| descriptors :=
           insertZ 0 (emptied {| head_segment := 0; tail_segment := 0;
                                 head_offset := 0; tail_offset := 1;
                                 in_use := 1; pad := 0 |})
             (descriptors one_queued);
         global_data := set_free_list_head 0 (global_data one_queued);
         segments :=
           insertZ 0 (set_next (free_list_head (global_data one_queued))
                        {| next := INVALID_INDEX;
                           data := insertZ 0 x01 (replicate 14 x00) |})
             (segments one_queued) |} = illegal_operation_exit.
Proof.
  apply (dequeue_cursors_meet one_queued 0
           {| head_segment := 0; tail_segment := 0; head_offset := 0;
              tail_offset := 1; in_use := 1; pad := 0 |}
           {| next := INVALID_INDEX; data := insertZ 0 x01 (replicate 14 x00) |} x01).
  - vm_compute. reflexivity.
  - vm_compute. discriminate.
  - vm_compute. discriminate.
  - reflexivity.
  - vm_compute. split; [discriminate|reflexivity].
  - reflexivity.
  - vm_compute. reflexivity.
  - vm_compute. reflexivity.
Defined.

(** ** The allocator never hands out a segment twice *)

(** X6: in a well-formed pool (free list [fl], segments [c] owned by
    queues) a returning [allocate_segment] yields a segment of the pool
    that is neither owned nor left on the free list, and changes no
    descriptor and no segment. *)
Theorem allocate_segment_fresh st c fl x st' :
  pool_rep st c fl ->
  allocate_segment st = Ret x st' ->
  0 <= x < SEGMENT_COUNT /\ (x ∉ c) /\
  descriptors st' = descriptors st /\ segments st' = segments st /\
  exists fl', pool_rep st' (c ++ [x]) fl' /\ (x ∉ fl').
Proof.
  intros Hp Ha.
  apply (wp_Ret_inv True _ (fun x st' =>
           0 <= x < SEGMENT_COUNT /\ (x ∉ c) /\
           descriptors st' = descriptors st /\ segments st' = segments st /\
           exists fl', pool_rep st' (c ++ [x]) fl' /\ (x ∉ fl')) _ _ _) in Ha; [done|].
  eapply wp_allocate_pool; [exact Hp|done|].
  intros y s1 fl1 sgy Hds Hsegs Hsgy Hyne Hp1.
  destruct (pool_rep_fresh _ _ _ _ Hp1) as [Hyc Hyfl].
  destruct Hp as (_ & _ & _ & _ & _ & Hlen & _).
  apply lookupZ_lt in Hsgy. rewrite Hlen in Hsgy.
  split; [rewrite segment_count_val in *; lia|].
  split; [done|]. split; [done|]. split; [done|]. by exists fl1.
Qed.

(** ** The free list is a stack *)

Lemma allocate_segment_pop st sg :
  initialized (global_data st) <> 0 ->
  free_list_head (global_data st) <> INVALID_INDEX ->
  lookupZ (segments st) (free_list_head (global_data st)) = Some sg ->
  allocate_segment st =
    Ret (free_list_head (global_data st))
        (set_global_data (set_free_list_head (next sg) (global_data st)) st).
Proof.
  intros Hi Hne Hsg.
  unfold allocate_segment, bind, load_global, store_global, load_seg, ret. simpl.
  rewrite (lazy_init_id _ Hi).
  destruct (Z.eqb_spec (free_list_head (global_data st)) INVALID_INDEX); [done|].
  simpl. rewrite Hsg. simpl. unfold set_global_data. simpl. reflexivity.
Qed.

Lemma allocate_segments_snoc n st xs s1 x s2 :
  allocate_segments n st = Ret xs s1 ->
  allocate_segment s1 = Ret x s2 ->
  allocate_segments (S n) st = Ret (xs ++ [x]) s2.
Proof.
  revert st xs. induction n as [|n IH]; intros st xs; cbn [allocate_segments].
  - intros [= <- <-] Ha. rewrite (bind_Ret _ _ _ _ _ Ha). reflexivity.
  - intros (y & sa & Hy & H2)%bind_Ret_inv Ha.
    apply bind_Ret_inv in H2 as (ys & sb & Hys & [= <- <-]).
    rewrite (bind_Ret _ _ _ _ _ Hy).
    change (bind (allocate_segments (S n)) (fun xs0 => ret (y :: xs0)) sa =
            Ret ((y :: ys) ++ [x]) s2).
    rewrite (bind_Ret _ _ _ _ _ (IH _ _ Hys Ha)). reflexivity.
Qed.

Lemma free_then_allocate_all xs :
  forall st,
    initialized (global_data st) <> 0 ->
    length (segments st) = Z.to_nat SEGMENT_COUNT ->
    (forall x, x ∈ xs -> 0 <= x < SEGMENT_COUNT) ->
    NoDup xs ->
    exists s1 s2,
      free_segments xs st = Ret tt s1 /\
      allocate_segments (length xs) s1 = Ret (reverse xs) s2 /\
      global_data s2 = global_data st /\
      descriptors s2 = descriptors st /\
      length (segments s2) = length (segments st) /\
      (forall y, y ∉ xs -> lookupZ (segments s2) y = lookupZ (segments st) y) /\
      (forall y, seg_data (segments s2) y = seg_data (segments st) y).
Proof.
  induction xs as [|x xs IH]; intros st Hi Hlen Hr Hnd.
  - exists st, st. repeat split; try done.
  - apply NoDup_cons in Hnd as [Hx Hnd].
    destruct (lookupZ_is_Some (segments st) x) as [sg Hsg].
    { rewrite Hlen. rewrite segment_count_val in *.
      specialize (Hr x ltac:(left)). lia. }
    assert (Hx0 : 0 <= x) by (apply lookupZ_lt in Hsg; lia).
    set (sa := {| descriptors := descriptors st;
                  global_data := set_free_list_head x (global_data st);
                  segments := insertZ x (set_next (free_list_head (global_data st)) sg)
                                (segments st) |}).
    destruct (IH sa) as (s1 & s2 & Hf & Ha & Hg & Hd & Hl & Hfr & Hda).
    { done. }
    { cbn [segments sa]. by rewrite length_insertZ. }
    { intros y Hy. apply Hr. by right. }
    { done. }
    assert (Hsx : lookupZ (segments s2) x =
                  Some (set_next (free_list_head (global_data st)) sg)).
    { rewrite (Hfr x Hx). cbn [segments sa]. by eapply lookupZ_insertZ_eq. }
    assert (Hxne : x <> INVALID_INDEX).
    { specialize (Hr x ltac:(left)). rewrite segment_count_val in Hr.
      unfold INVALID_INDEX, UINT16_MAX. lia. }
    eexists s1, _. split; [|split].
    + cbn [free_segments]. rewrite (bind_Ret _ _ _ _ _ (free_segment_eq _ _ _ Hsg)).
      exact Hf.
    + rewrite reverse_cons. cbn [length].
      eapply allocate_segments_snoc; [exact Ha|].
      pose proof (allocate_segment_pop s2
                    (set_next (free_list_head (global_data st)) sg)) as Hpop.
      rewrite Hg in Hpop.
      cbn [global_data sa set_free_list_head free_list_head initialized] in Hpop.
      by apply Hpop.
    + cbn [global_data set_global_data descriptors segments].
      cbn [next set_next].
      split; [by destruct (global_data st)|]. split; [done|].
      split; [by rewrite Hl; cbn [segments sa]; rewrite length_insertZ|]. split.
      * intros y Hy. apply not_elem_of_cons in Hy as [Hne Hy].
        rewrite (Hfr y Hy). cbn [segments sa]. by apply lookupZ_insertZ_ne.
      * intros y. rewrite Hda. cbn [segments sa].
        destruct (Z.eq_dec x y) as [<-|Hne].
        -- rewrite (seg_data_insert_same _ _ _ _ Hsg). unfold seg_data. by rewrite Hsg.
        -- by apply seg_data_insert_other.
Qed.

(** X7: on an initialized allocator, freeing distinct segments
    [x1 .. xn] of the pool and then allocating n times returns them in
    reverse order, last freed first; afterwards the free-list head, the
    bump pointer, every payload and every segment outside [x1 .. xn] are
    what they were before the frees. *)
Theorem free_list_is_lifo xs st :
  initialized (global_data st) <> 0 ->
  length (segments st) = Z.to_nat SEGMENT_COUNT ->
  (forall x, x ∈ xs -> 0 <= x < SEGMENT_COUNT) ->
  NoDup xs ->
  exists s1 s2,
    free_segments xs st = Ret tt s1 /\
    allocate_segments (length xs) s1 = Ret (reverse xs) s2 /\
    global_data s2 = global_data st /\
    descriptors s2 = descriptors st /\
    (forall y, y ∉ xs -> lookupZ (segments s2) y = lookupZ (segments st) y) /\
    (forall y, seg_data (segments s2) y = seg_data (segments st) y).
Proof.
  intros Hi Hlen Hr Hnd.
  destruct (free_then_allocate_all xs st Hi Hlen Hr Hnd)
    as (s1 & s2 & Hf & Ha & Hg & Hd & _ & Hfr & Hda).
  exists s1, s2. repeat split; done.
Qed.

Lemma free_list_is_lifo_witness :
  exists s1 s2,
    free_segments [3; 1; 2] fifteen_queued = Ret tt s1 /\
    allocate_segments (length [3; 1; 2]) s1 = Ret (reverse [3; 1; 2]) s2 /\
    global_data s2 = global_data fifteen_queued /\
    descriptors s2 = descriptors fifteen_queued /\
    (forall y, y ∉ [3; 1; 2] ->
               lookupZ (segments s2) y = lookupZ (segments fifteen_queued) y) /\
    (forall y, seg_data (segments s2) y = seg_data (segments fifteen_queued) y).
Proof.
  apply (free_list_is_lifo [3; 1; 2] fifteen_queued).
  - vm_compute. discriminate.
  - reflexivity.
  - intros x Hx. rewrite segment_count_val.
    repeat (apply elem_of_cons in Hx as [->|Hx]; [lia|]).
    by apply elem_of_nil in Hx.
  - repeat (apply NoDup_cons; split;
            [rewrite ?elem_of_cons, elem_of_nil; lia|]). constructor.
Defined.

(** ** When enqueue_byte runs out of memory *)

Lemma allocate_segment_exhausted st :
  pool_exhausted st -> allocate_segment st = out_of_memory_exit.
Proof.
  unfold pool_exhausted, allocator. intros [Hfl Hnu].
  unfold allocate_segment, bind, load_global, store_global. simpl.
  rewrite Hfl. simpl.
  destruct (Z.ltb_spec (next_unused (lazy_init (global_data st))) SEGMENT_COUNT); [lia|].
  reflexivity.
Qed.

Lemma store_payload_eq idx off b st sg b0 :
  lookupZ (segments st) idx = Some sg ->
  lookupZ (data sg) off = Some b0 ->
  store_payload idx off b st =
    Ret tt (set_segments (insertZ idx (set_data (insertZ off b (data sg)) sg)
                            (segments st)) st).
Proof.
  intros Hsg Hb. unfold store_payload.
  rewrite (bind_Ret _ _ _ _ _ (load_seg_eq _ _ _ Hsg)), Hb.
  unfold store_seg. by rewrite Hsg.
Qed.

Lemma store_desc_eq i d d0 st :
  lookupZ (descriptors st) i = Some d0 ->
  store_desc (desc_ptr i) d st =
    Ret tt (set_descriptors (insertZ i d (descriptors st)) st).
Proof. intros Hd. unfold store_desc. by rewrite Hd. Qed.

Lemma one_queued_holds : queue_holds one_queued 0 [x01].
Proof.
  exists [0], []. split.
  - eexists. split; [vm_compute; reflexivity|]. split; [vm_compute; discriminate|].
    simpl. concrete.
  - split; [vm_compute; reflexivity|]. split; [apply NoDup_singleton|].
    split; [vm_compute; discriminate|]. split.
    { intros x ->%list_elem_of_singleton. reflexivity. }
    split; [vm_compute; discriminate|]. split; [reflexivity|].
    vm_compute. repeat constructor.
Qed.

(** X8: on a well-formed queue [enqueue_byte] returns, with the byte
    appended, unless it needs a new segment (the queue has none, or the
    byte fills the tail segment) while the pool is exhausted. *)
Theorem enqueue_byte_returns_with_room st i d l b :
  queue_holds st i l ->
  lookupZ (descriptors st) i = Some d ->
  ~ (needs_segment d /\ pool_exhausted st) ->
  exists st', enqueue_byte (desc_ptr i) b st = Ret tt st' /\
              queue_holds st' i (l ++ [b]).
Proof.
  intros (c & fl & Hrep & Hpool) Hd Hno.
  destruct (wp_total (enqueue_byte (desc_ptr i) b)
              (fun _ st' => queue_holds st' i (l ++ [b])) st) as ([] & st' & H1 & H2);
    [|by exists st'].
  eapply wp_mono; [|apply (enqueue_byte_framed_wp_gen False st i c fl [] l b Hrep)].
  - intros [] st' (c' & fl' & Hrep' & Hpool' & _). exists c', fl'.
    rewrite app_nil_r in Hpool'. done.
  - by rewrite app_nil_r.
  - intros d' Hd' Hn Hex. rewrite Hd in Hd'. injection Hd' as <-. by apply Hno.
Qed.

Lemma enqueue_byte_returns_with_room_witness :
  exists st', enqueue_byte (desc_ptr 0) x02 one_queued = Ret tt st' /\
              queue_holds st' 0 ([x01] ++ [x02]).
Proof.
  apply (enqueue_byte_returns_with_room one_queued 0
           {| head_segment := 0; tail_segment := 0; head_offset := 0;
              tail_offset := 1; in_use := 1; pad := 0 |} [x01] x02).
  - exact one_queued_holds.
  - vm_compute. reflexivity.
  - intros [[Hn|Hn] _]; vm_compute in Hn; discriminate.
Defined.

Lemma enqueue_byte_exhausted st i d l b :
  queue_holds st i l ->
  lookupZ (descriptors st) i = Some d ->
  needs_segment d -> pool_exhausted st ->
  enqueue_byte (desc_ptr i) b st = out_of_memory_exit.
Proof.
  intros (c & fl & (d' & Hd' & Hu & Hrep) & Hpool) Hd Hn Hex.
  rewrite Hd in Hd'. injection Hd' as <-.
  unfold enqueue_byte.
  rewrite (bind_Ret _ _ _ _ _ (check_handle_live _ _ _ Hd Hu)).
  rewrite (bind_Ret _ _ _ _ _ (load_desc_eq _ _ _ Hd)).
  destruct (Z.eqb_spec (tail_segment d) INVALID_INDEX) as [Et|Et].
  - apply bind_Exit. apply bind_Exit. by apply allocate_segment_exhausted.
  - destruct Hn as [|Hfull]; [done|].
    rewrite (bind_Ret _ _ _ tt st) by reflexivity.
    assert (Hne : c <> []). { intros ->. by destruct Hrep as (_ & ? & _). }
    destruct (desc_rep_split _ _ _ _ Hne Hrep)
      as (c0 & Hc0 & Hni & Ht0 & Htne & Hch & Hho & Hto & Hone & Hl).
    destruct (is_chain_elem _ _ _ _ (tail_segment d) Hch) as (_ & sgt & Hsgt).
    { rewrite Hc0. apply elem_of_app. right. by left. }
    destruct Hpool as (_ & _ & _ & _ & _ & _ & HF).
    destruct (safe_payload sgt (tail_offset d)) as [b0 Hb0];
      [exact (Forall_lookupZ _ _ _ _ HF Hsgt)|done|].
    rewrite (bind_Ret _ _ _ _ _ (load_desc_eq _ _ _ Hd)).
    rewrite (bind_Ret _ _ _ _ _ (store_payload_eq _ _ b _ _ _ Hsgt Hb0)).
    set (s1 := set_segments _ st).
    assert (Hd1 : lookupZ (descriptors s1) i = Some d) by exact Hd.
    rewrite (bind_Ret _ _ _ _ _ (store_desc_eq i _ d s1 Hd1)).
    set (s2 := set_descriptors _ s1).
    assert (Hd2 : lookupZ (descriptors s2) i =
                  Some (set_tail_offset (wrap8 (tail_offset d + 1)) d)).
    { cbn [descriptors s2 set_descriptors]. by eapply lookupZ_insertZ_eq. }
    rewrite (bind_Ret _ _ _ _ _ (load_desc_eq _ _ _ Hd2)).
    cbn [tail_offset set_tail_offset]. rewrite (wrap8_succ _ Hto), Hfull, Z.eqb_refl.
    apply bind_Exit. by apply allocate_segment_exhausted.
Qed.

(** X9: on a well-formed queue, when [enqueue_byte] needs a new segment
    and the pool is exhausted, the call prints the out-of-memory
    diagnostic and exits. *)
Theorem enqueue_byte_exhausted_exits st i d l b :
  queue_holds st i l ->
  lookupZ (descriptors st) i = Some d ->
  needs_segment d -> pool_exhausted st ->
  enqueue_byte (desc_ptr i) b st = out_of_memory_exit.
Proof.
  exact (enqueue_byte_exhausted st i d l b).
Qed.

Lemma enqueue_byte_exhausted_exits_witness :
  enqueue_byte (desc_ptr 0) x01 fresh_queue_full_pool = out_of_memory_exit.
Proof.
  apply (enqueue_byte_exhausted_exits fresh_queue_full_pool 0
           {| head_segment := INVALID_INDEX; tail_segment := INVALID_INDEX;
              head_offset := 0; tail_offset := 0; in_use := 1; pad := 0 |} [] x01).
  - exists [], []. split.
    + eexists. split; [vm_compute; reflexivity|]. split; [vm_compute; discriminate|].
      simpl. concrete.
    + split; [vm_compute; reflexivity|]. split; [constructor|].
      split; [vm_compute; discriminate|]. split; [intros x []%elem_of_nil|].
      split; [done|]. split; [reflexivity|]. vm_compute. repeat constructor.
  - vm_compute. reflexivity.
  - left. reflexivity.
  - split; [reflexivity|]. vm_compute. discriminate.
Defined.

(** ** Every stored index stays in range *)

Lemma fresh_queue_reachable : reachable fresh_queue.
Proof. eapply reach_create; [apply reach_start|vm_compute; reflexivity]. Qed.

(** X10: in every state reachable through the public operations (also
    after a dequeue on a queue that holds nothing) the table has 64
    descriptors and the pool 95 segments of 14 payload bytes; every next
    link, the free-list head and the head and tail of every in-use
    descriptor are the sentinel or below 95; the bump pointer is at most
    95; and [create_queue], and [destroy_queue] on any handle at all,
    access no array out of bounds. *)
Theorem reachable_indices_in_range st :
  reachable st ->
  length (descriptors st) = Z.to_nat MAX_QUEUES /\
  length (segments st) = Z.to_nat SEGMENT_COUNT /\
  (forall x sg, lookupZ (segments st) x = Some sg ->
     length (data sg) = Z.to_nat SEG_PAYLOAD_SIZE /\ idx_ok (next sg)) /\
  idx_ok (free_list_head (global_data st)) /\
  0 <= next_unused (global_data st) <= SEGMENT_COUNT /\
  (forall i d, lookupZ (descriptors st) i = Some d -> in_use d <> 0 ->
     idx_ok (head_segment d) /\ idx_ok (tail_segment d)) /\
  create_queue st <> Undefined /\
  (forall fuel q, destroy_queue fuel q st <> Undefined).
Proof.
  intros Hr. pose proof (reachable_safe st Hr) as [Hp Hds].
  split; [apply Hp|]. split; [apply Hp|]. split.
  { intros x sg Hsg. split.
    - exact (Forall_lookupZ _ _ _ _ (safe_data_len _ Hp) Hsg).
    - exact (Forall_lookupZ _ _ _ _ (safe_next _ Hp) Hsg). }
  split; [apply Hp|]. split; [apply Hp|]. split.
  { intros i d Hd Hu. destruct (Forall_lookupZ _ _ _ _ Hds Hd Hu) as (_ & _ & ? & ?).
    done. }
  split.
  - eapply wp_not_Undefined. apply create_queue_scan_safe; [by split|lia|].
    unfold MAX_QUEUES. simpl. lia.
  - intros fuel [|i]; [discriminate|].
    destruct (in_table (desc_ptr i)) eqn:Hin.
    + apply andb_true_iff in Hin as [?%Z.leb_le ?%Z.ltb_lt].
      eapply wp_not_Undefined. apply destroy_queue_safe; [by split|lia].
    + unfold destroy_queue. rewrite (bind_Ret _ _ _ tt st) by reflexivity.
      unfold bind at 1. rewrite Hin. discriminate.
Qed.

Lemma reachable_indices_in_range_witness :
  length (descriptors fresh_queue) = Z.to_nat MAX_QUEUES /\
  length (segments fresh_queue) = Z.to_nat SEGMENT_COUNT /\
  (forall x sg, lookupZ (segments fresh_queue) x = Some sg ->
     length (data sg) = Z.to_nat SEG_PAYLOAD_SIZE /\ idx_ok (next sg)) /\
  idx_ok (free_list_head (global_data fresh_queue)) /\
  0 <= next_unused (global_data fresh_queue) <= SEGMENT_COUNT /\
  (forall i d, lookupZ (descriptors fresh_queue) i = Some d -> in_use d <> 0 ->
     idx_ok (head_segment d) /\ idx_ok (tail_segment d)) /\
  create_queue fresh_queue <> Undefined /\
  (forall fuel q, destroy_queue fuel q fresh_queue <> Undefined).
Proof.
  apply (reachable_indices_in_range fresh_queue).
  eapply reach_create; [apply reach_start|vm_compute; reflexivity].
Defined.

(** ** Operations on one queue among many *)

Lemma system_rep_parts st qs1 q qs2 fl :
  system_rep st (qs1 ++ q :: qs2) fl ->
  queue_rep st (lq_slot q) (lq_chain q) (lq_bytes q) /\
  pool_rep st (lq_chain q ++ chains (qs1 ++ qs2)) fl /\
  Forall (fun q => queue_rep st (lq_slot q) (lq_chain q) (lq_bytes q)) (qs1 ++ qs2).
Proof.
  intros (Hnd & Hall & HF & Hpool).
  apply Forall_app in HF as [HF1 HF2]. apply Forall_cons in HF2 as [Hq HF2].
  split; [done|]. split; [|by apply Forall_app].
  eapply pool_rep_perm; [|exact Hpool]. apply chains_middle.
Qed.

(** X11: a returning [enqueue_byte] on one live queue of a well-formed
    table appends the byte to that queue and leaves the table well formed
    with every other queue's slot, chain and bytes as they were. *)
Theorem enqueue_byte_touches_one_queue st qs1 q qs2 fl b st' :
  system_rep st (qs1 ++ q :: qs2) fl ->
  enqueue_byte (desc_ptr (lq_slot q)) b st = Ret tt st' ->
  exists c' fl',
    system_rep st'
      (qs1 ++ {| lq_slot := lq_slot q; lq_chain := c';
                 lq_bytes := lq_bytes q ++ [b] |} :: qs2) fl'.
Proof.
  intros Hsys Hop. destruct (system_rep_parts _ _ _ _ _ Hsys) as (Hrep & Hpool & HF).
  destruct Hsys as (Hnd & Hall & _ & _).
  destruct (wp_Ret_inv True _ _ _ _ _
              (enqueue_byte_framed_wp _ _ _ _ _ _ b Hrep Hpool) Hop)
    as (c' & fl' & Hrep' & Hpool' & Hk).
  exists c', fl'. by eapply system_rep_update.
Qed.

(** X12: [dequeue_byte] on a live queue of a well-formed table that
    holds [b :: l] returns [b], leaves [l] in that queue and leaves the
    table well formed with every other queue's slot, chain and bytes as
    they were. *)
Theorem dequeue_byte_touches_one_queue st qs1 q qs2 fl b l :
  system_rep st (qs1 ++ q :: qs2) fl ->
  lq_bytes q = b :: l ->
  exists st' c' fl',
    dequeue_byte (desc_ptr (lq_slot q)) st = Ret b st' /\
    system_rep st'
      (qs1 ++ {| lq_slot := lq_slot q; lq_chain := c'; lq_bytes := l |} :: qs2) fl'.
Proof.
  intros Hsys Hl. destruct (system_rep_parts _ _ _ _ _ Hsys) as (Hrep & Hpool & HF).
  destruct Hsys as (Hnd & Hall & _ & _). rewrite Hl in Hrep.
  destruct (wp_total _ _ _ (dequeue_byte_framed_wp _ _ _ _ _ _ _ Hrep Hpool))
    as (v & st' & Hop & -> & c' & fl' & Hrep' & Hpool' & Hk).
  exists st', c', fl'. split; [done|]. by eapply system_rep_update.
Qed.

(** X13: a returning [create_queue] on a well-formed table adds one
    empty queue in a slot no live queue has; every other queue and the
    free list are as they were. *)
Theorem create_queue_adds_empty_queue st qs fl q st' :
  system_rep st qs fl -> create_queue st = Ret q st' ->
  exists i, q = desc_ptr i /\ (i ∉ slots qs) /\
    system_rep st' ({| lq_slot := i; lq_chain := []; lq_bytes := [] |} :: qs) fl.
Proof.
  intros Hsys Hop.
  destruct (system_rep_create _ _ _ _ _ Hsys Hop) as (i & -> & Hsys').
  exists i. split; [done|]. split; [|done].
  destruct Hsys' as (Hnd & _). unfold slots in Hnd. cbn [map lq_slot] in Hnd.
  by apply NoDup_cons in Hnd as [? _].
Qed.

Lemma chain_length_bound segs h c :
  is_chain segs h c INVALID_INDEX -> (length c <= length segs)%nat.
Proof.
  intros Hc. pose proof (is_chain_NoDup _ _ _ Hc) as Hnd.
  assert (Hsub : c ⊆+ seqZ 0 (Z.of_nat (length segs))).
  { apply NoDup_submseteq; [done|]. intros x Hx. apply elem_of_seqZ.
    destruct (is_chain_elem _ _ _ _ x Hc Hx) as (_ & sg & Hsg).
    apply lookupZ_lt in Hsg. lia. }
  apply submseteq_length in Hsub. rewrite length_seqZ in Hsub. lia.
Qed.

Lemma queue_rep_chain st i c l :
  queue_rep st i c l ->
  exists d, lookupZ (descriptors st) i = Some d /\ in_use d <> 0 /\
            is_chain (segments st) (head_segment d) c INVALID_INDEX.
Proof.
  intros (d & Hd & Hu & Hrep). exists d. split; [done|]. split; [done|].
  destruct c; by destruct Hrep.
Qed.

Lemma destroy_queue_returns st i c l fl :
  0 <= i < MAX_QUEUES ->
  queue_rep st i c l -> pool_rep st c fl ->
  exists st', destroy_queue 96 (desc_ptr i) st = Ret tt st'.
Proof.
  intros Hi Hrep Hpool.
  destruct (queue_rep_chain _ _ _ _ Hrep) as (d & Hd & Hu & Hch).
  destruct Hpool as (_ & _ & _ & _ & _ & Hlen & _).
  pose proof (chain_length_bound _ _ _ Hch) as Hb. rewrite Hlen in Hb.
  destruct (destroy_walk_chain c st (head_segment d) 96 Hch) as (st1 & Hw & Hd1 & _).
  { rewrite segment_count_val in Hb. lia. }
  assert (Hd1' : lookupZ (descriptors st1) i = Some d) by (by rewrite Hd1).
  eexists. unfold destroy_queue. rewrite (bind_Ret _ _ _ tt st) by reflexivity.
  rewrite (in_table_desc_ptr i Hi).
  rewrite (bind_Ret _ _ _ tt st).
  2: { rewrite (bind_Ret _ _ _ _ _ (load_desc_eq _ _ _ Hd)).
       destruct (Z.eqb_spec (in_use d) 0); [done|reflexivity]. }
  rewrite (bind_Ret _ _ _ _ _ (load_desc_eq _ _ _ Hd)).
  rewrite (bind_Ret _ _ _ _ _ Hw).
  rewrite (bind_Ret _ _ _ _ _ (load_desc_eq _ _ _ Hd1')).
  apply (store_desc_eq i _ d). exact Hd1'.
Qed.

Lemma system_rep_destroy_at st qs1 q qs2 fl fuel st' :
  system_rep st (qs1 ++ q :: qs2) fl ->
  destroy_queue fuel (desc_ptr (lq_slot q)) st = Ret tt st' ->
  system_rep st' (qs1 ++ qs2) (reverse (lq_chain q) ++ fl).
Proof.
  intros Hsys Hdq. destruct (system_rep_parts _ _ _ _ _ Hsys) as (Hrep & Hpool & HF).
  destruct Hsys as (Hnd & Hall & _ & _).
  destruct (destroy_queue_framed _ _ _ _ _ _ _ _ Hrep Hpool Hdq)
    as (Hpool' & Hk & d' & Hd' & Hu').
  unfold slots in Hnd. rewrite map_app in Hnd. cbn [map] in Hnd.
  apply NoDup_app in Hnd as (Hn1 & Hdis & Hn2).
  apply NoDup_cons in Hn2 as [Hr2 Hn2].
  split; [|split; [|split]].
  - unfold slots. rewrite map_app. apply NoDup_app. repeat split; try done.
    intros x Hx Hx2. apply (Hdis x Hx). by right.
  - intros k dk Hdk Huk.
    destruct (Z.eq_dec k (lq_slot q)) as [->|Hne].
    { rewrite Hd' in Hdk. injection Hdk as <-. done. }
    destruct Hk as [Hkd _]. rewrite (Hkd k Hne) in Hdk.
    pose proof (Hall k dk Hdk Huk) as Hin. unfold slots in *.
    rewrite map_app in *. cbn [map] in Hin.
    apply elem_of_app in Hin as [Hin|[Hin|Hin]%elem_of_cons]; [|done|].
    + apply elem_of_app. by left.
    + apply elem_of_app. by right.
  - apply Forall_forall. intros r' Hr'. rewrite Forall_forall in HF.
    apply (queue_rep_kept st st' (lq_slot q) (chains (qs1 ++ qs2)));
      [done| | |by apply HF].
    + intros Heq. apply elem_of_app in Hr' as [Hr'|Hr'].
      * apply (Hdis (lq_slot r')); [by apply list_elem_of_fmap_2|]. rewrite Heq. by left.
      * apply Hr2. rewrite <- Heq. by apply list_elem_of_fmap_2.
    + intros x Hx. by eapply chains_elem.
  - done.
Qed.

(** X14: [destroy_queue] on a live queue of a well-formed table returns
    after at most 95 turns of its loop; the queue is gone from the table,
    its segments are on the free list in front of the old ones (last
    segment of the chain first), and every other queue's slot, chain and
    bytes are as they were. *)
Theorem destroy_queue_touches_one_queue st qs1 q qs2 fl :
  system_rep st (qs1 ++ q :: qs2) fl ->
  0 <= lq_slot q < MAX_QUEUES ->
  exists st',
    destroy_queue 96 (desc_ptr (lq_slot q)) st = Ret tt st' /\
    system_rep st' (qs1 ++ qs2) (reverse (lq_chain q) ++ fl).
Proof.
  intros Hsys Hi. destruct (system_rep_parts _ _ _ _ _ Hsys) as (Hrep & Hpool & _).
  destruct (destroy_queue_returns st _ _ _ fl Hi Hrep) as (st' & Hdq).
  { by eapply pool_rep_restrict. }
  exists st'. split; [done|]. by eapply system_rep_destroy_at.
Qed.

Lemma legal_enqueue_bytes q bs :
  forall st st', legal st -> enqueue_bytes q bs st = Ret tt st' -> legal st'.
Proof.
  induction bs as [|b bs IH]; intros st st' Hst H; simpl in H.
  - injection H as <-. exact Hst.
  - apply bind_Ret_inv in H as ([] & s1 & H1 & H2).
    eapply IH; [|exact H2]. eapply legal_enqueue; eauto.
Qed.

Lemma fifteen_queued_legal : legal fifteen_queued.
Proof.
  apply (legal_enqueue_bytes (desc_ptr 0) fifteen fresh_queue).
  - eapply legal_create; [apply legal_start|vm_compute; reflexivity].
  - vm_compute. reflexivity.
Qed.

(** ** A table with one queue of fifteen bytes *)

Lemma fifteen_queued_system : system_rep fifteen_queued ([] ++ fifteen_queue :: []) [].
Proof.
  split; [apply NoDup_singleton|]. split; [|split].
  - intros i d [Hi Hd]%lookupZ_Some Hu.
    change (descriptors fifteen_queued)
      with ({| head_segment := 0; tail_segment := 1; head_offset := 0;
               tail_offset := 1; in_use := 1; pad := 0 |} :: replicate 63 zero_Q) in Hd.
    destruct (Z.to_nat i) as [|n] eqn:En.
    + assert (i = 0) as -> by lia. by left.
    + cbn [lookup list_lookup] in Hd. apply lookup_replicate in Hd as [-> _]. by destruct Hu.
  - apply Forall_singleton. eexists.
    split; [vm_compute; reflexivity|]. split; [vm_compute; discriminate|].
    simpl. concrete.
  - split; [vm_compute; reflexivity|]. split.
    { apply NoDup_cons. split; [rewrite list_elem_of_singleton; lia|].
      apply NoDup_singleton. }
    split; [vm_compute; discriminate|]. split.
    { intros x Hx. vm_compute in Hx.
      apply elem_of_cons in Hx as [->|Hx]; [reflexivity|].
      apply list_elem_of_singleton in Hx as ->. reflexivity. }
    split; [vm_compute; discriminate|]. split; [reflexivity|].
    vm_compute. repeat constructor.
Qed.

Lemma create_queue_adds_empty_queue_witness :
  exists i, desc_ptr 1 = desc_ptr i /\ (i ∉ slots ([] ++ fifteen_queue :: [])) /\
    system_rep (state_of (create_queue fifteen_queued))
      ({| lq_slot := i; lq_chain := []; lq_bytes := [] |} :: [] ++ fifteen_queue :: []) [].
Proof.
  apply (create_queue_adds_empty_queue fifteen_queued _ [] (desc_ptr 1)).
  - exact fifteen_queued_system.
  - vm_compute. reflexivity.
Defined.

(** ** No segment is lost *)

Lemma wp_no_Ret {A} E (m : M A) (Q : A -> DataOverlay -> Prop) s :
  wp E m Q s -> (forall a s', m s <> Ret a s') -> E.
Proof. unfold wp. intros H Hn. destruct (m s) as [a s'| | |]; try done. by destruct (Hn a s'). Qed.

Lemma destroy_queue_unaccounted st i c l fl o fuel st' :
  queue_rep st i c l -> pool_rep st (c ++ o) fl ->
  destroy_queue fuel (desc_ptr i) st = Ret tt st' ->
  unaccounted st' o (reverse c ++ fl) = unaccounted st (c ++ o) fl.
Proof.
  intros (d & Hd & Hu & Hrep) Hpool Hdq.
  apply destroy_queue_Ret in Hdq
    as (i' & d0 & st1 & [= <-] & Hi & Hd0 & _ & Hw & d1 & Hd1 & ->).
  rewrite Hd in Hd0. injection Hd0 as <-.
  assert (Hch : is_chain (segments st) (head_segment d) c INVALID_INDEX).
  { destruct c; [by destruct Hrep|by destruct Hrep]. }
  destruct (destroy_walk_Ret c st _ fuel st1 Hch Hw) as (_ & Hnu & Hin & _).
  apply unaccounted_eq.
  - by apply next_unused_lazy_init.
  - rewrite !length_app, length_reverse. lia.
Qed.

(** Legal use keeps the table well formed and every segment the bump
    pointer has handed out in a live chain or on the free list. *)
Lemma legal_accounted st :
  legal st -> exists qs fl, system_rep st qs fl /\ unaccounted st (chains qs) fl = 0.
Proof.
  induction 1 as [|st q st' _ (qs & fl & Hsys & Hun) Hop
                  |st fuel q st' _ (qs & fl & Hsys & Hun) Hop
                  |st q b st' _ (qs & fl & Hsys & Hun) Hop
                  |st i b st' _ (qs & fl & Hsys & Hun) Hne Hop].
  - exists [], []. split; [exact system_rep_start|]. vm_compute. reflexivity.
  - destruct (system_rep_create _ _ _ _ _ Hsys Hop) as (i & _ & Hsys').
    eexists _, fl. split; [exact Hsys'|].
    apply create_queue_scan_Ret in Hop as (i' & d & _ & _ & _ & ->).
    rewrite <- Hun. apply unaccounted_eq; reflexivity.
  - pose proof Hop as (i & d & st1 & -> & Hi & Hd & Hu & _)%destroy_queue_Ret.
    destruct (system_rep_focus _ _ _ _ _ Hsys Hd Hu)
      as (qs1 & r & qs2 & -> & <- & Hrep & Hpool & HF).
    exists (qs1 ++ qs2), (reverse (lq_chain r) ++ fl).
    split; [by eapply system_rep_destroy_at|].
    rewrite (destroy_queue_unaccounted _ _ _ _ _ _ _ _ Hrep Hpool Hop).
    rewrite <- Hun. symmetry. apply unaccounted_perm, chains_middle.
  - pose proof Hop as ([] & s0 & Hc & _)%bind_Ret_inv.
    apply check_handle_Ret in Hc as (i & d & -> & Hd & Hu).
    destruct (system_rep_focus _ _ _ _ _ Hsys Hd Hu)
      as (qs1 & r & qs2 & -> & <- & Hrep & Hpool & HF).
    destruct Hsys as (Hnd & Hall & _ & _).
    destruct (wp_Ret_inv True _ _ _ _ _
                (enqueue_byte_framed_wp_count True _ _ _ _ _ _ b Hrep Hpool
                   (fun _ _ _ _ => I)) Hop)
      as (c' & fl' & Hrep' & Hpool' & Hk & Hun').
    eexists _, fl'. split; [by eapply system_rep_update|].
    rewrite (unaccounted_perm _ _ _ _ (chains_middle _ _ _)). cbn [lq_chain].
    rewrite Hun', <- Hun. symmetry. apply unaccounted_perm, chains_middle.
  - pose proof Hop as ([] & s0 & Hc & _)%bind_Ret_inv.
    apply check_handle_Ret in Hc as (i' & d & [= <-] & Hd & Hu).
    destruct (system_rep_focus _ _ _ _ _ Hsys Hd Hu)
      as (qs1 & r & qs2 & -> & <- & Hrep & Hpool & HF).
    destruct Hsys as (Hnd & Hall & _ & _).
    destruct (lq_bytes r) as [|b' l] eqn:Hl.
    { exfalso. apply Hne. exists (lq_chain r), fl. split; [done|].
      by eapply pool_rep_restrict. }
    destruct (wp_total _ _ _ (dequeue_byte_framed_wp_count _ _ _ _ _ _ _ Hrep Hpool))
      as (v & s1 & Hop' & _ & c' & fl' & Hrep' & Hpool' & Hk & Hun').
    rewrite Hop in Hop'. injection Hop' as _ <-.
    eexists _, fl'. split; [by eapply system_rep_update|].
    rewrite (unaccounted_perm _ _ _ _ (chains_middle _ _ _)). cbn [lq_chain].
    rewrite Hun', <- Hun. symmetry. apply unaccounted_perm, chains_middle.
Qed.

Lemma chains_elem_inv x qs : x ∈ chains qs -> exists q, q ∈ qs /\ x ∈ lq_chain q.
Proof.
  induction qs as [|q qs IH]; [intros []%elem_of_nil|].
  rewrite chains_cons. intros [Hx|Hx]%elem_of_app.
  - exists q. split; [by left|done].
  - destruct (IH Hx) as (r & Hr & Hxr). exists r. split; [by right|done].
Qed.

(** Every segment of a live chain or of the free list is one of the 95
    segments of the block. *)
Lemma system_rep_segment_index st qs fl x :
  system_rep st qs fl -> x ∈ chains qs ++ fl -> 0 <= x < SEGMENT_COUNT.
Proof.
  intros (_ & _ & HF & Hfl & _ & _ & _ & _ & Hlen & _) Hx.
  assert (Hsg : exists sg, lookupZ (segments st) x = Some sg).
  { apply elem_of_app in Hx as [Hx|Hx].
    - apply chains_elem_inv in Hx as (q & Hq & Hx). rewrite Forall_forall in HF.
      destruct (queue_rep_chain _ _ _ _ (HF q Hq)) as (d & _ & _ & Hch).
      by destruct (is_chain_elem _ _ _ _ x Hch Hx).
    - by destruct (is_chain_elem _ _ _ _ x Hfl Hx). }
  destruct Hsg as [sg Hsg]. apply lookupZ_lt in Hsg.
  rewrite Hlen, segment_count_val in Hsg. rewrite segment_count_val. lia.
Qed.

Lemma accounted_Permutation st qs fl :
  system_rep st qs fl -> unaccounted st (chains qs) fl = 0 ->
  chains qs ++ fl ≡ₚ seqZ 0 (next_unused (allocator st)) /\
  next_unused (allocator st) <= SEGMENT_COUNT.
Proof.
  intros Hsys Hun. pose proof Hsys as (_ & _ & _ & _ & Hnd & Hnu0 & Hlt & _).
  unfold unaccounted in Hun.
  assert (Hperm : chains qs ++ fl ≡ₚ seqZ 0 (next_unused (allocator st))).
  { apply submseteq_length_Permutation.
    - apply NoDup_submseteq; [done|]. intros x Hx. apply elem_of_seqZ.
      pose proof (system_rep_segment_index _ _ _ _ Hsys Hx). specialize (Hlt x Hx). lia.
    - rewrite length_seqZ. lia. }
  split; [done|].
  assert (Hsub : chains qs ++ fl ⊆+ seqZ 0 SEGMENT_COUNT).
  { apply NoDup_submseteq; [done|]. intros x Hx. apply elem_of_seqZ.
    pose proof (system_rep_segment_index _ _ _ _ Hsys Hx). lia. }
  apply submseteq_length in Hsub. rewrite length_seqZ in Hsub.
  rewrite segment_count_val in *. lia.
Qed.

(** X15: in every state reached from the zero-initialized block through
    calls that return, without ever calling [dequeue_byte] on a queue that
    holds zero bytes, the in-use descriptors are exactly a list of
    well-formed queues, and no segment is shared or lost: the segments in
    the chains of the live queues together with the free list are, without
    repetition, exactly the segments 0 .. next_unused - 1 that the bump
    pointer has handed out so far. *)
Theorem legal_use_loses_no_segment st :
  legal st ->
  exists qs fl, system_rep st qs fl /\
    chains qs ++ fl ≡ₚ seqZ 0 (next_unused (allocator st)).
Proof.
  intros (qs & fl & Hsys & Hun)%legal_accounted. exists qs, fl.
  split; [done|]. by apply accounted_Permutation.
Qed.

Lemma legal_use_loses_no_segment_witness :
  exists qs fl, system_rep fifteen_queued qs fl /\
    chains qs ++ fl ≡ₚ seqZ 0 (next_unused (allocator fifteen_queued)).
Proof.
  apply (legal_use_loses_no_segment fifteen_queued).
  exact fifteen_queued_legal.
Defined.

Lemma nearly_full_legal : legal nearly_full.
Proof.
  apply (legal_enqueue_bytes (desc_ptr 0) (replicate 1329 x00) fresh_queue).
  - eapply legal_create; [apply legal_start|vm_compute; reflexivity].
  - vm_compute. reflexivity.
Qed.

Lemma enqueue_stuck_full st i d b :
  legal st ->
  lookupZ (descriptors st) i = Some d -> in_use d <> 0 ->
  (forall st', enqueue_byte (desc_ptr i) b st <> Ret tt st') ->
  needs_segment d /\ pool_exhausted st /\ (exists l, queue_holds st i l) /\
  exists qs, system_rep st qs [] /\ chains qs ≡ₚ seqZ 0 SEGMENT_COUNT.
Proof.
  intros (qs & fl & Hsys & Hun)%legal_accounted Hd Hu Hno.
  destruct (system_rep_focus _ _ _ _ _ Hsys Hd Hu)
    as (qs1 & r & qs2 & Hqs & <- & Hrep & Hpool & HF).
  assert (HE : needs_segment d /\ pool_exhausted st).
  { apply (wp_no_Ret _ _ _ _
             (enqueue_byte_framed_wp_gen (needs_segment d /\ pool_exhausted st)
                _ _ _ _ _ _ b Hrep Hpool
                (fun d' Hd' Hn Hex =>
                   conj (eq_ind d' needs_segment Hn d
                           (f_equal (default d) (eq_trans (eq_sym Hd') Hd))) Hex))).
    intros [] st'. apply Hno. }
  destruct HE as [Hn [Hflh Hnu]].
  split; [done|]. split; [by split|]. split.
  - exists (lq_bytes r), (lq_chain r), fl. split; [done|]. by eapply pool_rep_restrict.
  - destruct (accounted_Permutation _ _ _ Hsys Hun) as [Hperm Hle].
    pose proof Hsys as (_ & _ & _ & Hfl & _).
    rewrite Hflh in Hfl. apply is_chain_invalid in Hfl as ->.
    exists qs. split; [done|]. rewrite app_nil_r in Hperm.
    by replace SEGMENT_COUNT with (next_unused (allocator st)) by lia.
Qed.

(** X16: in a state reached by legal use, [enqueue_byte] on a live queue
    fails to return only when the memory is really used up: the call then
    exits with the out-of-memory diagnostic, it needed a new segment, the
    free list is empty and all 95 segments are in the chains of live
    queues. *)
Theorem enqueue_byte_fails_only_when_full st i d b :
  legal st ->
  lookupZ (descriptors st) i = Some d -> in_use d <> 0 ->
  (forall st', enqueue_byte (desc_ptr i) b st <> Ret tt st') ->
  enqueue_byte (desc_ptr i) b st = out_of_memory_exit /\
  needs_segment d /\
  exists qs, system_rep st qs [] /\ chains qs ≡ₚ seqZ 0 SEGMENT_COUNT.
Proof.
  intros Hst Hd Hu Hno.
  destruct (enqueue_stuck_full st i d b Hst Hd Hu Hno) as (Hn & Hex & [l Hq] & Hfull).
  split; [|by split]. by apply (enqueue_byte_exhausted st i d l b).
Qed.

Lemma enqueue_byte_fails_only_when_full_witness :
  enqueue_byte (desc_ptr 0) x00 nearly_full = out_of_memory_exit /\
  needs_segment {| head_segment := 0; tail_segment := 94; head_offset := 0;
                   tail_offset := 13; in_use := 1; pad := 0 |} /\
  exists qs, system_rep nearly_full qs [] /\ chains qs ≡ₚ seqZ 0 SEGMENT_COUNT.
Proof.
  apply (enqueue_byte_fails_only_when_full nearly_full 0).
  - exact nearly_full_legal.
  - vm_compute. reflexivity.
  - vm_compute. discriminate.
  - intros st' H. vm_compute in H. discriminate.
Defined.

(** ** Guaranteed capacity *)

(** A queue that owns n segments holds at least 14 n - 27 bytes: at most
    13 cells of its first segment are already read and at most 14 cells of
    its last one are not yet written. *)
Lemma queue_rep_stored st i c l :
  Forall (fun sg => length (data sg) = payload_len) (segments st) ->
  queue_rep st i c l -> (14 * length c <= length l + 27)%nat.
Proof.
  intros HF (d & _ & _ & Hrep). destruct c as [|h c']; [simpl; lia|].
  cbn [desc_rep] in Hrep. destruct Hrep as (Hch & _ & Hho & Hto & _ & ->).
  unfold queue_bytes.
  rewrite length_drop, length_take, (chain_payload_length _ _ _ _ HF Hch), payload_len_val.
  unfold SEG_PAYLOAD_SIZE in *. cbn [length]. lia.
Qed.

Lemma system_rep_stored st qs fl :
  system_rep st qs fl -> (14 * length (chains qs) <= stored qs + 27 * length qs)%nat.
Proof.
  intros (_ & _ & HF & _ & _ & _ & _ & _ & _ & HD).
  induction HF as [|q qs Hq _ IH]; [simpl; lia|].
  rewrite chains_cons, length_app.
  change (stored (q :: qs)) with (length (lq_bytes q) + stored qs)%nat.
  pose proof (queue_rep_stored _ _ _ _ HD Hq). cbn [length]. lia.
Qed.

(** X17: in a state reached by legal use with k live queues,
    [enqueue_byte] on a live queue fails to return only when the queues
    together hold at least 14 * 95 - 27 k bytes. *)
Theorem enqueue_byte_guaranteed_capacity st i d b :
  legal st ->
  lookupZ (descriptors st) i = Some d -> in_use d <> 0 ->
  (forall st', enqueue_byte (desc_ptr i) b st <> Ret tt st') ->
  exists qs, system_rep st qs [] /\
    (14 * 95 <= stored qs + 27 * length qs)%nat.
Proof.
  intros Hst Hd Hu Hno.
  destruct (enqueue_stuck_full st i d b Hst Hd Hu Hno) as (_ & _ & _ & qs & Hsys & Hperm).
  exists qs. split; [done|].
  pose proof (system_rep_stored _ _ _ Hsys) as Hst'.
  apply Permutation_length in Hperm. rewrite length_seqZ, segment_count_val in Hperm. lia.
Qed.

Lemma enqueue_byte_guaranteed_capacity_witness :
  exists qs, system_rep nearly_full qs [] /\
    (14 * 95 <= stored qs + 27 * length qs)%nat.
Proof.
  apply (enqueue_byte_guaranteed_capacity nearly_full 0
           {| head_segment := 0; tail_segment := 94; head_offset := 0;
              tail_offset := 13; in_use := 1; pad := 0 |} x00).
  - exact nearly_full_legal.
  - vm_compute. reflexivity.
  - vm_compute. discriminate.
  - intros st' H. vm_compute in H. discriminate.
Defined.

(** ** A table with three queues and a free list *)

Lemma three_queues_system :
  system_rep three_queues ([queue_a] ++ queue_b :: [queue_c]) [1; 0].
Proof.
  split; [|split; [|split]].
  - unfold slots. cbn [app map lq_slot queue_a queue_b queue_c].
    repeat (apply NoDup_cons; split; [intros Hin; repeat (apply elem_of_cons in Hin as [Hin|Hin]; [discriminate Hin|]); by apply elem_of_nil in Hin|]).
    apply NoDup_nil_2.
  - intros i d [Hi Hd]%lookupZ_Some Hu.
    change (descriptors three_queues)
      with ({| head_segment := 2; tail_segment := 2; head_offset := 0;
               tail_offset := 1; in_use := 1; pad := 0 |} ::
            {| head_segment := 3; tail_segment := 4; head_offset := 0;
               tail_offset := 1; in_use := 1; pad := 0 |} ::
            {| head_segment := 5; tail_segment := 5; head_offset := 0;
               tail_offset := 2; in_use := 1; pad := 0 |} ::
            {| head_segment := 0; tail_segment := 1; head_offset := 0;
               tail_offset := 1; in_use := 0; pad := 0 |} ::
            replicate 60 zero_Q) in Hd.
    unfold slots. cbn [app map lq_slot queue_a queue_b queue_c].
    destruct (Z.to_nat i) as [|[|[|[|n]]]] eqn:En.
    + assert (i = 0) as -> by lia. repeat constructor.
    + assert (i = 1) as -> by lia. repeat constructor.
    + assert (i = 2) as -> by lia. repeat constructor.
    + cbn [lookup list_lookup] in Hd. injection Hd as <-. by destruct Hu.
    + cbn [lookup list_lookup] in Hd. apply lookup_replicate in Hd as [-> _].
      by destruct Hu.
  - cbn [app]. repeat (apply Forall_cons; split); [| | |apply Forall_nil_2].
    + eexists. split; [vm_compute; reflexivity|]. split; [vm_compute; discriminate|].
      simpl. concrete.
    + eexists. split; [vm_compute; reflexivity|]. split; [vm_compute; discriminate|].
      simpl. concrete.
    + eexists. split; [vm_compute; reflexivity|]. split; [vm_compute; discriminate|].
      simpl. concrete.
  - change (chains ([queue_a] ++ queue_b :: [queue_c])) with [2; 3; 4; 5].
    split; [simpl; concrete|]. split.
    { cbn [app]. repeat (apply NoDup_cons; split; [intros Hin; repeat (apply elem_of_cons in Hin as [Hin|Hin]; [discriminate Hin|]); by apply elem_of_nil in Hin|]).
      apply NoDup_nil_2. }
    split; [vm_compute; discriminate|]. split.
    { apply Forall_forall. cbn [app].
      repeat (apply Forall_cons; split; [vm_compute; reflexivity|]). apply Forall_nil_2. }
    split; [intros _; vm_compute; discriminate|]. split; [reflexivity|].
    vm_compute. repeat constructor.
Qed.

Lemma allocate_segment_fresh_witness :
  0 <= 1 < SEGMENT_COUNT /\ (1 ∉ [2; 3; 4; 5]) /\
  descriptors (state_of (allocate_segment three_queues)) = descriptors three_queues /\
  segments (state_of (allocate_segment three_queues)) = segments three_queues /\
  exists fl', pool_rep (state_of (allocate_segment three_queues)) ([2; 3; 4; 5] ++ [1]) fl' /\
              (1 ∉ fl').
Proof.
  apply (allocate_segment_fresh three_queues [2; 3; 4; 5] [1; 0] 1
           (state_of (allocate_segment three_queues))).
  - destruct three_queues_system as (_ & _ & _ & Hp). exact Hp.
  - vm_compute. reflexivity.
Defined.

Lemma enqueue_byte_touches_one_queue_witness :
  exists c' fl',
    system_rep (state_of (enqueue_byte (desc_ptr 1) x10 three_queues))
      ([queue_a] ++ {| lq_slot := lq_slot queue_b; lq_chain := c';
                       lq_bytes := lq_bytes queue_b ++ [x10] |} :: [queue_c]) fl'.
Proof.
  apply (enqueue_byte_touches_one_queue three_queues [queue_a] queue_b [queue_c]
           [1; 0] x10).
  - exact three_queues_system.
  - vm_compute. reflexivity.
Defined.

Lemma dequeue_byte_touches_one_queue_witness :
  exists st' c' fl',
    dequeue_byte (desc_ptr (lq_slot queue_b)) three_queues = Ret x01 st' /\
    system_rep st'
      ([queue_a] ++ {| lq_slot := lq_slot queue_b; lq_chain := c';
                       lq_bytes := tail fifteen |} :: [queue_c]) fl'.
Proof.
  apply (dequeue_byte_touches_one_queue three_queues [queue_a] queue_b [queue_c]
           [1; 0] x01 (tail fifteen)).
  - exact three_queues_system.
  - reflexivity.
Defined.

Lemma destroy_queue_touches_one_queue_witness :
  exists st',
    destroy_queue 96 (desc_ptr (lq_slot queue_b)) three_queues = Ret tt st' /\
    system_rep st' ([queue_a] ++ [queue_c]) (reverse (lq_chain queue_b) ++ [1; 0]).
Proof.
  apply (destroy_queue_touches_one_queue three_queues [queue_a] queue_b [queue_c] [1; 0]).
  - exact three_queues_system.
  - vm_compute. split; [discriminate|reflexivity].
Defined.
